(** * StreetFlix: route playback pipeline

    A shallow embedding of the StreetFlix content scripts (geometry
    utilities, route manager, cache manager, transition engine and the
    playback controller) together with the properties claimed for them.

    Conventions of the embedding.
    - JavaScript numbers that hold integers (indices, counters, 32-bit
      bit-twiddling) are [Z]; the 32-bit wrap-around of the bitwise
      operators is written out.
    - JavaScript numbers that hold measurements (degrees, metres, ratios,
      opacities) are exact rationals [Q]: rounding, NaN, infinities and
      the sign of zero are outside the model.  Where the rounding of
      doubles decides what the code does, it is written out: the
      percentage of [jumpToPercent] is an IEEE 754 double ([Double]),
      and the loops of [normalizeHeadingDiff] do not end on a difference
      so large that adding 360 to a double no longer changes it.
    - The transcendental functions of [Math] are an interface ([JSMath]).
    - An [async] function is a coroutine: one function runs it from the
      call to its first [await], another resumes it from one [await] to
      the next; the program point where it is parked is a value. *)

From Corelib Require SpecFloat.
From Stdlib Require Import ZArith QArith Qround Qabs Qminmax Lqa.
From stdpp Require Import base decidable list strings pretty gmap.

Local Open Scope Z_scope.

(** ** JavaScript primitives *)

Module JS.

(** [ToInt32]: the operand conversion of the bitwise operators. *)
Definition toInt32 (z : Z) : Z := (z + 2 ^ 31) mod 2 ^ 32 - 2 ^ 31.

(** [a | b] on numbers. *)
Definition bitor (a b : Z) : Z := toInt32 (Z.lor (toInt32 a) (toInt32 b)).

(** [a & b] on numbers. *)
Definition bitand (a b : Z) : Z := toInt32 (Z.land (toInt32 a) (toInt32 b)).

(** [a << s]: the shift count is taken modulo 32. *)
Definition shl (a s : Z) : Z := toInt32 (Z.shiftl (toInt32 a) (Z.land s 31)).

(** [a >> s], the sign-propagating shift. *)
Definition sar (a s : Z) : Z := Z.shiftr (toInt32 a) (Z.land s 31).

(** [~a]. *)
Definition bitnot (a : Z) : Z := Z.lnot (toInt32 a).

(** [Math.ceil] on a measurement. *)
Definition ceil (q : Q) : Z := Qceiling q.

(** The remainder operator [a % b] on measurements: the quotient is
    truncated towards zero, the result has the sign of the dividend. *)
Definition rem (a b : Q) : Q :=
  let q := (a / b)%Q in
  (a - b * inject_Z (Z.quot (Qnum q) (Z.pos (Qden q))))%Q.

(** [array[i]] for an integer [i]; [None] stands for [undefined]. *)
Definition index {A} (array : list A) (i : Z) : option A :=
  if i <? 0 then None else array !! Z.to_nat i.

(** The UTF-16 code units of a string; [charCodeAt] reads them. *)
Definition codeUnits (s : string) : list N :=
  map Ascii.N_of_ascii (String.list_ascii_of_string s).

End JS.

(** ** Double-precision numbers *)

Module Double.

(** An IEEE 754 double as the library specifies it: 53 bits of mantissa
    and exponents up to 1024; the operations round to nearest, ties to
    even. *)
Definition prec : Z := 53.
Definition emax : Z := 1024.

Definition double : Type := SpecFloat.spec_float.

(** The double nearest to an integer: an integer literal, or a value
    computed from [array.length]. *)
Definition ofZ (z : Z) : double := SpecFloat.binary_normalize prec emax z 0 false.

(** [x / y] and [x * y] *)
Definition div (x y : double) : double := SpecFloat.SFdiv prec emax x y.
Definition mul (x y : double) : double := SpecFloat.SFmul prec emax x y.

(** [x < y] *)
Definition ltb (x y : double) : bool := SpecFloat.SFltb x y.

(** [0] or [-0] *)
Definition isZero (x : double) : bool :=
  match x with
  | SpecFloat.S754_zero _ => true
  | _ => false
  end.

(** Neither [NaN] nor an infinity. *)
Definition isFinite (x : double) : bool :=
  match x with
  | SpecFloat.S754_zero _ | SpecFloat.S754_finite _ _ _ => true
  | _ => false
  end.

(** [Math.floor(x)], as the integer it is.  [NaN] and the infinities are
    their own floor and are no integer: [None].  The floor of [-0] is
    [-0], which compares and indexes as 0 does. *)
Definition floor (x : double) : option Z :=
  match x with
  | SpecFloat.S754_zero _ => Some 0
  | SpecFloat.S754_finite s m e =>
      let m := if s then Z.neg m else Z.pos m in
      Some (if 0 <=? e then m * 2 ^ e else m / 2 ^ (- e))
  | _ => None
  end.

End Double.

(** The part of [Math] the geometry needs. *)
Class JSMath := {
  Math_PI : Q;
  Math_sin : Q -> Q;
  Math_cos : Q -> Q;
  Math_sqrt : Q -> Q;
  Math_atan2 : Q -> Q -> Q
}.

(** ** Geometry utilities ([GeoUtils]) *)

Record GeoPoint := mkPoint { lat : Q; lng : Q }.

Module GeoUtils.

Section WithMath.
Context `{JSMath}.

Definition toRad (deg : Q) : Q := (deg * Math_PI / 180)%Q.
Definition toDeg (rad : Q) : Q := (rad * 180 / Math_PI)%Q.

Definition calculateHeading (from to : GeoPoint) : Q :=
  let lat1 := toRad (lat from) in
  let lat2 := toRad (lat to) in
  let dLng := toRad (lng to - lng from) in
  let y := (Math_sin dLng * Math_cos lat2)%Q in
  let x := (Math_cos lat1 * Math_sin lat2 -
            Math_sin lat1 * Math_cos lat2 * Math_cos dLng)%Q in
  let heading := Math_atan2 y x in
  let heading := toDeg heading in
  JS.rem (heading + 360) 360.

Definition calculateDistance (from to : GeoPoint) : Q :=
  let R := 6371000%Q in
  let lat1 := toRad (lat from) in
  let lat2 := toRad (lat to) in
  let dLat := toRad (lat to - lat from) in
  let dLng := toRad (lng to - lng from) in
  let a := (Math_sin (dLat / 2) * Math_sin (dLat / 2) +
            Math_cos lat1 * Math_cos lat2 *
            Math_sin (dLng / 2) * Math_sin (dLng / 2))%Q in
  let c := (2 * Math_atan2 (Math_sqrt a) (Math_sqrt (1 - a)))%Q in
  (R * c)%Q.

(** The loop [for (i = 0; i < waypoints.length - 1; i++)] visits the
    consecutive pairs of the list. *)
Fixpoint calculateRouteDistance_from (total : Q) (waypoints : list GeoPoint) : Q :=
  match waypoints with
  | a :: (b :: _) as rest =>
      calculateRouteDistance_from (total + calculateDistance a b)%Q rest
  | _ => total
  end.

Definition calculateRouteDistance (waypoints : list GeoPoint) : Q :=
  calculateRouteDistance_from 0%Q waypoints.

End WithMath.

Definition interpolate (from to : GeoPoint) (t : Q) : GeoPoint :=
  {| lat := (lat from + (lat to - lat from) * t)%Q;
     lng := (lng from + (lng to - lng from) * t)%Q |}.

(** One [do { ... } while (byte >= 0x20)] loop of [decodePolyline],
    started with the given [shift] and [result], on the code units from
    [index] on.  It returns the final [result] and the code units left.
    Past the end of the string [charCodeAt] is [NaN]: [NaN & 0x1f] is 0
    and [NaN >= 0x20] is false, so the loop stops and [result] is kept;
    [index] is then beyond the length, as it is with nothing left. *)
Fixpoint readChunks (cs : list N) (shift result : Z) : Z * list N :=
  match cs with
  | [] => (JS.bitor result (JS.shl 0 shift), [])
  | c :: rest =>
      let byte := Z.of_N c - 63 in
      let result := JS.bitor result (JS.shl (JS.bitand byte 31) shift) in
      if 32 <=? byte then readChunks rest (shift + 5) result
      else (result, rest)
  end.

(** [(result & 1) ? ~(result >> 1) : (result >> 1)] *)
Definition unzigzag (result : Z) : Z :=
  if JS.bitand result 1 =? 0 then JS.sar result 1
  else JS.bitnot (JS.sar result 1).

(** The outer [while (index < encoded.length)] loop, with [lat] and
    [lng] the running sums.  Every round reads at least one code unit,
    so the length of the string bounds the number of rounds; [None] is
    fuel exhaustion, which [decodePolyline_total] rules out. *)
Fixpoint decodeLoop (fuel : nat) (cs : list N) (lat lng : Z) : option (list GeoPoint) :=
  match cs with
  | [] => Some []
  | _ :: _ =>
      match fuel with
      | O => None
      | S fuel =>
          let '(result, cs1) := readChunks cs 0 0 in
          let lat := lat + unzigzag result in
          let '(result, cs2) := readChunks cs1 0 0 in
          let lng := lng + unzigzag result in
          let point := mkPoint (inject_Z lat / 100000) (inject_Z lng / 100000) in
          match decodeLoop fuel cs2 lat lng with
          | Some points => Some (point :: points)
          | None => None
          end
      end
  end.

Definition decodePolyline (encoded : list N) : option (list GeoPoint) :=
  decodeLoop (length encoded) encoded 0 0.

(** Well-formedness of an encoded polyline, as the format defines it:
    every code unit is in the alphabet (63 to 126), every value ends
    with a chunk below 0x20, and the values come in latitude/longitude
    pairs.  The decoder itself never checks any of this. *)
Fixpoint wellFormedFrom (cs : list N) (inValue : bool) (values : nat) : bool :=
  match cs with
  | [] => negb inValue && Nat.even values
  | c :: rest =>
      (63 <=? Z.of_N c) && (Z.of_N c <=? 126) &&
      (if 32 <=? Z.of_N c - 63 then wellFormedFrom rest true values
       else wellFormedFrom rest false (S values))
  end.

Definition wellFormed (encoded : list N) : bool := wellFormedFrom encoded false 0.

(** Beyond 2^62 in magnitude the doubles are 1024 apart: a double there
    plus or minus 360 rounds back to the double itself.  Up to 2^62 the
    nearest doubles are at most 512 apart, and adding or subtracting 360
    moves to another double. *)
Definition absorbs360 (diff : Q) : bool :=
  negb (Qle_bool (Qabs diff) (inject_Z (2 ^ 62))).

(** [diff -= 360] and [diff += 360] *)
Definition minus360 (diff : Q) : Q := if absorbs360 diff then diff else (diff - 360)%Q.
Definition plus360 (diff : Q) : Q := if absorbs360 diff then diff else (diff + 360)%Q.

(** The loop [while (diff > 180) diff -= 360]; [None] is a loop that has
    not ended when the fuel is used up.  The step is taken to be 360
    wherever the double changes at all: that is exact up to 2^53. *)
Fixpoint whileAbove (fuel : nat) (diff : Q) : option Q :=
  if Qle_bool diff 180 then Some diff
  else
    match fuel with
    | O => None
    | S fuel => whileAbove fuel (minus360 diff)
    end.

(** The loop [while (diff < -180) diff += 360]. *)
Fixpoint whileBelow (fuel : nat) (diff : Q) : option Q :=
  if Qle_bool (-180) diff then Some diff
  else
    match fuel with
    | O => None
    | S fuel => whileBelow fuel (plus360 diff)
    end.

(** A number of rounds that neither loop exceeds when it ends at all:
    the full turns in [diff]. *)
Definition turns (diff : Q) : nat := Z.to_nat (Qceiling (Qabs diff / 360)).

(** [None]: the call does not return; one of its loops runs for ever. *)
Definition normalizeHeadingDiff (from to : Q) : option Q :=
  let diff := (to - from)%Q in
  match whileAbove (turns diff) diff with
  | Some diff => whileBelow (turns diff) diff
  | None => None
  end.

Definition interpolateHeading (from to t : Q) : option Q :=
  match normalizeHeadingDiff from to with
  | Some diff =>
      let result := (from + diff * t)%Q in
      Some (JS.rem (result + 360) 360)
  | None => None
  end.

Section Closest.
Context `{JSMath}.




End Closest.

End GeoUtils.

(** ** Route manager ([RouteManager]) *)

Module RouteManager.

Record state := mk {
  waypoints : list GeoPoint;
  currentIndex : Z;
  startPoint : option GeoPoint;
  endPoint : option GeoPoint;
  totalDistance : Q
}.

(** The constructor. *)
Definition new : state :=
  {| waypoints := []; currentIndex := 0; startPoint := None;
     endPoint := None; totalDistance := 0 |}.

Definition set_waypoints (ws : list GeoPoint) (rm : state) : state :=
  {| waypoints := ws; currentIndex := currentIndex rm;
     startPoint := startPoint rm; endPoint := endPoint rm;
     totalDistance := totalDistance rm |}.

Definition set_currentIndex (i : Z) (rm : state) : state :=
  {| waypoints := waypoints rm; currentIndex := i;
     startPoint := startPoint rm; endPoint := endPoint rm;
     totalDistance := totalDistance rm |}.

Definition set_totalDistance (d : Q) (rm : state) : state :=
  {| waypoints := waypoints rm; currentIndex := currentIndex rm;
     startPoint := startPoint rm; endPoint := endPoint rm;
     totalDistance := d |}.

(** [this.waypoints.length] *)
Definition length_ (rm : state) : Z := Z.of_nat (length (waypoints rm)).

Definition targetSpacing : Q := 20.

Section WithMath.
Context `{JSMath}.

(** The body of the [if (distance > targetSpacing)] of [preprocessRoute]:
    the points pushed by [for (j = 1; j < steps; j++)]. *)
Definition intermediates (start end_ : GeoPoint) : list GeoPoint :=
  let distance := GeoUtils.calculateDistance start end_ in
  if negb (Qle_bool distance targetSpacing) then
    let steps := JS.ceil (distance / targetSpacing) in
    map (fun j => GeoUtils.interpolate start end_ (inject_Z j / inject_Z steps))
        (seqZ 1 (steps - 1))
  else [].

(** The loop [for (i = 0; i < this.waypoints.length - 1; i++)] of
    [preprocessRoute]: it visits the consecutive pairs. *)
Fixpoint densify (ws : list GeoPoint) : list GeoPoint :=
  match ws with
  | start :: (end_ :: _) as rest =>
      start :: intermediates start end_ ++ densify rest
  | _ => []
  end.

Definition preprocessRoute (rm : state) : state :=
  if length_ rm <? 2 then rm
  else
    let interpolated := densify (waypoints rm) in
    let interpolated := interpolated ++ option_list (last (waypoints rm)) in
    set_waypoints interpolated rm.

Definition setRoute (points : list GeoPoint) (rm : state) : state :=
  let rm :=
    {| waypoints := points;
       currentIndex := 0;
       startPoint := if 0 <? Z.of_nat (length points) then JS.index points 0
                     else startPoint rm;
       endPoint := if 0 <? Z.of_nat (length points)
                   then JS.index points (Z.of_nat (length points) - 1)
                   else endPoint rm;
       totalDistance := totalDistance rm |} in
  let rm := preprocessRoute rm in
  set_totalDistance (GeoUtils.calculateRouteDistance (waypoints rm)) rm.

Definition setStartPoint (position : GeoPoint) (rm : state) : state :=
  {| waypoints := waypoints rm; currentIndex := currentIndex rm;
     startPoint := Some position; endPoint := endPoint rm;
     totalDistance := totalDistance rm |}.

Definition setEndPoint (position : GeoPoint) (rm : state) : state :=
  {| waypoints := waypoints rm; currentIndex := currentIndex rm;
     startPoint := startPoint rm; endPoint := Some position;
     totalDistance := totalDistance rm |}.

Definition buildRoute (rm : state) : bool * state :=
  match startPoint rm, endPoint rm with
  | Some s, Some e => (true, setRoute [s; e] rm)
  | _, _ => (false, rm)
  end.

End WithMath.

Definition getCurrentWaypoint (rm : state) : option GeoPoint :=
  if currentIndex rm <? length_ rm then JS.index (waypoints rm) (currentIndex rm)
  else None.

Definition getNextWaypoint (rm : state) : option GeoPoint :=
  if currentIndex rm + 1 <? length_ rm
  then JS.index (waypoints rm) (currentIndex rm + 1)
  else None.

Definition advance (rm : state) : bool * state :=
  if currentIndex rm <? length_ rm - 1
  then (true, set_currentIndex (currentIndex rm + 1) rm)
  else (false, rm).

Definition goBack (rm : state) : bool * state :=
  if 0 <? currentIndex rm
  then (true, set_currentIndex (currentIndex rm - 1) rm)
  else (false, rm).

Definition jumpTo (index : Z) (rm : state) : bool * state :=
  if (0 <=? index) && (index <? length_ rm)
  then (true, set_currentIndex index rm)
  else (false, rm).

(** [(percent / 100) * (this.waypoints.length - 1)], in doubles; the
    length of an array is an integer that a double holds exactly. *)
Definition percentProduct (percent : Double.double) (rm : state) : Double.double :=
  Double.mul (Double.div percent (Double.ofZ 100)) (Double.ofZ (length_ rm - 1)).

(** When the floor is [NaN] or an infinity, one of the two comparisons
    of [jumpTo] fails. *)
Definition jumpToPercent (percent : Double.double) (rm : state) : bool * state :=
  match Double.floor (percentProduct percent rm) with
  | Some index => jumpTo index rm
  | None => (false, rm)
  end.

Definition getHeadingToNext `{JSMath} (rm : state) : Q :=
  match getCurrentWaypoint rm, getNextWaypoint rm with
  | Some current, Some next => GeoUtils.calculateHeading current next
  | _, _ => 0
  end.

Definition getProgress (rm : state) : Q :=
  if length_ rm <=? 1 then 0
  else (inject_Z (currentIndex rm) / inject_Z (length_ rm - 1) * 100)%Q.

Definition isComplete (rm : state) : bool :=
  length_ rm - 1 <=? currentIndex rm.

Definition hasRoute (rm : state) : bool := 1 <? length_ rm.

Definition reset (rm : state) : state := set_currentIndex 0 rm.

Definition clear (rm : state) : state := new.

Definition getWaypoint (index : Z) (rm : state) : option GeoPoint :=
  if (0 <=? index) && (index <? length_ rm) then JS.index (waypoints rm) index
  else None.

Section Distances.
Context `{JSMath}.

(** The loop [for (i = 0; i < this.currentIndex && i < this.waypoints.length - 1; i++)]
    of [getDistanceTraveled], from index [i] on: [waypoints] holds the
    waypoints from [i] on, and a pair is left exactly when
    [i < this.waypoints.length - 1]. *)
Fixpoint traveled_from (traveled : Q) (i currentIndex : Z) (waypoints : list GeoPoint) : Q :=
  match waypoints with
  | a :: (b :: _) as rest =>
      if i <? currentIndex
      then traveled_from (traveled + GeoUtils.calculateDistance a b)%Q (i + 1) currentIndex rest
      else traveled
  | _ => traveled
  end.

Definition getDistanceTraveled (rm : state) : Q :=
  traveled_from 0 0 (currentIndex rm) (waypoints rm).


End Distances.

(** The object that [toJSON] returns and [fromJSON] reads; a property
    that the object lacks is [None]. *)
Record json := mkJson {
  json_waypoints : option (list GeoPoint);
  json_startPoint : option GeoPoint;
  json_endPoint : option GeoPoint;
  json_totalDistance : option Q
}.

Definition toJSON (rm : state) : json :=
  {| json_waypoints := Some (waypoints rm);
     json_startPoint := startPoint rm;
     json_endPoint := endPoint rm;
     json_totalDistance := Some (totalDistance rm) |}.

(** [if (data.waypoints)]: an array is truthy, also an empty one. *)
Definition fromJSON `{JSMath} (data : json) (rm : state) : state :=
  match json_waypoints data with
  | Some points => setRoute points rm
  | None => rm
  end.

End RouteManager.

(** ** Cache manager ([CacheManager]) *)

Module CacheManager.

(** A JavaScript [Set] of strings iterates in insertion order, so it is a
    duplicate-free list, oldest element first. *)
Definition has (key : string) (set : list string) : bool :=
  bool_decide (key ∈ set).

Definition add (key : string) (set : list string) : list string :=
  if has key set then set else set ++ [key].

Definition delete (key : string) (set : list string) : list string :=
  filter (λ k, k ≠ key) set.

Record state := mk {
  cached : list string;
  loading : list string;
  cacheAhead : Z;
  maxCacheSize : Z;
  tileCache : list string
}.

(** The constructor. *)
Definition new : state :=
  {| cached := []; loading := []; cacheAhead := 5; maxCacheSize := 50;
     tileCache := [] |}.

Definition set_cached (c : list string) (m : state) : state :=
  {| cached := c; loading := loading m; cacheAhead := cacheAhead m;
     maxCacheSize := maxCacheSize m; tileCache := tileCache m |}.

Definition set_loading (l : list string) (m : state) : state :=
  {| cached := cached m; loading := l; cacheAhead := cacheAhead m;
     maxCacheSize := maxCacheSize m; tileCache := tileCache m |}.

Fixpoint zeros (n : nat) : string :=
  match n with
  | O => EmptyString
  | S n => String (Ascii.ascii_of_nat 48) (zeros n)
  end.

(** [x.toFixed(5)] for [|x| < 10^21]: the sign, then the integer nearest
    to [|x| * 10^5] (the larger one on a tie) written with the point
    before its last five digits. *)
Definition toFixed5 (x : Q) : string :=
  let n := Qfloor (Qabs x * 100000 + (1 # 2)) in
  let digits := pretty (Z.to_N n) in
  let digits := zeros (6 - String.length digits) +:+ digits in
  let k := (String.length digits - 5)%nat in
  (if Qle_bool 0 x then EmptyString else "-") +:+
  String.substring 0 k digits +:+ "." +:+ String.substring k 5 digits.

Definition getPointKey (point : GeoPoint) : string :=
  toFixed5 (lat point) +:+ "," +:+ toFixed5 (lng point).

(** [array.slice(start, end)] *)
Definition slice {A} (l : list A) (start end_ : Z) : list A :=
  let len := Z.of_nat (length l) in
  let k := if start <? 0 then Z.max (len + start) 0 else Z.min start len in
  let final := if end_ <? 0 then Z.max (len + end_) 0 else Z.min end_ len in
  take (Z.to_nat (final - k)) (drop (Z.to_nat k) l).

(** The loop of [trimCache]: [iterator.next().value] is the oldest key
    still in the set, which is then deleted; an exhausted iterator yields
    [undefined], whose deletion changes nothing. *)
Fixpoint trimLoop (toRemove : nat) (cached : list string) : list string :=
  match toRemove with
  | O => cached
  | S toRemove =>
      match cached with
      | [] => []
      | key :: _ => trimLoop toRemove (delete key cached)
      end
  end.

Definition trimCache (m : state) : state :=
  if maxCacheSize m <? Z.of_nat (length (cached m)) then
    let toRemove := Z.of_nat (length (cached m)) - maxCacheSize m in
    set_cached (trimLoop (Z.to_nat toRemove) (cached m)) m
  else m.

Definition isCached (point : GeoPoint) (m : state) : bool :=
  has (getPointKey point) (cached m).

Definition clear (m : state) : state :=
  {| cached := []; loading := []; cacheAhead := cacheAhead m;
     maxCacheSize := maxCacheSize m; tileCache := [] |}.

Definition setCacheAhead (count : Z) (m : state) : state :=
  {| cached := cached m; loading := loading m;
     cacheAhead := Z.max 1 (Z.min 20 count);
     maxCacheSize := maxCacheSize m; tileCache := tileCache m |}.

(** [getStats()] *)
Record stats := mkStats {
  cachedPoints : Z;
  cachedTiles : Z;
  loadingPoints : Z
}.

Definition getStats (m : state) : stats :=
  {| cachedPoints := Z.of_nat (length (cached m));
     cachedTiles := Z.of_nat (length (tileCache m));
     loadingPoints := Z.of_nat (length (loading m)) |}.

(** *** [precachePoint] as a coroutine *)

(** The two [await]s of [precachePoint]. *)
Inductive pc := AwaitPanoId | AwaitPanorama.

(** A fetch sequence in flight: a call of [precachePoint] parked at an
    [await]. *)
Record task := mkTask { task_point : GeoPoint; task_key : string; task_pc : pc }.

(** How an awaited promise settles; the value of [findNearestPanoId] is
    a panorama id or [null]. *)
Inductive outcome := Fulfilled (value : option string) | Rejected.

Definition truthy (value : option string) : bool :=
  match value with
  | Some s => negb (bool_decide (s = EmptyString))
  | None => false
  end.

(** The manager together with the fetch sequences in flight. *)
Record sys := mkSys { mgr : state; tasks : list task }.

Definition init : sys := {| mgr := new; tasks := [] |}.

(** [precachePoint(point)] from the call to the first [await]. *)
Definition precachePoint_call (point : GeoPoint) (s : sys) : sys :=
  let key := getPointKey point in
  if has key (cached (mgr s)) || has key (loading (mgr s)) then s
  else
    {| mgr := set_loading (add key (loading (mgr s))) (mgr s);
       tasks := tasks s ++ [mkTask point key AwaitPanoId] |}.

(** The [finally] block of [precachePoint]. *)
Definition finallyBlock (key : string) (m : state) : state :=
  set_loading (delete key (loading m)) m.

(** [precachePoint] from one [await] to the next, or to its end; the
    second component is the task when it parks again. *)
Definition precachePoint_resume (t : task) (o : outcome) (m : state)
  : state * option task :=
  match task_pc t, o with
  | AwaitPanoId, Fulfilled panoId =>
      if truthy panoId then
        (m, Some (mkTask (task_point t) (task_key t) AwaitPanorama))
      else (trimCache (finallyBlock (task_key t) m), None)
  | AwaitPanorama, Fulfilled _ =>
      let m := set_cached (add (task_key t) (cached m)) m in
      (trimCache (finallyBlock (task_key t) m), None)
  | _, Rejected =>
      (trimCache (finallyBlock (task_key t) m), None)
  end.

(** [precacheRoute(waypoints, currentIndex)]: it has no [await], so it
    runs to its end within the call. *)
Definition precacheRoute (waypoints : list GeoPoint) (currentIndex : Z) (s : sys) : sys :=
  let upcoming := slice waypoints currentIndex (currentIndex + cacheAhead (mgr s)) in
  foldl (fun s point =>
           let key := getPointKey point in
           if negb (has key (cached (mgr s))) && negb (has key (loading (mgr s)))
           then precachePoint_call point s
           else s)
        s upcoming.

(** What can happen to the cache manager between two suspension points. *)
Inductive event :=
| PrecacheRoute (waypoints : list GeoPoint) (currentIndex : Z)
| PrecachePoint (point : GeoPoint)
| Resume (i : nat) (o : outcome)
| TileLoaded (url : string)
| SetCacheAhead (count : Z)
| Clear.

Definition step (s : sys) (e : event) : sys :=
  match e with
  | PrecacheRoute waypoints currentIndex => precacheRoute waypoints currentIndex s
  | PrecachePoint point => precachePoint_call point s
  | Resume i o =>
      match tasks s !! i with
      | Some t =>
          let '(m, parked) := precachePoint_resume t o (mgr s) in
          {| mgr := m;
             tasks := match parked with
                      | Some t' => <[i := t']> (tasks s)
                      | None => base.delete i (tasks s)
                      end |}
      | None => s
      end
  | TileLoaded url =>
      {| mgr := {| cached := cached (mgr s); loading := loading (mgr s);
                   cacheAhead := cacheAhead (mgr s);
                   maxCacheSize := maxCacheSize (mgr s);
                   tileCache := add url (tileCache (mgr s)) |};
         tasks := tasks s |}
  | SetCacheAhead count => {| mgr := setCacheAhead count (mgr s); tasks := tasks s |}
  | Clear => {| mgr := clear (mgr s); tasks := tasks s |}
  end.

Definition run (events : list event) (s : sys) : sys := foldl step s events.

(** The key an event inserts into the cached set: resuming a fetch
    sequence parked at [await this.precachePanorama(panoId)], when that
    promise is fulfilled, runs [this.cached.add(key)]. *)
Definition inserted (s : sys) (e : event) : list string :=
  match e with
  | Resume i (Fulfilled _) =>
      match tasks s !! i with
      | Some (mkTask _ key AwaitPanorama) => [key]
      | _ => []
      end
  | _ => []
  end.

(** The keys inserted during a run, in insertion order. *)
Fixpoint insertionLog (events : list event) (s : sys) : list string :=
  match events with
  | [] => []
  | e :: events => inserted s e ++ insertionLog events (step s e)
  end.

End CacheManager.

(** ** Transition engine ([TransitionEngine]) *)

Module TransitionEngine.

Record settings := mkSettings {
  enabled : bool;
  duration : Z;
  easing : string;
  fadeOpacity : Q
}.

(** The engine object with the style of the two overlay elements it
    owns; [style.opacity] is kept as the number it denotes. *)
Record state := mk {
  isTransitioning : bool;
  settings_ : settings;
  overlayOpacity : Q;
  imageOverlayOpacity : Q;
  imageOverlaySrc : option string;
  overlayTransition : Z * string;
  imageOverlayTransition : Z * string
}.

(** The constructor and [createOverlay]. *)
Definition new : state :=
  {| isTransitioning := false;
     settings_ := {| enabled := true; duration := 300; easing := "ease-out";
                     fadeOpacity := 0.8 |};
     overlayOpacity := 0;
     imageOverlayOpacity := 0;
     imageOverlaySrc := None;
     overlayTransition := (300, "ease-out");
     imageOverlayTransition := (300, "ease-out") |}.

Definition set_isTransitioning (b : bool) (e : state) : state :=
  {| isTransitioning := b; settings_ := settings_ e;
     overlayOpacity := overlayOpacity e;
     imageOverlayOpacity := imageOverlayOpacity e;
     imageOverlaySrc := imageOverlaySrc e;
     overlayTransition := overlayTransition e;
     imageOverlayTransition := imageOverlayTransition e |}.

Definition set_overlayOpacity (o : Q) (e : state) : state :=
  {| isTransitioning := isTransitioning e; settings_ := settings_ e;
     overlayOpacity := o;
     imageOverlayOpacity := imageOverlayOpacity e;
     imageOverlaySrc := imageOverlaySrc e;
     overlayTransition := overlayTransition e;
     imageOverlayTransition := imageOverlayTransition e |}.

Definition set_imageOverlayOpacity (o : Q) (e : state) : state :=
  {| isTransitioning := isTransitioning e; settings_ := settings_ e;
     overlayOpacity := overlayOpacity e;
     imageOverlayOpacity := o;
     imageOverlaySrc := imageOverlaySrc e;
     overlayTransition := overlayTransition e;
     imageOverlayTransition := imageOverlayTransition e |}.

Definition set_imageOverlaySrc (src : string) (e : state) : state :=
  {| isTransitioning := isTransitioning e; settings_ := settings_ e;
     overlayOpacity := overlayOpacity e;
     imageOverlayOpacity := imageOverlayOpacity e;
     imageOverlaySrc := Some src;
     overlayTransition := overlayTransition e;
     imageOverlayTransition := imageOverlayTransition e |}.

(** [updateSettings(newSettings)]: [Object.assign] overwrites the
    properties that [newSettings] has. *)
Record settingsUpdate := mkUpdate {
  new_enabled : option bool;
  new_duration : option Z;
  new_easing : option string;
  new_fadeOpacity : option Q
}.

Definition updateSettings (u : settingsUpdate) (e : state) : state :=
  let st :=
    {| enabled := default (enabled (settings_ e)) (new_enabled u);
       duration := default (duration (settings_ e)) (new_duration u);
       easing := default (easing (settings_ e)) (new_easing u);
       fadeOpacity := default (fadeOpacity (settings_ e)) (new_fadeOpacity u) |} in
  {| isTransitioning := isTransitioning e; settings_ := st;
     overlayOpacity := overlayOpacity e;
     imageOverlayOpacity := imageOverlayOpacity e;
     imageOverlaySrc := imageOverlaySrc e;
     overlayTransition := (duration st, easing st);
     imageOverlayTransition := (duration st, easing st) |}.

Definition isBusy (e : state) : bool := isTransitioning e.

(** The commands the engine sends to the Street View controller. *)
Inductive viewerCall :=
| SetPosition (latLng : GeoPoint)
| SetPov (heading pitch : Q)
| WaitForLoad (timeout : Z).

(** The [await]s of [transitionTo]: the first two are in the branch taken
    when transitions are disabled, the others are inside the [try]. *)
Inductive pc :=
| Off_setPosition (targetHeading : option Q)
| Off_setPov
| On_delay50 (targetPosition : GeoPoint) (targetHeading : option Q)
| On_setPosition (targetHeading : option Q)
| On_setPov
| On_waitForLoad
| On_delay100
| On_delayDuration.

Definition inTry (p : pc) : bool :=
  match p with
  | Off_setPosition _ | Off_setPov => false
  | _ => true
  end.

(** The number of [await]s still ahead of a parked call, the one it is
    parked at included. *)
Definition awaitsLeft (p : pc) : nat :=
  match p with
  | Off_setPosition _ => 2
  | Off_setPov => 1
  | On_delay50 _ _ => 6
  | On_setPosition _ => 5
  | On_setPov => 4
  | On_waitForLoad => 3
  | On_delay100 => 2
  | On_delayDuration => 1
  end.

(** How an awaited promise settles. *)
Inductive outcome := Fulfilled | Rejected.

(** Where a piece of [transitionTo] ends: at an [await], at a [return],
    or with an exception under way. *)
Inductive result := Parked (p : pc) | Returned (success : bool) | Threw.

(** A piece of code: the engine after it, the commands it sent, and how
    it ended. *)
Definition piece : Type := state * list viewerCall * result.

(** A captured frame is used when it is a non-empty string. *)
Definition truthy (frame : option string) : bool :=
  match frame with
  | Some s => negb (bool_decide (s = EmptyString))
  | None => false
  end.

(** The [try] block from its start to the first [await]; [frame] is what
    [captureFrame()] returns. *)
Definition tryStart (frame : option string) (targetPosition : GeoPoint)
    (targetHeading : option Q) (e : state) : piece :=
  let capturedFrame := frame in
  let e :=
    if truthy capturedFrame then
      set_imageOverlayOpacity 1 (set_imageOverlaySrc (default EmptyString capturedFrame) e)
    else set_overlayOpacity (fadeOpacity (settings_ e)) e in
  (e, [], Parked (On_delay50 targetPosition targetHeading)).

(** The [try] block from an [await] that settled with [o] to the next
    [await] or to [return true]. *)
Definition tryBody (p : pc) (o : outcome) (e : state) : piece :=
  match o with
  | Rejected => (e, [], Threw)
  | Fulfilled =>
      match p with
      | On_delay50 targetPosition targetHeading =>
          (e, [SetPosition targetPosition], Parked (On_setPosition targetHeading))
      | On_setPosition targetHeading =>
          match targetHeading with
          | Some heading => (e, [SetPov heading 0], Parked On_setPov)
          | None => (e, [WaitForLoad 2000], Parked On_waitForLoad)
          end
      | On_setPov => (e, [WaitForLoad 2000], Parked On_waitForLoad)
      | On_waitForLoad => (e, [], Parked On_delay100)
      | On_delay100 =>
          let e := set_imageOverlayOpacity 0 e in
          let e := set_overlayOpacity 0 e in
          (e, [], Parked On_delayDuration)
      | On_delayDuration => (e, [], Returned true)
      | Off_setPosition _ | Off_setPov => (e, [], Threw)
      end
  end.

Definition catchBlock (e : state) : state :=
  set_overlayOpacity 0 (set_imageOverlayOpacity 0 e).

Definition finallyBlock (e : state) : state :=
  set_isTransitioning false e.

(** [try { body } catch { ... return false } finally { ... }] around a
    piece of the body. *)
Definition tryCatchFinally (body : piece) : piece :=
  let '(e, sent, r) := body in
  match r with
  | Parked p => (e, sent, Parked p)
  | Returned success => (finallyBlock e, sent, Returned success)
  | Threw => (finallyBlock (catchBlock e), sent, Returned false)
  end.

(** The branch [if (!this.settings.enabled)] from an [await] on. *)
Definition offBody (p : pc) (o : outcome) (e : state) : piece :=
  match o with
  | Rejected => (e, [], Threw)
  | Fulfilled =>
      match p with
      | Off_setPosition (Some heading) => (e, [SetPov heading 0], Parked Off_setPov)
      | Off_setPosition None => (e, [], Returned true)
      | _ => (e, [], Returned true)
      end
  end.

(** [transitionTo(targetPosition, targetHeading)] from the call to its
    first [await] or [return]. *)
Definition transitionTo_call (frame : option string) (targetPosition : GeoPoint)
    (targetHeading : option Q) (e : state) : piece :=
  if isTransitioning e then (e, [], Returned false)
  else if negb (enabled (settings_ e)) then
    (e, [SetPosition targetPosition], Parked (Off_setPosition targetHeading))
  else
    let e := set_isTransitioning true e in
    tryCatchFinally (tryStart frame targetPosition targetHeading e).

(** [transitionTo] from one [await] to the next, or to its end. *)
Definition transitionTo_resume (p : pc) (o : outcome) (e : state) : piece :=
  if inTry p then tryCatchFinally (tryBody p o e) else offBody p o e.

(** *** The engine among its callers *)

(** The promise returned by a call of [transitionTo]. *)
Inductive promise := Pending (p : pc) | Resolved (success : bool) | Failed.

Definition promiseOf (r : result) : promise :=
  match r with
  | Parked p => Pending p
  | Returned success => Resolved success
  | Threw => Failed
  end.

(** The engine, the frame [captureFrame()] would return now, the commands
    received by the viewer so far, and the promises of all the calls made
    so far, numbered in call order. *)
Record sys := mkSys {
  engine : state;
  frame : option string;
  viewer : list viewerCall;
  promises : list promise
}.

Definition init : sys :=
  {| engine := new; frame := None; viewer := []; promises := [] |}.

(** A call of [transitionTo]; its promise is the last one of the result. *)
Definition call (targetPosition : GeoPoint) (targetHeading : option Q) (s : sys) : sys :=
  let '(e, sent, r) := transitionTo_call (frame s) targetPosition targetHeading (engine s) in
  {| engine := e; frame := frame s; viewer := viewer s ++ sent;
     promises := promises s ++ [promiseOf r] |}.

(** The call with promise [id] is resumed: what it awaits settled with [o]. *)
Definition resume (id : nat) (o : outcome) (s : sys) : sys :=
  match promises s !! id with
  | Some (Pending p) =>
      let '(e, sent, r) := transitionTo_resume p o (engine s) in
      {| engine := e; frame := frame s; viewer := viewer s ++ sent;
         promises := <[id := promiseOf r]> (promises s) |}
  | _ => s
  end.

(** The events around [transitionTo]; [flashTransition], which nothing
    in the extension calls, joins them in [flashEvent] below. *)
Inductive event :=
| Call (targetPosition : GeoPoint) (targetHeading : option Q)
| Resume (id : nat) (o : outcome)
| UpdateSettings (u : settingsUpdate)
| FrameChanges (f : option string).

Definition step (s : sys) (ev : event) : sys :=
  match ev with
  | Call targetPosition targetHeading => call targetPosition targetHeading s
  | Resume id o => resume id o s
  | UpdateSettings u =>
      {| engine := updateSettings u (engine s); frame := frame s;
         viewer := viewer s; promises := promises s |}
  | FrameChanges f =>
      {| engine := engine s; frame := f; viewer := viewer s;
         promises := promises s |}
  end.

Definition run (events : list event) (s : sys) : sys := foldl step s events.

(** *** [flashTransition] *)

Definition set_overlayTransition (t : Z * string) (e : state) : state :=
  {| isTransitioning := isTransitioning e; settings_ := settings_ e;
     overlayOpacity := overlayOpacity e;
     imageOverlayOpacity := imageOverlayOpacity e;
     imageOverlaySrc := imageOverlaySrc e;
     overlayTransition := t;
     imageOverlayTransition := imageOverlayTransition e |}.

(** The two [await]s of [flashTransition]. *)
Inductive flashPc := Flash_delay1 | Flash_delay2.

(** [flashTransition()] from the call to its first [await].  It neither
    reads nor writes [isTransitioning]. *)
Definition flashTransition_call (e : state) : state * flashPc :=
  let e := set_overlayTransition (100, "ease-out") e in
  let e := set_overlayOpacity 0.5 e in
  (e, Flash_delay1).

(** [flashTransition] from one [await] to the next, or to its end
    ([None]).  What it awaits is a [delay], which is only ever
    fulfilled. *)
Definition flashTransition_resume (p : flashPc) (e : state) : state * option flashPc :=
  match p with
  | Flash_delay1 => (set_overlayOpacity 0 e, Some Flash_delay2)
  | Flash_delay2 =>
      (set_overlayTransition (duration (settings_ e), easing (settings_ e)) e, None)
  end.

(** The engine among its callers, those of [flashTransition] included:
    with the system above, the calls of [flashTransition] made so far,
    numbered in call order, each parked at an [await] or finished
    ([None]). *)
Record flashSys := mkFlashSys {
  base : sys;
  flashes : list (option flashPc)
}.

Definition flashInit : flashSys := {| base := init; flashes := [] |}.

Definition set_engine (e : state) (s : sys) : sys :=
  {| engine := e; frame := frame s; viewer := viewer s; promises := promises s |}.

(** Every event of the engine, a call of [flashTransition], or the
    resumption of the call of [flashTransition] numbered [id]. *)
Inductive flashEvent :=
| Engine (ev : event)
| Flash
| FlashResumes (id : nat).

Definition flashStep (s : flashSys) (ev : flashEvent) : flashSys :=
  match ev with
  | Engine ev => {| base := step (base s) ev; flashes := flashes s |}
  | Flash =>
      let '(e, p) := flashTransition_call (engine (base s)) in
      {| base := set_engine e (base s); flashes := flashes s ++ [Some p] |}
  | FlashResumes id =>
      match flashes s !! id with
      | Some (Some p) =>
          let '(e, next) := flashTransition_resume p (engine (base s)) in
          {| base := set_engine e (base s); flashes := <[id := next]> (flashes s) |}
      | _ => s
      end
  end.

Definition flashRun (events : list flashEvent) (s : flashSys) : flashSys :=
  foldl flashStep s events.

(** *** [animateHeading] *)




End TransitionEngine.

(** ** Street View controller ([StreetViewController]) *)

Module StreetView.







(** *** The event emitter *)

(** [this.listeners] is a map from event names to the callbacks
    registered, in registration order; a callback is known by its
    identity. *)

Definition on (event : string) (callback : nat) (ls : gmap string (list nat))
  : gmap string (list nat) :=
  let ls := if decide (is_Some (ls !! event)) then ls else <[event := []]> ls in
  <[event := default [] (ls !! event) ++ [callback]]> ls.

(** [callbacks.indexOf(callback)] and [callbacks.splice(idx, 1)] *)
Definition off (event : string) (callback : nat) (ls : gmap string (list nat))
  : gmap string (list nat) :=
  match ls !! event with
  | Some callbacks =>
      match list_find (fun cb => cb = callback) callbacks with
      | Some (idx, _) => <[event := base.delete idx callbacks]> ls
      | None => ls
      end
  | None => ls
  end.

(** [emit(event, data)]: the calls made, each a callback with the data. *)
Definition emit {D} (event : string) (data : D) (ls : gmap string (list nat))
  : list (nat * D) :=
  match ls !! event with
  | Some callbacks => map (fun cb => (cb, data)) callbacks
  | None => []
  end.

(** [destroy()] clears the listeners. *)
Definition destroy (ls : gmap string (list nat))
  : gmap string (list nat) := ∅.

End StreetView.

(** ** Playback controller ([StreetFlixController]) *)

Module Controller.

Record settings := mkSettings {
  smoothTransitions : bool;
  transitionSpeed : Z;
  autoHeading : bool
}.

(** What the controller tells the popup. *)
Inductive message :=
| StatusMsg (playing paused : bool) (progress : Q)
| ProgressMsg (progress : Q).

(** The controller with its three components, and around it what its
    methods act on: the pending timeouts of the page, the calls of
    [advanceFrame] parked at their [await] (each with the promise it
    awaits), the floating progress bar and the messages sent. *)
Record state := mk {
  route : RouteManager.state;
  transitions : TransitionEngine.sys;
  cache : CacheManager.sys;
  isPlaying : bool;
  isPaused : bool;
  speed : string;
  playbackTimer : option nat;
  settings_ : settings;
  timers : list (nat * Z);
  nextTimer : nat;
  cycles : list nat;
  uiShown : bool;
  uiBar : Q;
  sent : list message
}.

Definition init : state :=
  {| route := RouteManager.new;
     transitions := TransitionEngine.init;
     cache := CacheManager.init;
     isPlaying := false;
     isPaused := false;
     speed := "cycling";
     playbackTimer := None;
     settings_ := {| smoothTransitions := true; transitionSpeed := 300;
                     autoHeading := true |};
     timers := [];
     nextTimer := 1;
     cycles := [];
     uiShown := false;
     uiBar := 0;
     sent := [] |}.

Definition set_route (r : RouteManager.state) (s : state) : state :=
  {| route := r; transitions := transitions s; cache := cache s;
     isPlaying := isPlaying s; isPaused := isPaused s; speed := speed s;
     playbackTimer := playbackTimer s; settings_ := settings_ s;
     timers := timers s; nextTimer := nextTimer s; cycles := cycles s;
     uiShown := uiShown s; uiBar := uiBar s; sent := sent s |}.

Definition set_transitions (t : TransitionEngine.sys) (s : state) : state :=
  {| route := route s; transitions := t; cache := cache s;
     isPlaying := isPlaying s; isPaused := isPaused s; speed := speed s;
     playbackTimer := playbackTimer s; settings_ := settings_ s;
     timers := timers s; nextTimer := nextTimer s; cycles := cycles s;
     uiShown := uiShown s; uiBar := uiBar s; sent := sent s |}.

Definition set_cache (c : CacheManager.sys) (s : state) : state :=
  {| route := route s; transitions := transitions s; cache := c;
     isPlaying := isPlaying s; isPaused := isPaused s; speed := speed s;
     playbackTimer := playbackTimer s; settings_ := settings_ s;
     timers := timers s; nextTimer := nextTimer s; cycles := cycles s;
     uiShown := uiShown s; uiBar := uiBar s; sent := sent s |}.

Definition set_playing (playing paused : bool) (s : state) : state :=
  {| route := route s; transitions := transitions s; cache := cache s;
     isPlaying := playing; isPaused := paused; speed := speed s;
     playbackTimer := playbackTimer s; settings_ := settings_ s;
     timers := timers s; nextTimer := nextTimer s; cycles := cycles s;
     uiShown := uiShown s; uiBar := uiBar s; sent := sent s |}.

Definition set_speed (sp : string) (s : state) : state :=
  {| route := route s; transitions := transitions s; cache := cache s;
     isPlaying := isPlaying s; isPaused := isPaused s; speed := sp;
     playbackTimer := playbackTimer s; settings_ := settings_ s;
     timers := timers s; nextTimer := nextTimer s; cycles := cycles s;
     uiShown := uiShown s; uiBar := uiBar s; sent := sent s |}.

Definition set_cycles (c : list nat) (s : state) : state :=
  {| route := route s; transitions := transitions s; cache := cache s;
     isPlaying := isPlaying s; isPaused := isPaused s; speed := speed s;
     playbackTimer := playbackTimer s; settings_ := settings_ s;
     timers := timers s; nextTimer := nextTimer s; cycles := c;
     uiShown := uiShown s; uiBar := uiBar s; sent := sent s |}.

(** The table [this.speeds]: the properties of the object literal. *)
Definition speeds : list (string * Z) :=
  [("walking", 2500); ("cycling", 1200); ("driving", 600); ("flying", 250)].

Definition speedOf (name : string) : option Z :=
  match list_find (λ entry, fst entry = name) speeds with
  | Some (_, (_, ms)) => Some ms
  | None => None
  end.

(** The properties that an object literal inherits from
    [Object.prototype]: each holds a function, and [__proto__] the
    prototype itself. *)
Definition inheritedKeys : list string :=
  ["constructor"; "hasOwnProperty"; "isPrototypeOf"; "propertyIsEnumerable";
   "toLocaleString"; "toString"; "valueOf"; "__proto__";
   "__defineGetter__"; "__defineSetter__"; "__lookupGetter__"; "__lookupSetter__"].

(** What [this.speeds[name]] holds: a number of milliseconds, or
    something inherited, which is no number. *)
Inductive speedsValue := Millis (ms : Z) | Inherited.

(** [this.speeds[name]]; [None] stands for [undefined]. *)
Definition speedsAt (name : string) : option speedsValue :=
  match speedOf name with
  | Some ms => Some (Millis ms)
  | None => if bool_decide (name ∈ inheritedKeys) then Some Inherited else None
  end.

(** The delay that [setTimeout] makes of its second argument: a function
    or an object converts to [NaN], and the delay is then 0. *)
Definition delayOf (v : speedsValue) : Z :=
  match v with
  | Millis ms => ms
  | Inherited => 0
  end.

(** [this.speeds[this.speed] || this.speeds.cycling], as the delay of
    the timeout it is passed to.  The four numbers are not 0 and
    whatever is inherited is a function or an object, so all of them are
    truthy: the fallback is taken only when [this.speeds] has no such
    property. *)
Definition interval (s : state) : Z :=
  delayOf (default (Millis 1200) (speedsAt (speed s))).

Definition speedOrder : list string := ["walking"; "cycling"; "driving"; "flying"].

(** [speedOrder.indexOf(name)] *)
Definition indexOf (name : string) : Z :=
  match list_find (λ n, n = name) speedOrder with
  | Some (i, _) => Z.of_nat i
  | None => -1
  end.

(** [this.playbackTimer = setTimeout(() => this.advanceFrame(), delay)] *)
Definition setTimeout (delay : Z) (s : state) : state :=
  {| route := route s; transitions := transitions s; cache := cache s;
     isPlaying := isPlaying s; isPaused := isPaused s; speed := speed s;
     playbackTimer := Some (nextTimer s); settings_ := settings_ s;
     timers := timers s ++ [(nextTimer s, delay)];
     nextTimer := S (nextTimer s); cycles := cycles s;
     uiShown := uiShown s; uiBar := uiBar s; sent := sent s |}.

(** [if (this.playbackTimer) { clearTimeout(this.playbackTimer);
    this.playbackTimer = null; }]; the handles of a page start at 1, so a
    handle is never falsy. *)
Definition clearPlaybackTimer (s : state) : state :=
  match playbackTimer s with
  | Some handle =>
      {| route := route s; transitions := transitions s; cache := cache s;
         isPlaying := isPlaying s; isPaused := isPaused s; speed := speed s;
         playbackTimer := None; settings_ := settings_ s;
         timers := filter (λ t, fst t ≠ handle) (timers s);
         nextTimer := nextTimer s; cycles := cycles s;
         uiShown := uiShown s; uiBar := uiBar s; sent := sent s |}
  | None => s
  end.

Definition showFloatingUI (show : bool) (s : state) : state :=
  {| route := route s; transitions := transitions s; cache := cache s;
     isPlaying := isPlaying s; isPaused := isPaused s; speed := speed s;
     playbackTimer := playbackTimer s; settings_ := settings_ s;
     timers := timers s; nextTimer := nextTimer s; cycles := cycles s;
     uiShown := show; uiBar := uiBar s; sent := sent s |}.

Definition updateFloatingUI (s : state) : state :=
  {| route := route s; transitions := transitions s; cache := cache s;
     isPlaying := isPlaying s; isPaused := isPaused s; speed := speed s;
     playbackTimer := playbackTimer s; settings_ := settings_ s;
     timers := timers s; nextTimer := nextTimer s; cycles := cycles s;
     uiShown := uiShown s; uiBar := RouteManager.getProgress (route s);
     sent := sent s |}.

Definition send (m : message) (s : state) : state :=
  {| route := route s; transitions := transitions s; cache := cache s;
     isPlaying := isPlaying s; isPaused := isPaused s; speed := speed s;
     playbackTimer := playbackTimer s; settings_ := settings_ s;
     timers := timers s; nextTimer := nextTimer s; cycles := cycles s;
     uiShown := uiShown s; uiBar := uiBar s; sent := sent s ++ [m] |}.

Definition sendStatusUpdate (s : state) : state :=
  send (StatusMsg (isPlaying s) (isPaused s) (RouteManager.getProgress (route s))) s.

Definition sendProgressUpdate (s : state) : state :=
  send (ProgressMsg (RouteManager.getProgress (route s))) s.

Definition stop (s : state) : state :=
  let s := set_playing false false s in
  let s := clearPlaybackTimer s in
  let s := set_route (RouteManager.reset (route s)) s in
  let s := showFloatingUI false s in
  sendStatusUpdate s.

Definition pause (s : state) : state :=
  let s := set_playing false true s in
  let s := clearPlaybackTimer s in
  let s := updateFloatingUI s in
  sendStatusUpdate s.

Section WithMath.
Context `{JSMath}.

(** [advanceFrame()] from the call to its [await], or to a [return]. *)
Definition advanceFrame_call (s : state) : state :=
  if negb (isPlaying s) || isPaused s then s
  else
    match RouteManager.getNextWaypoint (route s) with
    | None => stop s
    | Some next =>
        let s := set_cache (CacheManager.precacheRoute
                              (RouteManager.waypoints (route s))
                              (RouteManager.currentIndex (route s)) (cache s)) s in
        let heading := if autoHeading (settings_ s)
                       then Some (RouteManager.getHeadingToNext (route s))
                       else None in
        let promise := length (TransitionEngine.promises (transitions s)) in
        let s := set_transitions (TransitionEngine.call next heading (transitions s)) s in
        set_cycles (cycles s ++ [promise]) s
    end.

(** [advanceFrame()] from its [await] on, with the value [success] of
    the awaited promise. *)
Definition advanceFrame_resume (success : bool) (s : state) : state :=
  let s :=
    if success then
      let s := set_route (snd (RouteManager.advance (route s))) s in
      let s := updateFloatingUI s in
      sendProgressUpdate s
    else s in
  if isPlaying s && negb (isPaused s) then setTimeout (interval s) s
  else s.

Definition play (s : state) : state :=
  if negb (RouteManager.hasRoute (route s)) then s
  else if isPlaying s then s
  else
    let s := set_playing true false s in
    let s := showFloatingUI true s in
    let s := updateFloatingUI s in
    let s := sendStatusUpdate s in
    advanceFrame_call s.

Definition skip (frames : Z) (s : state) : state :=
  let newIndex :=
    Z.max 0 (Z.min (RouteManager.length_ (route s) - 1)
                   (RouteManager.currentIndex (route s) + frames)) in
  let s := set_route (snd (RouteManager.jumpTo newIndex (route s))) s in
  let s :=
    match RouteManager.getCurrentWaypoint (route s) with
    | Some waypoint =>
        let heading := RouteManager.getHeadingToNext (route s) in
        set_transitions (TransitionEngine.call waypoint (Some heading) (transitions s)) s
    | None => s
    end in
  updateFloatingUI s.

Definition speedUp (s : state) : state :=
  let currentIdx := indexOf (speed s) in
  if currentIdx <? Z.of_nat (length speedOrder) - 1 then
    updateFloatingUI (set_speed (default (speed s) (JS.index speedOrder (currentIdx + 1))) s)
  else s.

Definition slowDown (s : state) : state :=
  let currentIdx := indexOf (speed s) in
  if 0 <? currentIdx then
    updateFloatingUI (set_speed (default (speed s) (JS.index speedOrder (currentIdx - 1))) s)
  else s.

Definition updateSettings (new : settings) (s : state) : state :=
  let s :=
    {| route := route s; transitions := transitions s; cache := cache s;
       isPlaying := isPlaying s; isPaused := isPaused s; speed := speed s;
       playbackTimer := playbackTimer s; settings_ := new;
       timers := timers s; nextTimer := nextTimer s; cycles := cycles s;
       uiShown := uiShown s; uiBar := uiBar s; sent := sent s |} in
  set_transitions
    (TransitionEngine.step (transitions s)
       (TransitionEngine.UpdateSettings
          {| TransitionEngine.new_enabled := Some (smoothTransitions new);
             TransitionEngine.new_duration := Some (transitionSpeed new);
             TransitionEngine.new_easing := None;
             TransitionEngine.new_fadeOpacity := None |})) s.

(** What can happen between two suspension points: a method is called
    from the page or the popup, a timeout fires, or a parked coroutine is
    resumed. *)
Inductive event :=
| Play
| Pause
| Stop
| Skip (frames : Z)
| SetSpeed (name : string)
| SpeedUp
| SlowDown
| UpdateSettings (new : settings)
| SetRoute (points : list GeoPoint)
| TimerFires (handle : nat)
| TransitionResumes (promise : nat) (o : TransitionEngine.outcome)
| FrameChanges (f : option string)
| CycleResumes (i : nat)
| CacheEvent (e : CacheManager.event).

Definition step (s : state) (ev : event) : state :=
  match ev with
  | Play => play s
  | Pause => pause s
  | Stop => stop s
  | Skip frames => skip frames s
  | SetSpeed name => set_speed name s
  | SpeedUp => speedUp s
  | SlowDown => slowDown s
  | UpdateSettings new => updateSettings new s
  | SetRoute points => set_route (RouteManager.setRoute points (route s)) s
  | TimerFires handle =>
      if bool_decide (handle ∈ (fst <$> timers s)) then
        let s :=
          {| route := route s; transitions := transitions s; cache := cache s;
             isPlaying := isPlaying s; isPaused := isPaused s; speed := speed s;
             playbackTimer := playbackTimer s; settings_ := settings_ s;
             timers := filter (λ t, fst t ≠ handle) (timers s);
             nextTimer := nextTimer s; cycles := cycles s;
             uiShown := uiShown s; uiBar := uiBar s; sent := sent s |} in
        advanceFrame_call s
      else s
  | TransitionResumes promise o =>
      set_transitions (TransitionEngine.resume promise o (transitions s)) s
  | FrameChanges f =>
      set_transitions (TransitionEngine.step (transitions s) (TransitionEngine.FrameChanges f)) s
  | CycleResumes i =>
      match cycles s !! i with
      | Some promise =>
          match TransitionEngine.promises (transitions s) !! promise with
          | Some (TransitionEngine.Resolved success) =>
              advanceFrame_resume success (set_cycles (base.delete i (cycles s)) s)
          | Some TransitionEngine.Failed => set_cycles (base.delete i (cycles s)) s
          | _ => s
          end
      | None => s
      end
  | CacheEvent e => set_cache (CacheManager.step (cache s) e) s
  end.

Definition run (events : list event) (s : state) : state := foldl step s events.

End WithMath.

End Controller.

(** A small-angle stand-in for [Math], for the worked examples only
    (the properties below hold for any implementation of [JSMath]): the
    sine of a small angle is the angle, the square root is taken to 15
    decimal places, and the arc tangent of a small ratio is the ratio. *)
Definition flatMath : JSMath :=
  {| Math_PI := 355 # 113;
     Math_sin := fun x => x;
     Math_cos := fun x => (1 - x * x / 2)%Q;
     Math_sqrt := fun x =>
       (inject_Z (Z.sqrt (Qfloor (x * inject_Z (10 ^ 30)))) / inject_Z (10 ^ 15))%Q;
     Math_atan2 := fun y x => (y / x)%Q |}.

(** ** Vocabulary of the properties *)

(** The cursor of a route is on a waypoint. *)
Definition cursorInRange (rm : RouteManager.state) : Prop :=
  0 <= RouteManager.currentIndex rm <= RouteManager.length_ rm - 1.

(** A three-point route for the worked examples. *)
Definition threePoints : list GeoPoint :=
  [mkPoint 0 0; mkPoint 0 0.001; mkPoint 0 0.002].



(** The loading set and the cached set of a cache manager have no key
    in common. *)
Definition disjoint (m : CacheManager.state) : Prop :=
  forall key, key ∈ CacheManager.loading m -> key ∉ CacheManager.cached m.

(** Every fetch sequence in flight is for a key of its own, and that key
    is in the loading set. *)
Definition oneFetchPerKey (s : CacheManager.sys) : Prop :=
  NoDup (CacheManager.task_key <$> CacheManager.tasks s) /\
  forall t, t ∈ CacheManager.tasks s ->
    CacheManager.task_key t ∈ CacheManager.loading (CacheManager.mgr s).

(** One round of the loop of [precacheRoute]. *)
Definition visit (s : CacheManager.sys) (point : GeoPoint) : CacheManager.sys :=
  let key := CacheManager.getPointKey point in
  if negb (CacheManager.has key (CacheManager.cached (CacheManager.mgr s))) &&
     negb (CacheManager.has key (CacheManager.loading (CacheManager.mgr s)))
  then CacheManager.precachePoint_call point s
  else s.

(** Every key of a window is in the cached set or in the loading set. *)
Definition covered (upcoming : list GeoPoint) (s : CacheManager.sys) : Prop :=
  forall point, point ∈ upcoming ->
    CacheManager.getPointKey point ∈ CacheManager.cached (CacheManager.mgr s) \/
    CacheManager.getPointKey point ∈ CacheManager.loading (CacheManager.mgr s).

(** What is left of a list of keys, oldest first, once the oldest ones
    beyond [max] have been evicted. *)
Definition newest (max : Z) (log : list string) : list string :=
  drop (Z.to_nat (Z.of_nat (length log) - max)) log.

(** Fifty-one points with fifty-one keys, and the events that run a
    fetch sequence for each of them to its end, one after the other. *)
Definition manyPoints : list GeoPoint :=
  (λ i, mkPoint (inject_Z i / 1000) 0) <$> seqZ 0 51.

Definition fetchAll (points : list GeoPoint) : list CacheManager.event :=
  points ≫= λ point,
    [CacheManager.PrecachePoint point;
     CacheManager.Resume 0 (CacheManager.Fulfilled (Some "pano"));
     CacheManager.Resume 0 (CacheManager.Fulfilled None)].

(** A promise of [transitionTo] whose call is parked inside the [try]
    block: the transition it stands for is in progress. *)
Definition inProgress (q : TransitionEngine.promise) : bool :=
  match q with
  | TransitionEngine.Pending p => TransitionEngine.inTry p
  | _ => false
  end.

(** The number of transitions in progress. *)
Fixpoint inProgressCount (qs : list TransitionEngine.promise) : nat :=
  match qs with
  | [] => 0
  | q :: qs => (if inProgress q then 1 else 0) + inProgressCount qs
  end.

(** Single flight: the lock is taken exactly when one transition is in
    progress, and no more than one ever is. *)
Definition singleFlight (s : TransitionEngine.sys) : Prop :=
  inProgressCount (TransitionEngine.promises s) =
  if TransitionEngine.isTransitioning (TransitionEngine.engine s) then 1%nat else 0%nat.

(** The events by which parked calls of [transitionTo] are resumed, at
    the level of the controller and at the level of the engine. *)
Definition transitionResumes (resumptions : list (nat * TransitionEngine.outcome))
  : list Controller.event :=
  (λ r, Controller.TransitionResumes (fst r) (snd r)) <$> resumptions.

Definition engineResumes (resumptions : list (nat * TransitionEngine.outcome))
  : list TransitionEngine.event :=
  (λ r, TransitionEngine.Resume (fst r) (snd r)) <$> resumptions.

(** The six resumptions that take the call with promise 0 through a
    transition where nothing fails. *)
Definition smoothTransition : list (nat * TransitionEngine.outcome) :=
  replicate 6 (0%nat, TransitionEngine.Fulfilled).

(** The cursor of a route is 0 on a route without waypoints and on a
    waypoint otherwise. *)
Definition cursorValid (rm : RouteManager.state) : Prop :=
  0 <= RouteManager.currentIndex rm <= Z.max 0 (RouteManager.length_ rm - 1).

(** The methods of a route manager that change it. *)
Inductive routeOp :=
| OpSetRoute (points : list GeoPoint)
| OpSetStartPoint (position : GeoPoint)
| OpSetEndPoint (position : GeoPoint)
| OpBuildRoute
| OpAdvance
| OpGoBack
| OpJumpTo (index : Z)
| OpJumpToPercent (percent : Double.double)
| OpReset
| OpClear
| OpFromJSON (data : RouteManager.json).

Definition applyOp `{JSMath} (rm : RouteManager.state) (op : routeOp) : RouteManager.state :=
  match op with
  | OpSetRoute points => RouteManager.setRoute points rm
  | OpSetStartPoint position => RouteManager.setStartPoint position rm
  | OpSetEndPoint position => RouteManager.setEndPoint position rm
  | OpBuildRoute => snd (RouteManager.buildRoute rm)
  | OpAdvance => snd (RouteManager.advance rm)
  | OpGoBack => snd (RouteManager.goBack rm)
  | OpJumpTo index => snd (RouteManager.jumpTo index rm)
  | OpJumpToPercent percent => snd (RouteManager.jumpToPercent percent rm)
  | OpReset => RouteManager.reset rm
  | OpClear => RouteManager.clear rm
  | OpFromJSON data => RouteManager.fromJSON data rm
  end.

Definition applyOps `{JSMath} (ops : list routeOp) (rm : RouteManager.state)
  : RouteManager.state := foldl applyOp rm ops.

(** No two consecutive points are more than the target spacing apart. *)
Definition shortSegments `{JSMath} (points : list GeoPoint) : Prop :=
  forall (i : nat) (a b : GeoPoint),
    points !! i = Some a -> points !! S i = Some b ->
    (GeoUtils.calculateDistance a b <= RouteManager.targetSpacing)%Q.

(** The sets of a cache manager are sets, the cached set is within its
    bound, the bound is the constructor's, and the look-ahead is within
    the limits of [setCacheAhead]. *)
Definition withinBounds (m : CacheManager.state) : Prop :=
  NoDup (CacheManager.cached m) /\
  NoDup (CacheManager.loading m) /\
  Z.of_nat (length (CacheManager.cached m)) <= CacheManager.maxCacheSize m /\
  CacheManager.maxCacheSize m = 50 /\
  1 <= CacheManager.cacheAhead m <= 20.

(** Every key marked as loading has a fetch sequence in flight. *)
Definition marksHaveFetches (s : CacheManager.sys) : Prop :=
  forall key, key ∈ CacheManager.loading (CacheManager.mgr s) ->
    exists t, t ∈ CacheManager.tasks s /\ CacheManager.task_key t = key.

(** Every fetch sequence in flight carries the key of its point. *)
Definition keyed (s : CacheManager.sys) : Prop :=
  forall t, t ∈ CacheManager.tasks s ->
    CacheManager.task_key t = CacheManager.getPointKey (CacheManager.task_point t).

(** The fetch sequence that [precachePoint] parks for a point. *)
Definition fetchOf (point : GeoPoint) : CacheManager.task :=
  CacheManager.mkTask point (CacheManager.getPointKey point) CacheManager.AwaitPanoId.

(** The fade-out has been done: the engine is idle, or a call is parked
    at the last delay of the [try]. *)
Definition curtainDown (s : TransitionEngine.sys) : Prop :=
  TransitionEngine.isTransitioning (TransitionEngine.engine s) = false \/
  exists id, TransitionEngine.promises s !! id =
             Some (TransitionEngine.Pending TransitionEngine.On_delayDuration).

(** Both overlays are transparent. *)
Definition overlaysHidden (e : TransitionEngine.state) : Prop :=
  TransitionEngine.overlayOpacity e = 0%Q /\
  TransitionEngine.imageOverlayOpacity e = 0%Q.

(** A flash is showing: a call of [flashTransition] is parked at its
    first delay. *)
Definition flashShown (s : TransitionEngine.flashSys) : Prop :=
  Some TransitionEngine.Flash_delay1 ∈ TransitionEngine.flashes s.

(** No call of [flashTransition] is under way. *)
Definition flashesDone (s : TransitionEngine.flashSys) : Prop :=
  forall p, Some p ∉ TransitionEngine.flashes s.

(** The fade timing that the settings ask for:
    [opacity ${duration}ms ${easing}]. *)
Definition fadeStyle (e : TransitionEngine.state) : Z * string :=
  (TransitionEngine.duration (TransitionEngine.settings_ e),
   TransitionEngine.easing (TransitionEngine.settings_ e)).

(** The commands of one transition, in the order the viewer gets them. *)
Definition transitionCommands (targetPosition : GeoPoint) (targetHeading : option Q)
  : list TransitionEngine.viewerCall :=
  TransitionEngine.SetPosition targetPosition ::
  match targetHeading with
  | Some heading => [TransitionEngine.SetPov heading 0]
  | None => []
  end.

(** Resuming the call with promise [id] once for each outcome. *)
Definition resumeAll (id : nat) (os : list TransitionEngine.outcome)
    (s : TransitionEngine.sys) : TransitionEngine.sys :=
  foldl (fun s o => TransitionEngine.resume id o s) s os.

(** The controller and its components are in states that their own
    methods can produce: playback is not both running and paused, the
    cursor of the route is valid, the lock of the engine is taken exactly
    when one transition is in progress, and the cache is within its
    bounds. *)
Definition consistent (s : Controller.state) : Prop :=
  Controller.isPlaying s && Controller.isPaused s = false /\
  cursorValid (Controller.route s) /\
  singleFlight (Controller.transitions s) /\
  withinBounds (CacheManager.mgr (Controller.cache s)).

(** The positions among the commands received by the viewer. *)
Definition positions (calls : list TransitionEngine.viewerCall) : list GeoPoint :=
  calls ≫= λ c,
    match c with
    | TransitionEngine.SetPosition latLng => [latLng]
    | _ => []
    end.

(** Playback is running between two frames: the next timeout is pending
    and the engine is idle. *)
Definition steady (s : Controller.state) : Prop :=
  Controller.isPlaying s = true /\
  Controller.isPaused s = false /\
  (exists handle, Controller.playbackTimer s = Some handle /\
                  handle ∈ (fst <$> Controller.timers s)) /\
  TransitionEngine.isTransitioning
    (TransitionEngine.engine (Controller.transitions s)) = false /\
  0 <= RouteManager.currentIndex (Controller.route s).

(** One playback cycle without failure: the pending timeout fires, the
    transition that [advanceFrame] starts is resumed until it has settled
    (six resumptions are enough, the later ones find it settled), and
    the parked [advanceFrame] is resumed. *)
Definition cycleEvents (s : Controller.state) : list Controller.event :=
  match Controller.playbackTimer s with
  | Some handle =>
      Controller.TimerFires handle ::
      transitionResumes
        (replicate 6 (length (TransitionEngine.promises (Controller.transitions s)),
                      TransitionEngine.Fulfilled)) ++
      [Controller.CycleResumes (length (Controller.cycles s))]
  | None => []
  end.

Definition playCycle `{JSMath} (s : Controller.state) : Controller.state :=
  Controller.run (cycleEvents s) s.

Fixpoint playCycles `{JSMath} (n : nat) (s : Controller.state) : Controller.state :=
  match n with
  | O => s
  | S n => playCycles n (playCycle s)
  end.

(** The cycles that are left up to the last waypoint, and then the
    timeout that finds the route complete. *)
Definition playToEnd `{JSMath} (s : Controller.state) : Controller.state :=
  let left := Z.to_nat (RouteManager.length_ (Controller.route s) - 1 -
                        RouteManager.currentIndex (Controller.route s)) in
  let s := playCycles left s in
  match Controller.playbackTimer s with
  | Some handle => Controller.step s (Controller.TimerFires handle)
  | None => s
  end.




(** Playback is paused and started again while the transition of a
    frame is in progress: the timeout fires, [pause] and [play] are
    called, the [advanceFrame] that [play] started is resumed (its
    transition was turned away at once), then the transition of the first
    [advanceFrame] runs to its end and that [advanceFrame] is resumed. *)
Definition pausePlayInFlight (s : Controller.state) (handle : nat) : list Controller.event :=
  let id := length (TransitionEngine.promises (Controller.transitions s)) in
  let i := length (Controller.cycles s) in
  [Controller.TimerFires handle; Controller.Pause; Controller.Play;
   Controller.CycleResumes (S i)] ++
  transitionResumes (replicate 6 (id, TransitionEngine.Fulfilled)) ++
  [Controller.CycleResumes i].

(** * Properties *)

(** ** Polyline decoding *)

Lemma readChunks_rest (cs : list N) (shift result : Z) :
  (length (snd (GeoUtils.readChunks cs shift result)) <= length cs)%nat.
Proof.
  revert shift result.
  induction cs as [|c rest IH]; intros shift result; simpl; [lia|].
  destruct (32 <=? Z.of_N c - 63); simpl; [|lia].
  specialize (IH (shift + 5) (JS.bitor result
    (JS.shl (JS.bitand (Z.of_N c - 63) 31) shift))). lia.
Qed.

Lemma readChunks_consumes (c : N) (cs : list N) (shift result : Z) :
  (length (snd (GeoUtils.readChunks (c :: cs) shift result)) <= length cs)%nat.
Proof.
  simpl. destruct (32 <=? Z.of_N c - 63); simpl; [|lia].
  apply readChunks_rest.
Qed.

(** The outer loop ends within as many rounds as there are code units,
    and it pushes a point in every round. *)
Lemma decodeLoop_total (fuel : nat) (cs : list N) (lat lng : Z) :
  (length cs <= fuel)%nat ->
  exists points,
    GeoUtils.decodeLoop fuel cs lat lng = Some points /\
    (points = [] <-> cs = []).
Proof.
  revert cs lat lng.
  induction fuel as [|fuel IH]; intros cs lat lng Hlen.
  - destruct cs as [|c cs]; simpl in *; [|lia]. by exists [].
  - destruct cs as [|c cs]; [by exists []|].
    cbn [GeoUtils.decodeLoop].
    pose proof (readChunks_consumes c cs 0 0) as H1.
    destruct (GeoUtils.readChunks (c :: cs) 0 0) as [r1 cs1] eqn:E1.
    pose proof (readChunks_rest cs1 0 0) as H2.
    destruct (GeoUtils.readChunks cs1 0 0) as [r2 cs2] eqn:E2.
    simpl in H1, H2, Hlen.
    destruct (IH cs2 (lat + GeoUtils.unzigzag r1) (lng + GeoUtils.unzigzag r2))
      as (points & -> & _); [lia|].
    eexists; split; [reflexivity|]. split; discriminate.
Qed.

Lemma decodePolyline_total (encoded : list N) :
  exists points,
    GeoUtils.decodePolyline encoded = Some points /\
    (points = [] <-> encoded = []).
Proof. apply decodeLoop_total. reflexivity. Qed.

Lemma wellFormed_nonempty (encoded : list N) :
  GeoUtils.wellFormed encoded = false -> encoded <> [].
Proof. intros Hwf ->. discriminate Hwf. Qed.

(** C6, as the code has it: the decoder validates nothing.  For every
    input it ends without raising and returns a sequence of points, which
    is empty only when the input is empty; so for every malformed input
    the result is NOT empty: the code units that are missing or out of
    the alphabet are decoded all the same. *)
Theorem decodePolyline_malformed_lenient (encoded : list N) :
  exists points,
    GeoUtils.decodePolyline encoded = Some points /\
    (points = [] <-> encoded = []) /\
    (GeoUtils.wellFormed encoded = false -> points <> []).
Proof.
  destruct (decodePolyline_total encoded) as (points & Heq & Hnil).
  exists points. split; [done|]. split; [done|].
  intros Hwf Hempty. apply (wellFormed_nonempty _ Hwf). by apply Hnil.
Qed.

Lemma decodePolyline_malformed_lenient_witness :
  GeoUtils.wellFormed (JS.codeUnits "_p~iF~ps|U_ulLnn") = false /\
  exists points,
    GeoUtils.decodePolyline (JS.codeUnits "_p~iF~ps|U_ulLnn") = Some points /\
    points <> [].
Proof.
  assert (Hwf : GeoUtils.wellFormed (JS.codeUnits "_p~iF~ps|U_ulLnn") = false)
    by reflexivity.
  split; [exact Hwf|].
  destruct (decodePolyline_malformed_lenient (JS.codeUnits "_p~iF~ps|U_ulLnn"))
    as (points & Heq & _ & Hne).
  exists points. split; [exact Heq|exact (Hne Hwf)].
Defined.

(** C6 fails as stated: the one-character string "?" is malformed (a
    latitude without its longitude), and it decodes to the point (0, 0)
    instead of the empty sequence. *)
Lemma decodePolyline_malformed_not_empty :
  GeoUtils.wellFormed (JS.codeUnits "?") = false /\
  GeoUtils.decodePolyline (JS.codeUnits "?") =
    Some [mkPoint (inject_Z 0 / 100000) (inject_Z 0 / 100000)] /\
  GeoUtils.decodePolyline (JS.codeUnits "?") <> Some [].
Proof. split; [reflexivity|]. split; [reflexivity|discriminate]. Qed.

(** The reference example of the format decodes to its three points. *)
Example decodePolyline_reference :
  GeoUtils.wellFormed (JS.codeUnits "_p~iF~ps|U_ulLnnqC_mqNvxq`@") = true /\
  GeoUtils.decodePolyline (JS.codeUnits "_p~iF~ps|U_ulLnnqC_mqNvxq`@") =
    Some [mkPoint (inject_Z 3850000 / 100000) (inject_Z (-12020000) / 100000);
          mkPoint (inject_Z 4070000 / 100000) (inject_Z (-12095000) / 100000);
          mkPoint (inject_Z 4325200 / 100000) (inject_Z (-12645300) / 100000)].
Proof. split; reflexivity. Qed.

(** ** Route manager: jumps *)

Section Jumps.
Import RouteManager.

Lemma length_set_currentIndex (i : Z) (rm : state) :
  length_ (set_currentIndex i rm) = length_ rm.
Proof. reflexivity. Qed.

Lemma jumpTo_accepts (index : Z) (rm : state) :
  0 <= index <= length_ rm - 1 ->
  jumpTo index rm = (true, set_currentIndex index rm).
Proof.
  intros [H0 H1]. unfold jumpTo.
  destruct (Z.leb_spec 0 index); [|lia].
  destruct (Z.ltb_spec index (length_ rm)); [reflexivity|lia].
Qed.

Lemma jumpTo_rejects (index : Z) (rm : state) :
  ~ (0 <= index <= length_ rm - 1) ->
  jumpTo index rm = (false, rm).
Proof.
  intros Hout. unfold jumpTo.
  destruct (Z.leb_spec 0 index); [|reflexivity].
  destruct (Z.ltb_spec index (length_ rm)); [lia|reflexivity].
Qed.

Lemma jumpTo_cases (index : Z) (rm : state) :
  (0 <= index <= length_ rm - 1 /\
   jumpTo index rm = (true, set_currentIndex index rm)) \/
  (~ (0 <= index <= length_ rm - 1) /\ jumpTo index rm = (false, rm)).
Proof.
  destruct (decide (0 <= index <= length_ rm - 1)) as [Hin|Hout].
  - left. split; [done|]. by apply jumpTo_accepts.
  - right. split; [done|]. by apply jumpTo_rejects.
Qed.

(** What rounding leaves of a sign: the result of a rounded operation is
    a zero, a finite number or an infinity of the sign it was given. *)
Lemma binary_round_aux_cases (s : bool) (m e : Z) (l : SpecFloat.location) :
  let r := SpecFloat.binary_round_aux Double.prec Double.emax s m e l in
  r = SpecFloat.S754_zero s \/
  (exists m' e', r = SpecFloat.S754_finite s m' e') \/
  r = SpecFloat.S754_infinity s \/ r = SpecFloat.S754_nan.
Proof.
  unfold SpecFloat.binary_round_aux.
  destruct (SpecFloat.shr_fexp _ _ _ _ _) as [mrs' e'].
  destruct (SpecFloat.shr_fexp _ _ _ _ _) as [mrs'' e''].
  destruct (SpecFloat.shr_m mrs'') as [|m'|m'].
  - by left.
  - destruct (Z.leb _ _).
    + right. left. by exists m', e''.
    + right. right. by left.
  - by repeat right.
Qed.

Lemma ofZ_cases (z : Z) :
  0 <= z ->
  Double.ofZ z = SpecFloat.S754_zero false \/
  (exists m e, Double.ofZ z = SpecFloat.S754_finite false m e) \/
  Double.ofZ z = SpecFloat.S754_infinity false \/ Double.ofZ z = SpecFloat.S754_nan.
Proof.
  intros Hz. destruct z as [|p|p]; [by left| |lia].
  unfold Double.ofZ, SpecFloat.binary_normalize, SpecFloat.binary_round.
  destruct (SpecFloat.shl_align _ _ _) as [mz ez].
  apply binary_round_aux_cases.
Qed.

Lemma hundred : Double.ofZ 100 = SpecFloat.S754_finite false 7036874417766400 (-46).
Proof. by vm_compute. Qed.

(** [percent < 0]: a negative finite number, or minus infinity. *)
Lemma negative_cases (percent : Double.double) :
  Double.ltb percent (Double.ofZ 0) = true ->
  (exists m e, percent = SpecFloat.S754_finite true m e) \/
  percent = SpecFloat.S754_infinity true.
Proof.
  destruct percent as [s|s| |s m e]; try discriminate; destruct s; try discriminate.
  - by right.
  - left. by exists m, e.
Qed.

Lemma floor_negative (m : positive) (e : Z) :
  exists i, Double.floor (SpecFloat.S754_finite true m e) = Some i /\ i < 0.
Proof.
  eexists. split; [reflexivity|].
  destruct (Z.leb_spec 0 e).
  - assert (0 < 2 ^ e) by (by apply Z.pow_pos_nonneg). nia.
  - apply Z.div_lt_upper_bound; [apply Z.pow_pos_nonneg; lia|lia].
Qed.

(** A negative number stays negative, or becomes a zero, [NaN] or an
    infinity, when it is divided by 100 and multiplied by a number that
    is not negative. *)
Lemma percentProduct_negative (percent : Double.double) (rm : state) :
  Double.ltb percent (Double.ofZ 0) = true ->
  1 <= length_ rm ->
  Double.isZero (percentProduct percent rm) = true \/
  (exists m e, percentProduct percent rm = SpecFloat.S754_finite true m e) \/
  Double.floor (percentProduct percent rm) = None.
Proof.
  intros Hneg Hlen. unfold percentProduct. rewrite hundred.
  assert (Hq : let q := Double.div percent
                          (SpecFloat.S754_finite false 7036874417766400 (-46)) in
               q = SpecFloat.S754_zero true \/
               (exists m e, q = SpecFloat.S754_finite true m e) \/
               q = SpecFloat.S754_infinity true \/ q = SpecFloat.S754_nan).
  { destruct (negative_cases percent Hneg) as [(m & e & ->)| ->].
    - unfold Double.div, SpecFloat.SFdiv.
      destruct (SpecFloat.SFdiv_core_binary _ _ _ _ _ _) as [[mz ez] lz].
      apply (binary_round_aux_cases true).
    - right. right. by left. }
  cbv zeta in Hq.
  destruct (ofZ_cases (length_ rm - 1)) as [Hn|[(n & en & Hn)|[Hn|Hn]]]; [lia|..];
    rewrite Hn;
    destruct Hq as [Hq|[(m & e & Hq)|[Hq|Hq]]]; rewrite Hq;
    try (by left); try (by right; right).
  unfold Double.mul, SpecFloat.SFmul.
  destruct (binary_round_aux_cases (xorb true false) (Z.pos (m * n)) (e + en)
              SpecFloat.loc_Exact) as [Hr|[(m' & e' & Hr)|[Hr|Hr]]];
    rewrite Hr.
  - by left.
  - right. left. by exists m', e'.
  - by right; right.
  - by right; right.
Qed.

(** [jumpToPercent] is [jumpTo] at the floor of the product. *)
Lemma jumpToPercent_cases (percent : Double.double) (rm : state) :
  jumpToPercent percent rm =
    match Double.floor (percentProduct percent rm) with
    | Some target =>
        if decide (0 <= target <= length_ rm - 1)
        then (true, set_currentIndex target rm) else (false, rm)
    | None => (false, rm)
    end.
Proof.
  unfold jumpToPercent.
  destruct (Double.floor (percentProduct percent rm)) as [target|]; [|done].
  destruct (jumpTo_cases target rm) as [[Hi ->]|[Hi ->]];
    by destruct (decide _).
Qed.

Lemma jumpTo_stays (index : Z) (rm : state) :
  snd (jumpTo index rm) = rm \/ cursorInRange (snd (jumpTo index rm)).
Proof.
  destruct (jumpTo_cases index rm) as [[Hi ->]|[Hi ->]]; [by right|by left].
Qed.

Lemma jumpToPercent_stays (percent : Double.double) (rm : state) :
  snd (jumpToPercent percent rm) = rm \/ cursorInRange (snd (jumpToPercent percent rm)).
Proof.
  unfold jumpToPercent.
  destruct (Double.floor (percentProduct percent rm)) as [target|]; [|by left].
  apply jumpTo_stays.
Qed.

(** C5, as the code has it: [jumpTo] does not clamp.  It moves the cursor
    to [index] exactly when [0 <= index <= length - 1] and otherwise
    rejects the request, leaving the route manager as it was;
    [jumpToPercent] hands the floor of the double
    [(percent / 100) * (length - 1)] to [jumpTo] and is rejected
    likewise, and always when that floor is [NaN] or an infinity.  So
    the route manager is left as it was or the cursor is put on a
    waypoint: a cursor that is on a waypoint stays on a waypoint, and on
    an empty route nothing moves. *)
Theorem jumpTo_rejects_or_moves (rm : state) (index : Z) (percent : Double.double) :
  jumpTo index rm =
    (if decide (0 <= index <= length_ rm - 1)
     then (true, set_currentIndex index rm) else (false, rm)) /\
  jumpToPercent percent rm =
    match Double.floor (percentProduct percent rm) with
    | Some target =>
        if decide (0 <= target <= length_ rm - 1)
        then (true, set_currentIndex target rm) else (false, rm)
    | None => (false, rm)
    end /\
  (snd (jumpTo index rm) = rm \/ cursorInRange (snd (jumpTo index rm))) /\
  (snd (jumpToPercent percent rm) = rm \/
   cursorInRange (snd (jumpToPercent percent rm))) /\
  (cursorInRange rm ->
   cursorInRange (snd (jumpTo index rm)) /\
   cursorInRange (snd (jumpToPercent percent rm))) /\
  (length_ rm = 0 ->
   jumpTo index rm = (false, rm) /\ jumpToPercent percent rm = (false, rm)).
Proof.
  split.
  { destruct (jumpTo_cases index rm) as [[Hi ->]|[Hi ->]]; by destruct (decide _). }
  split; [apply jumpToPercent_cases|].
  split; [apply jumpTo_stays|]. split; [apply jumpToPercent_stays|].
  split.
  - intros Hin.
    split; [destruct (jumpTo_stays index rm) as [->|]
           |destruct (jumpToPercent_stays percent rm) as [->|]]; done.
  - intros Hlen. split; [apply jumpTo_rejects; lia|].
    unfold jumpToPercent.
    destruct (Double.floor (percentProduct percent rm)); [|done].
    apply jumpTo_rejects. lia.
Qed.

(** On a route of 101 waypoints [jumpToPercent(29)] moves the cursor to
    waypoint 28: in doubles 29 / 100 * 100 is 28.999999999999996.  On the
    three-point route [jumpTo(7)] and [jumpToPercent(250)] leave the
    cursor where it is. *)
Lemma jumpTo_rejects_or_moves_witness :
  let rm := set_currentIndex 1 (set_waypoints threePoints new) in
  let rm101 := set_waypoints (replicate 101 (mkPoint 0 0)) new in
  jumpToPercent (Double.ofZ 29) rm101 = (true, set_currentIndex 28 rm101) /\
  cursorInRange rm /\
  cursorInRange (snd (jumpTo 7 rm)) /\
  cursorInRange (snd (jumpToPercent (Double.ofZ 250) rm)).
Proof.
  intros rm rm101.
  assert (Hin : cursorInRange rm) by (subst rm; unfold cursorInRange, length_; simpl; lia).
  destruct (jumpTo_rejects_or_moves rm101 0 (Double.ofZ 29)) as (_ & H29 & _).
  destruct (jumpTo_rejects_or_moves rm 7 (Double.ofZ 250)) as (_ & _ & _ & _ & Hstay & _).
  split; [rewrite H29; by vm_compute|].
  split; [exact Hin|]. exact (Hstay Hin).
Defined.

(** C5 fails as stated: on a three-point route with the cursor at 1,
    [jumpTo(7)] and [jumpToPercent(250)] are rejected and leave the
    cursor at 1, where clamping would have put it at 2; [jumpTo(-4)]
    leaves it at 1, where clamping would have put it at 0. *)
Lemma jumpTo_does_not_clamp :
  let rm := set_currentIndex 1 (set_waypoints threePoints new) in
  jumpTo 7 rm = (false, rm) /\
  jumpToPercent (Double.ofZ 250) rm = (false, rm) /\
  jumpTo (-4) rm = (false, rm) /\
  Double.floor (percentProduct (Double.ofZ 250) rm) = Some 5 /\
  currentIndex (snd (jumpTo 7 rm)) <> Z.max 0 (Z.min (length_ rm - 1) 7) /\
  currentIndex (snd (jumpToPercent (Double.ofZ 250) rm))
    <> Z.max 0 (Z.min (length_ rm - 1) 5) /\
  currentIndex (snd (jumpTo (-4) rm)) <> Z.max 0 (Z.min (length_ rm - 1) (-4)).
Proof. vm_compute. repeat split; discriminate. Qed.

(** C10, as the code has it: [jumpTo] rejects every index outside
    [0, length - 1] and leaves the route manager as it was; so does
    [jumpToPercent] for every percentage on an empty route.  On a route
    of two waypoints or more a negative percentage is rejected unless the
    double [(percent / 100) * (length - 1)] is a zero, as it is when the
    percentage is so small that its hundredth underflows to [-0]: then
    the index is 0 and [jumpToPercent] returns true.  On a route of
    exactly one waypoint the product is a zero for every percentage
    whose hundredth is finite, and [jumpToPercent] returns true; it is
    [NaN] otherwise, and [jumpToPercent] returns false. *)
Theorem jumpTo_rejection (rm : state) (index : Z) (percent : Double.double) :
  (~ (0 <= index <= length_ rm - 1) -> jumpTo index rm = (false, rm)) /\
  (length_ rm = 0 -> jumpToPercent percent rm = (false, rm)) /\
  (Double.ltb percent (Double.ofZ 0) = true -> 2 <= length_ rm ->
   jumpToPercent percent rm =
     if Double.isZero (percentProduct percent rm)
     then (true, set_currentIndex 0 rm) else (false, rm)) /\
  (length_ rm = 1 ->
   jumpToPercent percent rm =
     if Double.isFinite (Double.div percent (Double.ofZ 100))
     then (true, set_currentIndex 0 rm) else (false, rm)).
Proof.
  split; [apply jumpTo_rejects|].
  split; [|split].
  - intros Hlen. unfold jumpToPercent.
    destruct (Double.floor (percentProduct percent rm)); [|done].
    apply jumpTo_rejects. lia.
  - intros Hp Hlen. unfold jumpToPercent.
    destruct (percentProduct_negative percent rm Hp) as [Hz|[(m & e & Hx)|Hx]];
      [lia| | |].
    + rewrite Hz. destruct (percentProduct percent rm); try discriminate.
      cbn [Double.floor]. apply jumpTo_accepts. lia.
    + rewrite Hx. destruct (floor_negative m e) as (i & -> & Hi).
      cbn [Double.isZero]. apply jumpTo_rejects. lia.
    + rewrite Hx. by destruct (percentProduct percent rm).
  - intros Hlen. unfold jumpToPercent, percentProduct. rewrite Hlen.
    change (Double.ofZ (1 - 1)) with (SpecFloat.S754_zero false).
    destruct (Double.div percent (Double.ofZ 100)) as [s|s| |s m e];
      cbn [Double.mul SpecFloat.SFmul Double.floor Double.isFinite];
      try done; apply jumpTo_accepts; lia.
Qed.

(** On the three-point route [jumpToPercent(-40)] is rejected, and
    [jumpToPercent(-5e-324)], whose hundredth is [-0], is accepted and
    puts the cursor on the first waypoint. *)
Lemma jumpTo_rejection_witness :
  let rm := set_currentIndex 1 (set_waypoints threePoints new) in
  let rm1 := set_waypoints [mkPoint 0 0] new in
  let tiny := SpecFloat.S754_finite true 1 (-1074) in
  jumpTo 3 rm = (false, rm) /\
  jumpToPercent (Double.ofZ 40) new = (false, new) /\
  jumpToPercent (Double.ofZ (-40)) rm = (false, rm) /\
  jumpToPercent tiny rm = (true, set_currentIndex 0 rm) /\
  jumpToPercent (Double.ofZ 40) rm1 = (true, set_currentIndex 0 rm1) /\
  jumpToPercent SpecFloat.S754_nan rm1 = (false, rm1).
Proof.
  intros rm rm1 tiny.
  destruct (jumpTo_rejection rm 3 (Double.ofZ (-40))) as (H1 & _ & H3 & _).
  destruct (jumpTo_rejection new 0 (Double.ofZ 40)) as (_ & H2 & _).
  destruct (jumpTo_rejection rm 0 tiny) as (_ & _ & H4 & _).
  destruct (jumpTo_rejection rm1 0 (Double.ofZ 40)) as (_ & _ & _ & H5).
  destruct (jumpTo_rejection rm1 0 SpecFloat.S754_nan) as (_ & _ & _ & H6).
  split; [apply H1; subst rm; unfold length_; simpl; lia|].
  split; [apply H2; reflexivity|].
  split; [rewrite H3; [by vm_compute|by vm_compute|subst rm; unfold length_; simpl; lia]|].
  split; [rewrite H4; [by vm_compute|by vm_compute|subst rm; unfold length_; simpl; lia]|].
  split; [rewrite H5; [by vm_compute|reflexivity]|].
  rewrite H6; [by vm_compute|reflexivity].
Defined.

(** C10 fails as stated: a route of one waypoint has fewer than two, and
    on it [jumpToPercent] returns true, for a negative percentage too. *)
Lemma jumpToPercent_single_waypoint_accepts :
  let rm1 := set_waypoints [mkPoint 0 0] new in
  length_ rm1 < 2 /\
  fst (jumpToPercent (Double.ofZ 50) rm1) = true /\
  fst (jumpToPercent (Double.ofZ (-50)) rm1) = true.
Proof. vm_compute. repeat split; reflexivity. Qed.

End Jumps.

(** ** Route manager: densification *)

Section Densify.
Context `{JSMath}.
Import RouteManager.

Lemma inject_Z_pos (z : Z) : 0 < z -> (0 < inject_Z z)%Q.
Proof. intros Hz. change 0%Q with (inject_Z 0). by rewrite <- Zlt_Qlt. Qed.








End Densify.


(** ** Cache manager: the two sets *)

Section CacheSets.
Import CacheManager.

Lemma has_true (key : string) (set : list string) : has key set = true <-> key ∈ set.
Proof. unfold has. apply bool_decide_eq_true. Qed.

Lemma has_false (key : string) (set : list string) : has key set = false <-> key ∉ set.
Proof. unfold has. apply bool_decide_eq_false. Qed.

Lemma elem_of_add (key k : string) (set : list string) :
  k ∈ add key set <-> k = key \/ k ∈ set.
Proof.
  unfold add. destruct (has key set) eqn:E.
  - apply has_true in E. split; [by right|]. by intros [->|].
  - rewrite elem_of_app, list_elem_of_singleton. tauto.
Qed.

Lemma elem_of_delete (key k : string) (set : list string) :
  k ∈ delete key set <-> k <> key /\ k ∈ set.
Proof. unfold delete. by rewrite list_elem_of_filter. Qed.

Lemma delete_absent (key : string) (set : list string) :
  key ∉ set -> delete key set = set.
Proof.
  unfold delete. induction set as [|k set IH]; intros Hnot; [done|].
  apply not_elem_of_cons in Hnot as [Hne Hnot].
  rewrite filter_cons_True by done. f_equal. by apply IH.
Qed.

Lemma delete_oldest (key : string) (set : list string) :
  NoDup (key :: set) -> delete key (key :: set) = set.
Proof.
  intros [Hnot _]%NoDup_cons. unfold delete.
  rewrite filter_cons_False by (intros Hne; by apply Hne).
  by apply delete_absent.
Qed.

(** On a set, the loop of [trimCache] drops the oldest keys. *)
Lemma trimLoop_drop (toRemove : nat) (set : list string) :
  NoDup set -> trimLoop toRemove set = drop toRemove set.
Proof.
  revert set. induction toRemove as [|n IH]; intros set Hset; [done|].
  destruct set as [|key set]; [done|]. simpl.
  rewrite delete_oldest by done. apply IH.
  by apply NoDup_cons in Hset as [_ ?].
Qed.

Lemma trimLoop_subset (toRemove : nat) (set : list string) (k : string) :
  k ∈ trimLoop toRemove set -> k ∈ set.
Proof.
  revert set. induction toRemove as [|n IH]; intros set; [done|].
  destruct set as [|key set]; [done|]. simpl. intros Hk.
  apply IH in Hk. by apply elem_of_delete in Hk as [_ ?].
Qed.

Lemma trimCache_loading (m : state) : loading (trimCache m) = loading m.
Proof. unfold trimCache. by destruct (_ <? _). Qed.

Lemma trimCache_subset (m : state) (k : string) :
  k ∈ cached (trimCache m) -> k ∈ cached m.
Proof.
  unfold trimCache. destruct (_ <? _); [|done]. simpl. apply trimLoop_subset.
Qed.

Lemma precachePoint_call_disjoint (point : GeoPoint) (s : sys) :
  disjoint (mgr s) -> disjoint (mgr (precachePoint_call point s)).
Proof.
  intros Hdis. unfold precachePoint_call.
  destruct (has _ (cached (mgr s))) eqn:Ec; [done|].
  destruct (has _ (loading (mgr s))) eqn:El; [done|].
  simpl. intros key [->|Hin]%elem_of_add.
  - by apply has_false.
  - by apply Hdis.
Qed.

Lemma precacheRoute_disjoint (waypoints : list GeoPoint) (currentIndex : Z) (s : sys) :
  disjoint (mgr s) -> disjoint (mgr (precacheRoute waypoints currentIndex s)).
Proof.
  unfold precacheRoute.
  generalize (slice waypoints currentIndex (currentIndex + cacheAhead (mgr s))).
  intros upcoming. revert s.
  induction upcoming as [|point upcoming IH]; intros s Hdis; [done|].
  simpl. apply IH. destruct (_ && _); [|done].
  by apply precachePoint_call_disjoint.
Qed.

Lemma finish_disjoint (key : string) (m : state) :
  disjoint m -> disjoint (trimCache (finallyBlock key m)).
Proof.
  intros Hdis k. rewrite trimCache_loading. simpl.
  intros [_ Hin]%elem_of_delete Hc%trimCache_subset. by apply (Hdis k).
Qed.

Lemma insert_disjoint (key : string) (m : state) :
  disjoint m ->
  disjoint (trimCache (finallyBlock key (set_cached (add key (cached m)) m))).
Proof.
  intros Hdis k. rewrite trimCache_loading. simpl.
  intros [Hne Hin]%elem_of_delete Hc%trimCache_subset. simpl in Hc.
  apply elem_of_add in Hc as [->|Hc]; [done|]. by apply (Hdis k).
Qed.

Lemma precachePoint_resume_disjoint (t : task) (o : outcome) (m : state) :
  disjoint m -> disjoint (fst (precachePoint_resume t o m)).
Proof.
  intros Hdis. unfold precachePoint_resume.
  destruct (task_pc t), o as [panoId|]; simpl;
    try (by apply finish_disjoint); try (by apply insert_disjoint).
  destruct (truthy panoId); simpl; [done|]. by apply finish_disjoint.
Qed.

Lemma step_disjoint (s : sys) (e : event) :
  disjoint (mgr s) -> disjoint (mgr (step s e)).
Proof.
  intros Hdis. destruct e as [ws i|point|i o|url|count|]; simpl; try done.
  - by apply precacheRoute_disjoint.
  - by apply precachePoint_call_disjoint.
  - destruct (tasks s !! i) as [t|]; [|done].
    pose proof (precachePoint_resume_disjoint t o (mgr s) Hdis) as Hres.
    by destruct (precachePoint_resume t o (mgr s)).
  - intros key Hin. inversion Hin.
Qed.

Lemma run_disjoint (events : list event) (s : sys) :
  disjoint (mgr s) -> disjoint (mgr (run events s)).
Proof.
  revert s. induction events as [|e events IH]; intros s Hdis; [done|].
  simpl. apply IH. by apply step_disjoint.
Qed.

End CacheSets.

(** ** Cache manager: one fetch sequence per key *)

Section CacheFetches.
Import CacheManager.

Lemma precacheRoute_visit (waypoints : list GeoPoint) (currentIndex : Z) (s : sys) :
  precacheRoute waypoints currentIndex s =
  foldl visit s (slice waypoints currentIndex (currentIndex + cacheAhead (mgr s))).
Proof. reflexivity. Qed.

(** What one round of the loop does: nothing, or it marks a key that was
    in neither set as loading and parks a fetch sequence for it. *)
Lemma visit_cases (s : sys) (point : GeoPoint) :
  let key := getPointKey point in
  (visit s point = s /\ (key ∈ cached (mgr s) \/ key ∈ loading (mgr s))) \/
  (visit s point =
     {| mgr := set_loading (loading (mgr s) ++ [key]) (mgr s);
        tasks := tasks s ++ [mkTask point key AwaitPanoId] |} /\
   (key ∉ cached (mgr s)) /\ (key ∉ loading (mgr s))).
Proof.
  intros key. unfold visit, precachePoint_call. fold key.
  destruct (has key (cached (mgr s))) eqn:Ec; simpl.
  { left. split; [done|]. left. by apply has_true. }
  destruct (has key (loading (mgr s))) eqn:El; simpl.
  { left. split; [done|]. right. by apply has_true. }
  right. split; [|split; by apply has_false].
  unfold add. by rewrite El.
Qed.

Lemma foldl_visit_grows (upcoming : list GeoPoint) (s : sys) :
  let s1 := foldl visit s upcoming in
  cached (mgr s1) = cached (mgr s) /\
  cacheAhead (mgr s1) = cacheAhead (mgr s) /\
  (forall key, key ∈ loading (mgr s) -> key ∈ loading (mgr s1)) /\
  covered upcoming s1 /\
  exists started,
    tasks s1 = tasks s ++ started /\
    NoDup (task_key <$> started) /\
    forall t, t ∈ started ->
      task_pc t = AwaitPanoId /\
      (task_key t ∉ loading (mgr s)) /\ (task_key t ∉ cached (mgr s)) /\
      task_key t ∈ loading (mgr s1).
Proof.
  revert s. induction upcoming as [|point upcoming IH]; intros s; simpl.
  { split; [done|]. split; [done|]. split; [done|]. split.
    - intros point Hin. inversion Hin.
    - exists []. rewrite app_nil_r. split; [done|]. split; [constructor|].
      intros t Hin. inversion Hin. }
  set (s' := visit s point).
  destruct (IH s') as (Hc & Ha & Hl & Hcov & started & Ht & Hnd & Hst).
  destruct (visit_cases s point) as [[Heq Hmarked]|(Heq & Hnc & Hnl)]; fold s' in Heq.
  - rewrite Heq in *. split; [done|]. split; [done|]. split; [done|]. split.
    + intros p [->|Hin]%elem_of_cons; [|by apply Hcov].
      destruct Hmarked as [Hm|Hm]; [left; by rewrite Hc|right; by apply Hl].
    + by exists started.
  - assert (Hc' : cached (mgr s') = cached (mgr s)) by (by rewrite Heq).
    assert (Ha' : cacheAhead (mgr s') = cacheAhead (mgr s)) by (by rewrite Heq).
    assert (Hl' : loading (mgr s') = loading (mgr s) ++ [getPointKey point])
      by (by rewrite Heq).
    assert (Ht' : tasks s' = tasks s ++ [mkTask point (getPointKey point) AwaitPanoId])
      by (by rewrite Heq).
    assert (Hkey : getPointKey point ∈ loading (mgr (foldl visit s' upcoming))).
    { apply Hl. rewrite Hl'. apply elem_of_app. right. by apply list_elem_of_singleton. }
    split; [congruence|]. split; [congruence|]. split.
    { intros key Hin. apply Hl. rewrite Hl'. apply elem_of_app. by left. }
    split.
    { intros p [->|Hin]%elem_of_cons; [by right|by apply Hcov]. }
    exists (mkTask point (getPointKey point) AwaitPanoId :: started).
    split; [by rewrite Ht, Ht', <- app_assoc|].
    split.
    { simpl. apply NoDup_cons. split; [|done].
      intros (t & Hk & Hin)%list_elem_of_fmap.
      destruct (Hst t Hin) as (_ & Hnot & _). apply Hnot.
      rewrite Hl', <- Hk. apply elem_of_app. right. by apply list_elem_of_singleton. }
    intros t [->|Hin]%elem_of_cons; simpl; [done|].
    destruct (Hst t Hin) as (Hpc & Hnot & Hnotc & Hin').
    split; [done|]. split; [|split; [congruence|done]].
    intros Hold. apply Hnot. rewrite Hl'. apply elem_of_app. by left.
Qed.

Lemma foldl_visit_covered (upcoming : list GeoPoint) (s : sys) :
  covered upcoming s -> foldl visit s upcoming = s.
Proof.
  induction upcoming as [|point upcoming IH]; intros Hcov; [done|].
  simpl.
  destruct (visit_cases s point) as [[-> _]|(_ & Hnc & Hnl)].
  - apply IH. intros p Hin. apply Hcov. by right.
  - destruct (Hcov point) as [?|?]; [by left|done|done].
Qed.

(** A second [precacheRoute] over the same window right after the first
    one finds every key marked and starts nothing. *)
Lemma precacheRoute_twice (waypoints : list GeoPoint) (currentIndex : Z) (s : sys) :
  let s1 := precacheRoute waypoints currentIndex s in
  precacheRoute waypoints currentIndex s1 = s1.
Proof.
  intros s1. rewrite precacheRoute_visit.
  subst s1. rewrite precacheRoute_visit.
  set (upcoming := slice waypoints currentIndex (currentIndex + cacheAhead (mgr s))).
  destruct (foldl_visit_grows upcoming s) as (_ & Ha & _ & Hcov & _).
  rewrite Ha. fold upcoming. by apply foldl_visit_covered.
Qed.

Lemma visit_oneFetchPerKey (s : sys) (point : GeoPoint) :
  oneFetchPerKey s -> oneFetchPerKey (visit s point).
Proof.
  intros [Hnd Hin].
  destruct (visit_cases s point) as [[-> _]|(-> & Hnc & Hnl)]; [done|].
  split; simpl.
  - rewrite fmap_app. simpl. apply NoDup_app. split; [done|]. split.
    + intros k (t & -> & Ht)%list_elem_of_fmap Hk%list_elem_of_singleton.
      apply Hnl. rewrite <- Hk. by apply Hin.
    + apply NoDup_singleton.
  - intros t [Ht|Ht]%elem_of_app; apply elem_of_app.
    + left. by apply Hin.
    + apply list_elem_of_singleton in Ht as ->.
      right. by apply list_elem_of_singleton.
Qed.

Lemma precachePoint_call_visit (point : GeoPoint) (s : sys) :
  precachePoint_call point s = visit s point.
Proof.
  unfold visit, precachePoint_call.
  destruct (has _ (cached (mgr s))); simpl; [done|].
  by destruct (has _ (loading (mgr s))).
Qed.

Lemma foldl_visit_oneFetchPerKey (upcoming : list GeoPoint) (s : sys) :
  oneFetchPerKey s -> oneFetchPerKey (foldl visit s upcoming).
Proof.
  revert s. induction upcoming as [|point upcoming IH]; intros s Hs; [done|].
  simpl. apply IH. by apply visit_oneFetchPerKey.
Qed.

(** When a fetch sequence ends, its key leaves the loading set and the
    other sequences keep theirs. *)
Lemma finish_oneFetchPerKey (s : sys) (i : nat) (t : task) (m : state) :
  oneFetchPerKey s ->
  tasks s !! i = Some t ->
  loading m = delete (task_key t) (loading (mgr s)) ->
  oneFetchPerKey {| mgr := m; tasks := base.delete i (tasks s) |}.
Proof.
  intros [Hnd Hin] Hi Hm. split; simpl.
  - rewrite list_fmap_delete. rewrite delete_take_drop.
    rewrite <- (take_drop_middle _ i (task_key t)) in Hnd
      by (by rewrite list_lookup_fmap, Hi).
    apply NoDup_app in Hnd as (H1 & H2 & H3).
    apply NoDup_cons in H3 as [H3 H4].
    apply NoDup_app. split; [done|]. split; [|done].
    intros k Hk Hk'. apply (H2 k Hk). by right.
  - intros t' Ht'. rewrite Hm. apply elem_of_delete. split.
    + rewrite <- (take_drop_middle _ i (task_key t)) in Hnd
        by (by rewrite list_lookup_fmap, Hi).
      apply NoDup_app in Hnd as (H1 & H2 & H3).
      apply NoDup_cons in H3 as [H3 H4].
      rewrite delete_take_drop in Ht'.
      apply elem_of_app in Ht' as [Ht'|Ht'].
      * intros Heq. apply (H2 (task_key t')).
        -- rewrite <- fmap_take. by apply list_elem_of_fmap_2.
        -- rewrite Heq. by left.
      * intros Heq. apply H3. rewrite <- Heq, <- fmap_drop.
        by apply list_elem_of_fmap_2.
    + apply Hin. by apply list_elem_of_delete_inv in Ht'.
Qed.

Lemma step_oneFetchPerKey (s : sys) (e : event) :
  e <> Clear -> oneFetchPerKey s -> oneFetchPerKey (step s e).
Proof.
  intros Hne Hs. destruct e as [ws i|point|i o|url|count|]; simpl; try done.
  - rewrite precacheRoute_visit. by apply foldl_visit_oneFetchPerKey.
  - rewrite precachePoint_call_visit. by apply visit_oneFetchPerKey.
  - destruct (tasks s !! i) as [t|] eqn:Ei; [|done].
    unfold precachePoint_resume.
    destruct t as [point key pc0]. simpl.
    assert (Hfin : forall m, loading m = delete key (loading (mgr s)) ->
              oneFetchPerKey {| mgr := m; tasks := base.delete i (tasks s) |}).
    { intros m Hm. by apply (finish_oneFetchPerKey s i _ m Hs Ei). }
    destruct pc0, o as [panoId|]; simpl;
      try (apply Hfin; by rewrite trimCache_loading).
    destruct (truthy panoId); simpl; [|apply Hfin; by rewrite trimCache_loading].
    destruct Hs as [Hnd Hin]. split; simpl.
    + rewrite list_fmap_insert. simpl.
      rewrite list_insert_id; [done|]. by rewrite list_lookup_fmap, Ei.
    + intros t' Ht'. apply list_elem_of_lookup in Ht' as [j Hj].
      destruct (decide (j = i)) as [->|Hji].
      * rewrite list_lookup_insert_eq in Hj by (by eapply lookup_lt_Some).
        injection Hj as <-. simpl.
        apply (Hin (mkTask point key AwaitPanoId)).
        apply list_elem_of_lookup. eauto.
      * rewrite list_lookup_insert_ne in Hj by done.
        apply Hin. apply list_elem_of_lookup. eauto.
Qed.

Lemma run_oneFetchPerKey (events : list event) (s : sys) :
  Clear ∉ events -> oneFetchPerKey s -> oneFetchPerKey (run events s).
Proof.
  revert s. induction events as [|e events IH]; intros s Hclear Hs; [done|].
  apply not_elem_of_cons in Hclear as [Hne Hclear].
  simpl. apply IH; [done|]. by apply step_oneFetchPerKey.
Qed.

Lemma init_oneFetchPerKey : oneFetchPerKey init.
Proof. split; simpl; [constructor|]. intros t Ht. inversion Ht. Qed.

(** C8: between any two steps of the cooperative schedule no key is in
    both the loading set and the cached set; and [precacheRoute] called
    twice in a row over the same window starts a fetch sequence at most
    once per key: the first call starts them for keys that were in
    neither set, each key once, and the second call starts none, so that
    (as long as [clear] has not dropped the marks of sequences in flight)
    no two fetch sequences in flight are for the same key. *)
Theorem loading_cached_disjoint_and_one_fetch_per_key
    (events : list event) (waypoints : list GeoPoint) (currentIndex : Z) :
  let s := run events init in
  let s1 := precacheRoute waypoints currentIndex s in
  let s2 := precacheRoute waypoints currentIndex s1 in
  disjoint (mgr s) /\ disjoint (mgr s1) /\
  s2 = s1 /\
  (exists started,
     tasks s1 = tasks s ++ started /\
     NoDup (task_key <$> started) /\
     forall t, t ∈ started ->
       (task_key t ∉ loading (mgr s)) /\ (task_key t ∉ cached (mgr s))) /\
  (Clear ∉ events -> NoDup (task_key <$> tasks s2)).
Proof.
  intros s s1 s2.
  assert (Hdis : disjoint (mgr s)).
  { apply run_disjoint. intros key Hin. inversion Hin. }
  split; [done|]. split; [by apply precacheRoute_disjoint|].
  assert (Htwice : s2 = s1) by apply precacheRoute_twice.
  split; [done|]. split.
  - subst s1. rewrite precacheRoute_visit.
    destruct (foldl_visit_grows
                (slice waypoints currentIndex (currentIndex + cacheAhead (mgr s))) s)
      as (_ & _ & _ & _ & started & Ht & Hnd & Hst).
    exists started. split; [done|]. split; [done|].
    intros t Hin. destruct (Hst t Hin) as (_ & ? & ? & _). done.
  - intros Hclear. rewrite Htwice. subst s1. rewrite precacheRoute_visit.
    apply foldl_visit_oneFetchPerKey.
    apply run_oneFetchPerKey; [done|apply init_oneFetchPerKey].
Qed.

End CacheFetches.

Lemma loading_cached_disjoint_and_one_fetch_per_key_witness :
  let events := [CacheManager.PrecacheRoute threePoints 0;
                 CacheManager.Resume 0 (CacheManager.Fulfilled (Some "pano"));
                 CacheManager.Resume 0 (CacheManager.Fulfilled None)] in
  let s := CacheManager.run events CacheManager.init in
  (CacheManager.Clear ∉ events) /\
  NoDup (CacheManager.task_key <$>
         CacheManager.tasks
           (CacheManager.precacheRoute threePoints 1
              (CacheManager.precacheRoute threePoints 1 s))).
Proof.
  intros events s.
  assert (Hclear : CacheManager.Clear ∉ events).
  { intros Hin. subst events.
    repeat (apply elem_of_cons in Hin as [Hin|Hin]; [discriminate Hin|]).
    inversion Hin. }
  split; [exact Hclear|].
  exact (proj2 (proj2 (proj2 (proj2
    (loading_cached_disjoint_and_one_fetch_per_key events threePoints 1)))) Hclear).
Defined.

(** ** Cache manager: eviction *)

Section CacheEviction.
Import CacheManager.

Lemma newest_nat (max : Z) (log : list string) :
  0 <= max -> newest max log = drop (length log - Z.to_nat max) log.
Proof. intros Hmax. unfold newest. f_equal. lia. Qed.

Lemma newest_length (max : Z) (log : list string) :
  0 <= max -> Z.of_nat (length (newest max log)) = Z.min (Z.of_nat (length log)) max.
Proof. intros Hmax. unfold newest. rewrite length_drop. lia. Qed.

Lemma newest_snoc (max : Z) (log : list string) (key : string) :
  0 <= max -> newest max (newest max log ++ [key]) = newest max (log ++ [key]).
Proof.
  intros Hmax. rewrite !newest_nat by done.
  rewrite !length_app, length_drop. simpl.
  destruct (decide (length log <= Z.to_nat max)%nat) as [Hle|Hgt].
  - replace (length log - Z.to_nat max)%nat with 0%nat by lia. simpl.
    f_equal. lia.
  - rewrite !drop_app, drop_drop, length_drop. f_equal; f_equal; lia.
Qed.

Lemma trimCache_newest (m : state) :
  NoDup (cached m) -> cached (trimCache m) = newest (maxCacheSize m) (cached m).
Proof.
  intros Hnd. unfold trimCache, newest.
  destruct (Z.ltb_spec (maxCacheSize m) (Z.of_nat (length (cached m)))) as [Hlt|Hge].
  - simpl. by apply trimLoop_drop.
  - by replace (Z.to_nat (Z.of_nat (length (cached m)) - maxCacheSize m)) with 0%nat by lia.
Qed.

Lemma trimCache_maxCacheSize (m : state) : maxCacheSize (trimCache m) = maxCacheSize m.
Proof. unfold trimCache. by destruct (_ <? _). Qed.

Lemma trimCache_within (m : state) :
  Z.of_nat (length (cached m)) <= maxCacheSize m -> trimCache m = m.
Proof.
  intros Hle. unfold trimCache.
  by destruct (Z.ltb_spec (maxCacheSize m) (Z.of_nat (length (cached m)))); [lia|].
Qed.

Lemma foldl_visit_maxCacheSize (upcoming : list GeoPoint) (s : sys) :
  maxCacheSize (mgr (foldl visit s upcoming)) = maxCacheSize (mgr s).
Proof.
  revert s. induction upcoming as [|point upcoming IH]; intros s; [done|].
  simpl. rewrite IH.
  by destruct (visit_cases s point) as [[-> _]|(-> & _)].
Qed.

(** A step that is not [clear] keeps the cached set equal to the newest
    keys of the insertion log. *)
Lemma step_newest (s : sys) (e : event) (log : list string) :
  let max := maxCacheSize (mgr s) in
  0 <= max ->
  e <> Clear ->
  NoDup (log ++ inserted s e) ->
  cached (mgr s) = newest max log ->
  maxCacheSize (mgr (step s e)) = max /\
  cached (mgr (step s e)) = newest max (log ++ inserted s e).
Proof.
  intros max Hmax Hne Hnd Hc.
  assert (Hwithin : Z.of_nat (length (cached (mgr s))) <= max).
  { rewrite Hc, newest_length by done. lia. }
  assert (Hfin : forall key,
            trimCache (finallyBlock key (mgr s)) = finallyBlock key (mgr s)).
  { intros key. by apply trimCache_within. }
  destruct e as [ws i|point|i o|url|count|]; simpl in *;
    rewrite ?app_nil_r in *; try done.
  - rewrite precacheRoute_visit, foldl_visit_maxCacheSize.
    split; [done|]. rewrite <- Hc.
    by destruct (foldl_visit_grows
                   (slice ws i (i + cacheAhead (mgr s))) s) as (-> & _).
  - rewrite precachePoint_call_visit.
    by destruct (visit_cases s point) as [[-> _]|(-> & _)].
  - destruct (tasks s !! i) as [[point key pc0]|] eqn:Ei;
      [|by destruct o; rewrite ?app_nil_r in *].
    unfold precachePoint_resume. simpl.
    destruct pc0, o as [panoId|]; simpl; rewrite ?app_nil_r in *;
      rewrite ?Hfin; try done.
    + destruct (truthy panoId); simpl; rewrite ?Hfin; done.
    + rewrite trimCache_maxCacheSize. split; [done|].
      apply NoDup_app in Hnd as (Hlog & Hfresh & _).
      assert (Hnew : key ∉ cached (mgr s)).
      { intros Hin. apply (Hfresh key); [|by left].
        rewrite Hc in Hin. by apply (subseteq_drop _ _ key) in Hin. }
      rewrite trimCache_newest; simpl.
      * unfold add. apply has_false in Hnew. rewrite Hnew.
        rewrite Hc. by apply newest_snoc.
      * unfold add. apply has_false in Hnew as Hhas. rewrite Hhas.
        apply NoDup_app. split; [|split; [|apply NoDup_singleton]].
        -- rewrite Hc. unfold newest.
           eapply sublist_NoDup; [done|apply sublist_drop].
        -- intros k Hk ->%list_elem_of_singleton. done.
Qed.

Lemma run_newest (events : list event) (s : sys) (log : list string) :
  let max := maxCacheSize (mgr s) in
  0 <= max ->
  Clear ∉ events ->
  NoDup (log ++ insertionLog events s) ->
  cached (mgr s) = newest max log ->
  cached (mgr (run events s)) = newest max (log ++ insertionLog events s).
Proof.
  revert s log. induction events as [|e events IH]; intros s log max Hmax Hclear Hnd Hc.
  { simpl. by rewrite app_nil_r. }
  apply not_elem_of_cons in Hclear as [Hne Hclear].
  simpl in *. rewrite app_assoc in Hnd |- *.
  destruct (step_newest s e log Hmax (not_eq_sym Hne)) as [Hmax' Hc']; [|done|].
  { apply NoDup_app in Hnd as (? & _). done. }
  fold max in Hmax', Hc'. rewrite <- Hmax'.
  apply IH; rewrite ?Hmax'; done.
Qed.

(** C7: from an empty cached set, once more than [maxCacheSize] distinct
    keys have been inserted (in whatever order the fetch sequences end),
    the cached set holds exactly [maxCacheSize] keys: the most recently
    inserted ones, in insertion order.  The keys evicted are exactly the
    earliest-inserted ones. *)
Theorem cache_evicts_oldest_first (events : list event) (s : sys) :
  let max := maxCacheSize (mgr s) in
  let log := insertionLog events s in
  let evicted := (length log - Z.to_nat max)%nat in
  cached (mgr s) = [] ->
  0 <= max ->
  Clear ∉ events ->
  NoDup log ->
  max < Z.of_nat (length log) ->
  cached (mgr (run events s)) = drop evicted log /\
  Z.of_nat (length (cached (mgr (run events s)))) = max /\
  (forall key, key ∈ take evicted log -> key ∉ cached (mgr (run events s))) /\
  (forall key, key ∈ drop evicted log -> key ∈ cached (mgr (run events s))).
Proof.
  intros max log evicted Hempty Hmax Hclear Hnd Hmore.
  assert (Hc : cached (mgr (run events s)) = drop evicted log).
  { subst evicted. rewrite <- (newest_nat max log Hmax).
    apply (run_newest events s []); try done.
    rewrite Hempty. unfold newest. by rewrite drop_nil. }
  rewrite Hc. split; [done|]. split; [rewrite length_drop; lia|].
  split; [|done].
  intros key Hold Hnew.
  rewrite <- (take_drop evicted log) in Hnd.
  apply NoDup_app in Hnd as (_ & Hsep & _). by apply (Hsep key).
Qed.

(** The bound holds after every step, not only at the end. *)
Lemma cache_size_bounded (events : list event) (s : sys) :
  let max := maxCacheSize (mgr s) in
  let log := insertionLog events s in
  cached (mgr s) = [] -> 0 <= max -> Clear ∉ events -> NoDup log ->
  Z.of_nat (length (cached (mgr (run events s)))) = Z.min (Z.of_nat (length log)) max.
Proof.
  intros max log Hempty Hmax Hclear Hnd.
  rewrite (run_newest events s []); try done.
  - by apply newest_length.
  - rewrite Hempty. unfold newest. by rewrite drop_nil.
Qed.

End CacheEviction.

Lemma fetchAll_no_clear (points : list GeoPoint) : CacheManager.Clear ∉ fetchAll points.
Proof.
  induction points as [|point points IH]; [by intros Hin; inversion Hin|].
  unfold fetchAll. simpl. fold (fetchAll points).
  intros Hin.
  repeat (apply elem_of_cons in Hin as [Hin|Hin]; [discriminate Hin|]).
  by apply IH.
Qed.

Lemma cache_evicts_oldest_first_witness :
  let events := fetchAll manyPoints in
  let s := CacheManager.init in
  let log := CacheManager.insertionLog events s in
  (CacheManager.cached (CacheManager.mgr s) = [] /\
   0 <= CacheManager.maxCacheSize (CacheManager.mgr s) /\
   (CacheManager.Clear ∉ events) /\
   NoDup log /\
   CacheManager.maxCacheSize (CacheManager.mgr s) < Z.of_nat (length log)) /\
  Z.of_nat (length (CacheManager.cached (CacheManager.mgr (CacheManager.run events s)))) = 50.
Proof.
  intros events s log.
  assert (H1 : CacheManager.cached (CacheManager.mgr s) = []) by reflexivity.
  assert (H2 : 0 <= CacheManager.maxCacheSize (CacheManager.mgr s)) by (simpl; lia).
  assert (H3 : CacheManager.Clear ∉ events) by apply fetchAll_no_clear.
  assert (H4 : NoDup log).
  { apply (bool_decide_unpack _). vm_compute. exact I. }
  assert (H5 : CacheManager.maxCacheSize (CacheManager.mgr s) < Z.of_nat (length log)).
  { vm_compute. reflexivity. }
  split; [exact (conj H1 (conj H2 (conj H3 (conj H4 H5))))|].
  exact (proj1 (proj2 (cache_evicts_oldest_first events s H1 H2 H3 H4 H5))).
Defined.


(** ** Transition engine: single flight *)

Section SingleFlight.
Import TransitionEngine.

Lemma inProgressCount_snoc (qs : list promise) (q : promise) :
  inProgressCount (qs ++ [q]) =
  (inProgressCount qs + if inProgress q then 1 else 0)%nat.
Proof. induction qs as [|q' qs IH]; simpl; [lia|]. rewrite IH. lia. Qed.

Lemma inProgressCount_insert (qs : list promise) (id : nat) (old new : promise) :
  qs !! id = Some old ->
  (inProgressCount (<[id := new]> qs) + (if inProgress old then 1 else 0) =
   inProgressCount qs + (if inProgress new then 1 else 0))%nat.
Proof.
  revert id. induction qs as [|q qs IH]; intros id Hid; [done|].
  destruct id as [|id]; simpl in *.
  - injection Hid as ->. lia.
  - specialize (IH id Hid). lia.
Qed.

Lemma inProgressCount_lookup (qs : list promise) (id : nat) (q : promise) :
  qs !! id = Some q -> inProgress q = true -> (1 <= inProgressCount qs)%nat.
Proof.
  revert id. induction qs as [|q' qs IH]; intros id Hid Hq; [done|].
  destruct id as [|id]; simpl in *.
  - injection Hid as ->. rewrite Hq. lia.
  - specialize (IH id Hid Hq). lia.
Qed.

(** The code that runs inside the [try] never leaves it by an [await] of
    the other branch. *)
Lemma tryBody_parks_inside (p p' : pc) (o : outcome) (e e' : state)
    (sent : list viewerCall) :
  inTry p = true -> tryBody p o e = (e', sent, Parked p') ->
  inTry p' = true /\ o = Fulfilled /\ (awaitsLeft p' < awaitsLeft p)%nat /\
  isTransitioning e' = isTransitioning e.
Proof.
  intros Hp Hbody. destruct o; [|discriminate].
  destruct p as [h|  |tp h|h| | | | ]; try discriminate; simpl in Hbody;
    try destruct h; injection Hbody as <- <- <-; simpl; repeat split; lia.
Qed.

Lemma tryBody_keeps_lock (p : pc) (o : outcome) (e : state) :
  isTransitioning (fst (fst (tryBody p o e))) = isTransitioning e.
Proof. destruct o, p as [h|  |tp h|h| | | | ]; try destruct h; reflexivity. Qed.

Lemma call_singleFlight (targetPosition : GeoPoint) (targetHeading : option Q) (s : sys) :
  singleFlight s -> singleFlight (call targetPosition targetHeading s).
Proof.
  unfold singleFlight, call, transitionTo_call. intros Hs.
  destruct (isTransitioning (engine s)) eqn:Hlock; simpl.
  - rewrite inProgressCount_snoc, Hlock. simpl. lia.
  - destruct (enabled (settings_ (engine s))); simpl.
    + destruct (truthy (frame s)); simpl; rewrite inProgressCount_snoc; simpl; lia.
    + rewrite inProgressCount_snoc, Hlock. simpl. lia.
Qed.

Lemma resume_singleFlight (id : nat) (o : outcome) (s : sys) :
  singleFlight s -> singleFlight (resume id o s).
Proof.
  unfold singleFlight, resume. intros Hs.
  destruct (promises s !! id) as [[p| |]|] eqn:Hid; try done.
  pose proof (inProgressCount_insert (promises s) id (Pending p)) as Hins.
  unfold transitionTo_resume.
  destruct (inTry p) eqn:Hp.
  - assert (Hlock : isTransitioning (engine s) = true).
    { pose proof (inProgressCount_lookup _ _ (Pending p) Hid Hp) as Hone.
      destruct (isTransitioning (engine s)); [done|lia]. }
    pose proof (tryBody_keeps_lock p o (engine s)) as Hkeep.
    destruct (tryBody p o (engine s)) as [[e' sent] r] eqn:Hbody.
    simpl in Hkeep. rewrite Hlock in Hs, Hkeep.
    destruct r as [p'|success|]; simpl.
    + destruct (tryBody_parks_inside p p' o _ _ _ Hp Hbody) as (Hp' & _).
      specialize (Hins (Pending p') Hid). simpl in Hins.
      rewrite Hp, Hp' in Hins. rewrite Hkeep. lia.
    + specialize (Hins (Resolved success) Hid). simpl in Hins.
      rewrite Hp in Hins. lia.
    + specialize (Hins (Resolved false) Hid). simpl in Hins.
      rewrite Hp in Hins. lia.
  - destruct o.
    + destruct p as [[h|]|  |tp h|h| | | | ]; try discriminate Hp; simpl.
      * specialize (Hins (Pending Off_setPov) Hid). simpl in Hins. lia.
      * specialize (Hins (Resolved true) Hid). simpl in Hins. lia.
      * specialize (Hins (Resolved true) Hid). simpl in Hins. lia.
    + simpl. specialize (Hins Failed Hid). simpl in Hins. rewrite Hp in Hins. lia.
Qed.

Lemma step_singleFlight (s : sys) (ev : event) :
  singleFlight s -> singleFlight (step s ev).
Proof.
  destruct ev as [tp th|id o|u|f]; simpl; try done.
  - apply call_singleFlight.
  - apply resume_singleFlight.
Qed.

Lemma run_singleFlight (events : list event) (s : sys) :
  singleFlight s -> singleFlight (run events s).
Proof.
  revert s. induction events as [|ev events IH]; intros s Hs; [done|].
  simpl. apply IH. by apply step_singleFlight.
Qed.

(** While a call is parked inside the [try], the lock is taken. *)
Lemma in_progress_locks (s : sys) (id : nat) (p : pc) :
  singleFlight s -> promises s !! id = Some (Pending p) -> inTry p = true ->
  isTransitioning (engine s) = true.
Proof.
  unfold singleFlight. intros Hs Hid Hp.
  pose proof (inProgressCount_lookup _ _ (Pending p) Hid Hp) as Hone.
  destruct (isTransitioning (engine s)); [done|lia].
Qed.

(** C1: in every state the engine can be in while a transition is in
    progress (its call is parked inside the [try], so its promise has not
    settled), a further [transitionTo] returns false at once: its promise
    is resolved with false within the call, the engine with its two
    overlays is left exactly as it was, and nothing is sent to the
    viewer. *)
Theorem second_transition_rejected (events : list event) (id : nat) (p : pc)
    (targetPosition : GeoPoint) (targetHeading : option Q) :
  let s := run events init in
  promises s !! id = Some (Pending p) ->
  inTry p = true ->
  transitionTo_call (frame s) targetPosition targetHeading (engine s)
    = (engine s, [], Returned false) /\
  call targetPosition targetHeading s =
    {| engine := engine s; frame := frame s; viewer := viewer s;
       promises := promises s ++ [Resolved false] |}.
Proof.
  intros s Hid Hp.
  assert (Hlock : isTransitioning (engine s) = true).
  { apply (in_progress_locks s id p); [|done|done].
    apply run_singleFlight. reflexivity. }
  unfold call, transitionTo_call. rewrite Hlock. simpl.
  by rewrite app_nil_r.
Qed.

End SingleFlight.

Lemma second_transition_rejected_witness :
  let events := [TransitionEngine.Call (mkPoint 0 0.001) (Some 90%Q);
                 TransitionEngine.Resume 0 TransitionEngine.Fulfilled] in
  let s := TransitionEngine.run events TransitionEngine.init in
  TransitionEngine.promises s !! 0%nat
    = Some (TransitionEngine.Pending (TransitionEngine.On_setPosition (Some 90%Q))) /\
  TransitionEngine.call (mkPoint 0 0.002) None s =
    {| TransitionEngine.engine := TransitionEngine.engine s;
       TransitionEngine.frame := TransitionEngine.frame s;
       TransitionEngine.viewer := TransitionEngine.viewer s;
       TransitionEngine.promises :=
         TransitionEngine.promises s ++ [TransitionEngine.Resolved false] |}.
Proof.
  intros events s.
  assert (Hid : TransitionEngine.promises s !! 0%nat
    = Some (TransitionEngine.Pending (TransitionEngine.On_setPosition (Some 90%Q))))
    by reflexivity.
  split; [exact Hid|].
  exact (proj2 (second_transition_rejected events 0
                  (TransitionEngine.On_setPosition (Some 90%Q))
                  (mkPoint 0 0.002) None Hid eq_refl)).
Defined.

(** ** Transition engine: the lock is always released *)

Section Release.
Import TransitionEngine.

(** A call that finds the engine idle and transitions enabled enters the
    [try] with the lock taken, and parks at the first delay. *)
Lemma transitionTo_enters (frame : option string) (targetPosition : GeoPoint)
    (targetHeading : option Q) (e : state) :
  isTransitioning e = false -> enabled (settings_ e) = true ->
  exists e',
    transitionTo_call frame targetPosition targetHeading e =
      (e', [], Parked (On_delay50 targetPosition targetHeading)) /\
    isTransitioning e' = true.
Proof.
  intros Hidle Hon. unfold transitionTo_call. rewrite Hidle, Hon. simpl.
  unfold tryStart. destruct (truthy frame); simpl; eauto.
Qed.

(** One resumption of a call parked inside the [try]. *)
Lemma transitionTo_resume_inside (p : pc) (o : outcome) (e : state) :
  inTry p = true ->
  match transitionTo_resume p o e with
  | (e', _, Parked p') =>
      inTry p' = true /\ o = Fulfilled /\ (awaitsLeft p' < awaitsLeft p)%nat
  | (e', _, Returned success) =>
      isTransitioning e' = false /\
      (if success then o = Fulfilled /\ p = On_delayDuration
       else o = Rejected /\ overlayOpacity e' = 0%Q /\ imageOverlayOpacity e' = 0%Q)
  | (_, _, Threw) => False
  end.
Proof.
  intros Hp. unfold transitionTo_resume. rewrite Hp.
  destruct o; [|by destruct p].
  destruct p as [h|  |tp h|h| | | | ]; try discriminate Hp; simpl;
    try destruct h; simpl; repeat split; lia.
Qed.

(** The same seen from the callers: what a resumption does to the
    promise of the call. *)
Lemma resume_inside (s : sys) (id : nat) (p : pc) (o : outcome) :
  promises s !! id = Some (Pending p) ->
  inTry p = true ->
  match promises (resume id o s) !! id with
  | Some (Pending p') =>
      inTry p' = true /\ o = Fulfilled /\ (awaitsLeft p' < awaitsLeft p)%nat
  | Some (Resolved success) =>
      isTransitioning (engine (resume id o s)) = false /\
      (if success then o = Fulfilled /\ p = On_delayDuration
       else o = Rejected /\
            overlayOpacity (engine (resume id o s)) = 0%Q /\
            imageOverlayOpacity (engine (resume id o s)) = 0%Q)
  | _ => False
  end.
Proof.
  intros Hid Hp. unfold resume. rewrite Hid.
  pose proof (transitionTo_resume_inside p o (engine s) Hp) as Hres.
  destruct (transitionTo_resume p o (engine s)) as [[e' sent] r].
  simpl. rewrite list_lookup_insert_eq by (by eapply lookup_lt_Some).
  destruct r as [p'|success|]; simpl; done.
Qed.

(** C2: a call of [transitionTo] that has entered the [try] block never
    ends with an exception.  Resumed after an [await], it either parks at
    a later [await] of the [try] (fewer of them are left), or its promise
    is resolved, and then the lock is released in that very step.  It is
    resolved with true only at the end of the last delay; when what it
    awaited was rejected it is resolved with false and both overlays have
    opacity 0. *)
Theorem transition_releases_lock (s : sys) (id : nat) (p : pc) (o : outcome) :
  promises s !! id = Some (Pending p) ->
  inTry p = true ->
  let s' := resume id o s in
  match promises s' !! id with
  | Some (Pending p') =>
      inTry p' = true /\ o = Fulfilled /\ (awaitsLeft p' < awaitsLeft p)%nat
  | Some (Resolved success) =>
      isTransitioning (engine s') = false /\
      (if success then o = Fulfilled /\ p = On_delayDuration
       else o = Rejected /\
            overlayOpacity (engine s') = 0%Q /\
            imageOverlayOpacity (engine s') = 0%Q)
  | _ => False
  end /\
  (o = Rejected ->
   promises s' !! id = Some (Resolved false) /\
   isTransitioning (engine s') = false /\
   overlayOpacity (engine s') = 0%Q /\
   imageOverlayOpacity (engine s') = 0%Q).
Proof.
  intros Hid Hp s'. subst s'.
  pose proof (resume_inside s id p o Hid Hp) as Hres.
  split; [exact Hres|].
  intros ->.
  destruct (promises (resume id Rejected s) !! id) as [[p'|[|]|]|]; try done.
  - by destruct Hres as (_ & ? & _).
  - by destruct Hres as (_ & ? & _).
  - by destruct Hres as (? & _ & ? & ?).
Qed.

(** Resumed as often as it has [await]s left, a call inside the [try]
    has settled, whatever the awaited promises did. *)
Lemma transition_settles (os : list outcome) (s : sys) (id : nat) (p : pc) :
  promises s !! id = Some (Pending p) ->
  inTry p = true ->
  (awaitsLeft p <= length os)%nat ->
  exists success,
    promises (foldl (fun s o => resume id o s) s os) !! id = Some (Resolved success).
Proof.
  revert s p. induction os as [|o os IH]; intros s p Hid Hp Hlen.
  { destruct p; simpl in *; lia. }
  simpl. pose proof (resume_inside s id p o Hid Hp) as Hstep.
  destruct (promises (resume id o s) !! id) as [[p'|success|]|] eqn:Hid'; try done.
  - destruct Hstep as (Hp' & _ & Hless).
    apply (IH _ p'); [done|done|simpl in Hlen; lia].
  - exists success. clear IH Hlen Hstep.
    revert Hid'. generalize (resume id o s). clear.
    induction os as [|o os IH]; intros s Hid; [done|].
    simpl. apply IH. unfold resume. by rewrite Hid.
Qed.

End Release.

Lemma transition_releases_lock_witness :
  let events := [TransitionEngine.Call (mkPoint 0 0.001) (Some 90%Q);
                 TransitionEngine.Resume 0 TransitionEngine.Fulfilled] in
  let s := TransitionEngine.run events TransitionEngine.init in
  let s' := TransitionEngine.resume 0 TransitionEngine.Rejected s in
  TransitionEngine.promises s !! 0%nat
    = Some (TransitionEngine.Pending (TransitionEngine.On_setPosition (Some 90%Q))) /\
  TransitionEngine.promises s' !! 0%nat = Some (TransitionEngine.Resolved false).
Proof.
  intros events s s'.
  assert (Hid : TransitionEngine.promises s !! 0%nat
    = Some (TransitionEngine.Pending (TransitionEngine.On_setPosition (Some 90%Q))))
    by reflexivity.
  split; [exact Hid|].
  exact (proj1 (proj2 (transition_releases_lock s 0
                         (TransitionEngine.On_setPosition (Some 90%Q))
                         TransitionEngine.Rejected Hid eq_refl) eq_refl)).
Defined.

(** ** Playback controller *)

Section Playback.
Context `{JSMath}.
Import Controller.

Lemma advanceFrame_resume_failure (s : state) :
  route (advanceFrame_resume false s) = route s /\
  sent (advanceFrame_resume false s) = sent s /\
  uiBar (advanceFrame_resume false s) = uiBar s.
Proof.
  unfold advanceFrame_resume. by destruct (isPlaying s && negb (isPaused s)).
Qed.

Lemma advanceFrame_resume_success (s : state) :
  route (advanceFrame_resume true s) = snd (RouteManager.advance (route s)).
Proof.
  unfold advanceFrame_resume. simpl.
  by destruct (isPlaying s && negb (isPaused s)).
Qed.

(** [advance] moves the cursor forward or not at all. *)
Lemma advance_cursor (rm : RouteManager.state) :
  RouteManager.currentIndex (snd (RouteManager.advance rm)) = RouteManager.currentIndex rm \/
  RouteManager.currentIndex (snd (RouteManager.advance rm)) = RouteManager.currentIndex rm + 1.
Proof. unfold RouteManager.advance. destruct (_ <? _); simpl; auto. Qed.

(** The part of [advanceFrame] before the [await] either leaves the
    route alone, or there is no next waypoint and it stops the playback
    without calling [transitionTo]. *)
Lemma advanceFrame_call_route (s : state) :
  (route (advanceFrame_call s) = route s /\
   sent (advanceFrame_call s) = sent s /\
   uiBar (advanceFrame_call s) = uiBar s) \/
  (advanceFrame_call s = stop s /\ cycles (advanceFrame_call s) = cycles s /\
   transitions (advanceFrame_call s) = transitions s).
Proof.
  unfold advanceFrame_call.
  destruct (negb (isPlaying s) || isPaused s); [by left|].
  destruct (RouteManager.getNextWaypoint (route s)); [by left|].
  right. split; [done|]. unfold stop, clearPlaybackTimer. simpl.
  by destruct (playbackTimer s).
Qed.

Lemma stop_isPlaying (s : state) : isPlaying (stop s) = false.
Proof. unfold stop, clearPlaybackTimer. simpl. by destruct (playbackTimer s). Qed.

(** Nothing else in the controller moves the cursor behind the back of
    the advance cycle: a step changes the route only if it is an explicit
    [skip], [stop] or change of route, the end of the route met by
    [advanceFrame] (which stops the playback), or the resumption of a
    parked [advanceFrame] whose transition succeeded. *)
Lemma step_changes_route (s : state) (ev : event) :
  route (step s ev) <> route s ->
  match ev with
  | Skip _ | SetRoute _ | Stop => True
  | Play | TimerFires _ => RouteManager.getNextWaypoint (route s) = None
  | CycleResumes i =>
      exists promise,
        cycles s !! i = Some promise /\
        TransitionEngine.promises (transitions s) !! promise
          = Some (TransitionEngine.Resolved true)
  | _ => False
  end.
Proof.
  destruct ev as [ | | |frames|name| | |new|points|handle|promise o|f|i|e];
    simpl; try done.
  - unfold play. destruct (negb (RouteManager.hasRoute (route s))); [done|].
    destruct (isPlaying s); [done|].
    match goal with |- route (advanceFrame_call ?s') <> _ -> _ =>
      destruct (advanceFrame_call_route s') as [(Hr & _)|(Hstop & _)] end.
    + by rewrite Hr.
    + apply (f_equal isPlaying) in Hstop. rewrite stop_isPlaying in Hstop.
      unfold advanceFrame_call in *. simpl in *.
      destruct (RouteManager.getNextWaypoint (route s)); [|done].
      discriminate Hstop.
  - unfold clearPlaybackTimer. simpl. by destruct (playbackTimer s).
  - unfold speedUp. by destruct (Z.ltb _ _).
  - unfold slowDown. by destruct (Z.ltb _ _).
  - destruct (bool_decide _); [|done].
    match goal with |- route (advanceFrame_call ?s') <> _ -> _ =>
      destruct (advanceFrame_call_route s') as [(Hr & _)|(Hstop & _)] end.
    + by rewrite Hr.
    + apply (f_equal isPlaying) in Hstop. rewrite stop_isPlaying in Hstop.
      unfold advanceFrame_call in *. simpl in *.
      destruct (negb (isPlaying s) || isPaused s) eqn:Hidle; [done|].
      destruct (RouteManager.getNextWaypoint (route s)); [|done].
      apply orb_false_elim in Hidle as [Hplaying _].
      simpl in Hstop. rewrite Hstop in Hplaying. discriminate Hplaying.
  - destruct (cycles s !! i) as [promise|]; [|done].
    destruct (TransitionEngine.promises (transitions s) !! promise)
      as [[p|[|]|]|] eqn:Hpromise; try done.
    + intros _. by exists promise.
    + destruct (advanceFrame_resume_failure (set_cycles (base.delete i (cycles s)) s))
        as (-> & _). done.
Qed.

(** C3: when a parked [advanceFrame] is resumed, the cursor of the route
    moves only if the promise of its [transitionTo] was resolved with
    true, and then by [advance]; when it was resolved with false (or
    rejected) the route, the progress bar and the messages sent are as
    they were.  Before its [await], [advanceFrame] calls [transitionTo]
    without touching any of them. *)
Theorem cursor_advances_only_on_success (s : state) (i promise : nat) :
  cycles s !! i = Some promise ->
  let s' := step s (CycleResumes i) in
  match TransitionEngine.promises (transitions s) !! promise with
  | Some (TransitionEngine.Resolved true) =>
      route s' = snd (RouteManager.advance (route s))
  | _ => route s' = route s /\ sent s' = sent s /\ uiBar s' = uiBar s
  end /\
  (RouteManager.currentIndex (route s') <> RouteManager.currentIndex (route s) ->
   TransitionEngine.promises (transitions s) !! promise
     = Some (TransitionEngine.Resolved true) /\
   RouteManager.currentIndex (route s') = RouteManager.currentIndex (route s) + 1) /\
  (cycles (advanceFrame_call s) <> cycles s ->
   route (advanceFrame_call s) = route s /\
   sent (advanceFrame_call s) = sent s /\
   uiBar (advanceFrame_call s) = uiBar s).
Proof.
  intros Hi s'. subst s'. simpl. rewrite Hi.
  split; [|split].
  - destruct (TransitionEngine.promises (transitions s) !! promise)
      as [[p|[|]|]|]; try done.
    + by rewrite advanceFrame_resume_success.
    + destruct (advanceFrame_resume_failure (set_cycles (base.delete i (cycles s)) s))
        as (-> & -> & ->). done.
  - destruct (TransitionEngine.promises (transitions s) !! promise)
      as [[p|[|]|]|]; try done.
    + rewrite advanceFrame_resume_success. simpl.
      destruct (advance_cursor (route s)) as [->| ->]; done.
    + destruct (advanceFrame_resume_failure (set_cycles (base.delete i (cycles s)) s))
        as (-> & _). done.
  - intros Hcalled.
    destruct (advanceFrame_call_route s) as [?|(_ & ? & _)]; done.
Qed.

Lemma transitionResumes_run (resumptions : list (nat * TransitionEngine.outcome)) (s : state) :
  run (transitionResumes resumptions) s =
  set_transitions (TransitionEngine.run (engineResumes resumptions) (transitions s)) s.
Proof.
  revert s. unfold run, transitionResumes, engineResumes, TransitionEngine.run.
  induction resumptions as [|[id o] resumptions IH]; intros s.
  { by destruct s. }
  rewrite !fmap_cons. cbn [foldl]. rewrite IH. reflexivity.
Qed.



End Playback.


Lemma cursor_advances_only_on_success_witness :
  let s0 := @Controller.run flatMath
              [Controller.SetRoute threePoints; Controller.Play;
               Controller.TransitionResumes 0 TransitionEngine.Rejected]
              Controller.init in
  let s' := @Controller.step flatMath s0 (Controller.CycleResumes 0) in
  Controller.cycles s0 !! 0%nat = Some 0%nat /\
  TransitionEngine.promises (Controller.transitions s0) !! 0%nat
    = Some (TransitionEngine.Resolved false) /\
  Controller.route s' = Controller.route s0 /\
  Controller.sent s' = Controller.sent s0 /\
  Controller.uiBar s' = Controller.uiBar s0.
Proof.
  intros s0 s'.
  assert (Hi : Controller.cycles s0 !! 0%nat = Some 0%nat)
    by (vm_compute; reflexivity).
  destruct (@cursor_advances_only_on_success flatMath s0 0 0 Hi) as [Hthm _].
  split; [exact Hi|]. split; [vm_compute; reflexivity|].
  vm_compute in Hthm. vm_compute. exact Hthm.
Defined.


(** ** Geometry: headings *)

Section Headings.
Import GeoUtils.

Lemma Qle_bool_false (x y : Q) : Qle_bool x y = false <-> (y < x)%Q.
Proof.
  split.
  - intros Hb. apply Qnot_le_lt. intros Hle.
    apply Qle_bool_iff in Hle. congruence.
  - intros Hlt. destruct (Qle_bool x y) eqn:E; [|done].
    apply Qle_bool_iff in E. by destruct (Qlt_not_le _ _ Hlt).
Qed.

Lemma inject_Z_S (n : nat) :
  (inject_Z (Z.of_nat (S n)) == inject_Z (Z.of_nat n) + 1)%Q.
Proof. rewrite Nat2Z.inj_succ. unfold Z.succ. by rewrite inject_Z_plus. Qed.

(** The full turns in [diff] are at least [|diff| / 360]. *)
Lemma turns_bound (diff : Q) :
  (Qabs diff <= 360 * inject_Z (Z.of_nat (turns diff)))%Q.
Proof.
  unfold turns.
  assert (Hq : (0 <= Qabs diff / 360)%Q).
  { apply Qle_shift_div_l; [reflexivity|]. rewrite Qmult_0_l. apply Qabs_nonneg. }
  assert (Hc : 0 <= Qceiling (Qabs diff / 360)).
  { rewrite Zle_Qle. eapply Qle_trans; [exact Hq|apply Qle_ceiling]. }
  rewrite Z2Nat.id by done.
  pose proof (Qle_ceiling (Qabs diff / 360)) as Hle.
  apply (Qmult_le_l _ _ 360) in Hle; [|reflexivity].
  eapply Qle_trans; [|exact Hle].
  rewrite Qmult_div_r; [apply Qle_refl|discriminate].
Qed.

Lemma Qabs_bounds (x : Q) : (x <= Qabs x)%Q /\ (- x <= Qabs x)%Q.
Proof.
  split; [apply Qle_Qabs|]. rewrite <- Qabs_opp. apply Qle_Qabs.
Qed.

Lemma absorbs360_false (diff : Q) :
  (Qabs diff <= inject_Z (2 ^ 62))%Q -> absorbs360 diff = false.
Proof.
  intros Hle. unfold absorbs360. apply Qle_bool_iff in Hle. by rewrite Hle.
Qed.


Lemma large_positive : (180 < inject_Z (2 ^ 62))%Q.
Proof. reflexivity. Qed.


Lemma whileAbove_ends (fuel : nat) (diff : Q) :
  (diff <= inject_Z (2 ^ 62))%Q ->
  (diff <= 180 + 360 * inject_Z (Z.of_nat fuel))%Q ->
  exists (r : Q) (k : nat),
    whileAbove fuel diff = Some r /\
    (r <= 180)%Q /\
    (r == diff - 360 * inject_Z (Z.of_nat k))%Q /\
    (k = 0%nat \/ (-180 < r)%Q).
Proof.
  revert diff. induction fuel as [|fuel IH]; intros diff Hbig Hfuel.
  - exists diff, 0%nat. change (inject_Z (Z.of_nat 0)) with 0%Q in *. unfold whileAbove.
    assert (Hle : (diff <= 180)%Q) by lra.
    apply Qle_bool_iff in Hle. rewrite Hle.
    split; [done|]. split; [lra|]. split; [change (inject_Z (Z.of_nat 0)) with 0%Q; lra|by left].
  - simpl. destruct (Qle_bool diff 180) eqn:E.
    + exists diff, 0%nat. apply Qle_bool_iff in E.
      split; [done|]. split; [done|]. split; [change (inject_Z (Z.of_nat 0)) with 0%Q; lra|by left].
    + apply Qle_bool_false in E.
      rewrite inject_Z_S in Hfuel.
      assert (Habs : absorbs360 diff = false).
      { apply absorbs360_false. rewrite Qabs_pos; [done|lra]. }
      unfold minus360. rewrite Habs.
      destruct (IH (diff - 360)%Q) as (r & k & Hr & Hle & Heq & Hk); [lra|lra|].
      exists r, (S k). split; [done|]. split; [done|].
      split; [rewrite inject_Z_S; lra|].
      right. destruct Hk as [->|Hk]; [change (inject_Z (Z.of_nat 0)) with 0%Q in Heq; lra|done].
Qed.

Lemma whileBelow_ends (fuel : nat) (diff : Q) :
  (- inject_Z (2 ^ 62) <= diff)%Q ->
  (-180 - 360 * inject_Z (Z.of_nat fuel) <= diff)%Q ->
  exists (r : Q) (k : nat),
    whileBelow fuel diff = Some r /\
    (-180 <= r)%Q /\
    (r == diff + 360 * inject_Z (Z.of_nat k))%Q /\
    (k = 0%nat \/ (r < 180)%Q).
Proof.
  revert diff. induction fuel as [|fuel IH]; intros diff Hbig Hfuel.
  - exists diff, 0%nat. change (inject_Z (Z.of_nat 0)) with 0%Q in *. unfold whileBelow.
    assert (Hle : (-180 <= diff)%Q) by lra.
    apply Qle_bool_iff in Hle. rewrite Hle.
    split; [done|]. split; [lra|]. split; [change (inject_Z (Z.of_nat 0)) with 0%Q; lra|by left].
  - simpl. destruct (Qle_bool (-180) diff) eqn:E.
    + exists diff, 0%nat. apply Qle_bool_iff in E.
      split; [done|]. split; [done|]. split; [change (inject_Z (Z.of_nat 0)) with 0%Q; lra|by left].
    + apply Qle_bool_false in E.
      rewrite inject_Z_S in Hfuel.
      assert (Habs : absorbs360 diff = false).
      { apply absorbs360_false. rewrite Qabs_neg; lra. }
      unfold plus360. rewrite Habs.
      destruct (IH (diff + 360)%Q) as (r & k & Hr & Hle & Heq & Hk); [lra|lra|].
      exists r, (S k). split; [done|]. split; [done|].
      split; [rewrite inject_Z_S; lra|].
      right. destruct Hk as [->|Hk]; [change (inject_Z (Z.of_nat 0)) with 0%Q in Heq; lra|done].
Qed.





Lemma normalizeHeadingDiff_spec (from to : Q) :
  (Qabs (to - from) <= inject_Z (2 ^ 62))%Q ->
  exists (r : Q) (k : Z),
    normalizeHeadingDiff from to = Some r /\
    (-180 <= r)%Q /\ (r <= 180)%Q /\
    (r == to - from + 360 * inject_Z k)%Q.
Proof.
  intros Hbig. unfold normalizeHeadingDiff.
  pose proof large_positive as Hlarge.
  pose proof (turns_bound (to - from)) as Hturns.
  destruct (Qabs_bounds (to - from)) as [Hup Hdown].
  destruct (whileAbove_ends (turns (to - from)) (to - from))
    as (r1 & k1 & -> & Hle1 & Heq1 & Hk1); [lra|lra|].
  pose proof (turns_bound r1) as Hturns1.
  destruct (Qabs_bounds r1) as [Hup1 Hdown1].
  destruct (whileBelow_ends (turns r1) r1)
    as (r2 & k2 & -> & Hle2 & Heq2 & Hk2); [|lra|].
  { destruct Hk1 as [->|Hk1]; [change (inject_Z (Z.of_nat 0)) with 0%Q in Heq1; lra|lra]. }
  exists r2, (Z.of_nat k2 - Z.of_nat k1).
  split; [done|]. split; [done|]. split.
  - destruct Hk2 as [->|Hk2]; [change (inject_Z (Z.of_nat 0)) with 0%Q in Heq2; lra|lra].
  - unfold Zminus. rewrite inject_Z_plus, inject_Z_opp. lra.
Qed.





End Headings.

Section Remainder.
Import GeoUtils.

(** [a % b] for a dividend that is not negative and a positive divisor:
    the result is in [0, b) and differs from [a] by a multiple of [b]. *)
Lemma rem_nonneg (a b : Q) :
  (0 <= a)%Q -> (0 < b)%Q ->
  (0 <= JS.rem a b)%Q /\ (JS.rem a b < b)%Q /\
  exists k : Z, (JS.rem a b == a - b * inject_Z k)%Q.
Proof.
  intros Ha Hb. unfold JS.rem.
  set (q := (a / b)%Q).
  assert (Hq : (0 <= q)%Q).
  { apply Qle_shift_div_l; [done|]. by rewrite Qmult_0_l. }
  assert (Hquot : Z.quot (Qnum q) (Z.pos (Qden q)) = Qfloor q).
  { unfold Qfloor. destruct q as [n d]. simpl.
    apply Z.quot_div_nonneg; [|lia].
    unfold Qle in Hq. simpl in Hq. lia. }
  rewrite Hquot.
  assert (Hab : (a == b * q)%Q).
  { unfold q. rewrite Qmult_div_r; [reflexivity|]. intros E. rewrite E in Hb.
    by apply Qlt_irrefl in Hb. }
  pose proof (Qfloor_le q) as Hlo.
  pose proof (Qlt_floor q) as Hhi.
  rewrite inject_Z_plus in Hhi. change (inject_Z 1) with 1%Q in Hhi.
  split; [|split].
  - rewrite Hab. nra.
  - rewrite Hab. nra.
  - exists (Qfloor q). reflexivity.
Qed.

(** X2: Between a heading that is at least -180 and a heading at most
    2^62 away from it, [interpolateHeading] gives a heading in [0, 360)
    for every factor from 0 to 1. *)
Theorem interpolateHeading_range (from to t : Q) :
  (Qabs (to - from) <= inject_Z (2 ^ 62))%Q ->
  (-180 <= from)%Q -> (0 <= t)%Q -> (t <= 1)%Q ->
  exists r : Q,
    interpolateHeading from to t = Some r /\ (0 <= r)%Q /\ (r < 360)%Q.
Proof.
  intros Hbig Hfrom Ht0 Ht1. unfold interpolateHeading.
  destruct (normalizeHeadingDiff_spec from to Hbig)
    as (diff & k & -> & Hlo & Hhi & _).
  eexists. split; [reflexivity|].
  destruct (rem_nonneg (from + diff * t + 360) 360) as (H0 & H360 & _);
    [nra|reflexivity|done].
Qed.

Lemma interpolateHeading_range_witness :
  exists r : Q,
    interpolateHeading 350 10 (1 # 2) = Some r /\ (0 <= r)%Q /\ (r < 360)%Q.
Proof.
  apply (interpolateHeading_range 350 10 (1 # 2)); by vm_compute.
Defined.



End Remainder.

(** ** Geometry: the closest waypoint *)

Section ClosestWaypoint.
Import GeoUtils.
Context `{JSMath}.






End ClosestWaypoint.


(** ** Route manager: the cursor *)

Section Cursor.
Context `{JSMath}.
Import RouteManager.

Lemma index_lookup {A} (array : list A) (i : Z) :
  0 <= i -> JS.index array i = array !! Z.to_nat i.
Proof. intros Hi. unfold JS.index. by destruct (Z.ltb_spec i 0); [lia|]. Qed.

Lemma index_is_Some {A} (array : list A) (i : Z) :
  is_Some (JS.index array i) <-> 0 <= i < Z.of_nat (length array).
Proof.
  unfold JS.index. destruct (Z.ltb_spec i 0).
  - split; [by intros [? ?]|lia].
  - rewrite lookup_lt_is_Some. lia.
Qed.

Lemma index_head {A} (array : list A) : JS.index array 0 = head array.
Proof. by destruct array. Qed.

Lemma index_last {A} (array : list A) :
  JS.index array (Z.of_nat (length array) - 1) = last array.
Proof.
  destruct array as [|x array] using rev_ind; [done|].
  rewrite last_snoc, index_lookup, length_app by (rewrite length_app; simpl; lia).
  simpl. replace (Z.to_nat _) with (length array) by lia.
  by rewrite lookup_app_r, Nat.sub_diag by lia.
Qed.

(** What [setRoute] makes of the waypoints. *)
Lemma setRoute_waypoints (points : list GeoPoint) (rm : state) :
  waypoints (setRoute points rm) =
    if Z.of_nat (length points) <? 2 then points
    else densify points ++ option_list (last points).
Proof.
  unfold setRoute, preprocessRoute, length_. simpl.
  by destruct (Z.of_nat (length points) <? 2).
Qed.

Lemma setRoute_currentIndex (points : list GeoPoint) (rm : state) :
  currentIndex (setRoute points rm) = 0.
Proof.
  unfold setRoute, preprocessRoute, length_. simpl.
  by destruct (Z.of_nat (length points) <? 2).
Qed.

Lemma cursorValid_zero (rm : state) : currentIndex rm = 0 -> cursorValid rm.
Proof. unfold cursorValid. lia. Qed.

Lemma advance_valid (rm : state) : cursorValid rm -> cursorValid (snd (advance rm)).
Proof.
  unfold cursorValid, advance.
  destruct (Z.ltb_spec (currentIndex rm) (length_ rm - 1)); simpl; [|done].
  rewrite length_set_currentIndex. lia.
Qed.

Lemma goBack_valid (rm : state) : cursorValid rm -> cursorValid (snd (goBack rm)).
Proof.
  unfold cursorValid, goBack.
  destruct (Z.ltb_spec 0 (currentIndex rm)); simpl; [|done].
  rewrite length_set_currentIndex. lia.
Qed.

Lemma jumpTo_valid (index : Z) (rm : state) :
  cursorValid rm -> cursorValid (snd (jumpTo index rm)).
Proof.
  intros Hrm.
  destruct (jumpTo_cases index rm) as [[Hin ->]|[_ ->]]; [|done].
  unfold cursorValid. simpl. rewrite length_set_currentIndex. lia.
Qed.

Lemma buildRoute_valid (rm : state) : cursorValid rm -> cursorValid (snd (buildRoute rm)).
Proof.
  intros Hrm. unfold buildRoute.
  destruct (startPoint rm), (endPoint rm); try done.
  apply cursorValid_zero, setRoute_currentIndex.
Qed.

Lemma applyOp_valid (rm : state) (op : routeOp) :
  cursorValid rm -> cursorValid (applyOp rm op).
Proof.
  intros Hrm. destruct op as [points| | | | | |index|percent| | |data]; simpl.
  - apply cursorValid_zero, setRoute_currentIndex.
  - done.
  - done.
  - by apply buildRoute_valid.
  - by apply advance_valid.
  - by apply goBack_valid.
  - by apply jumpTo_valid.
  - unfold jumpToPercent.
    destruct (Double.floor (percentProduct percent rm)); [|done].
    by apply jumpTo_valid.
  - by apply cursorValid_zero.
  - by apply cursorValid_zero.
  - unfold fromJSON. destruct (json_waypoints data); [|done].
    apply cursorValid_zero, setRoute_currentIndex.
Qed.

Lemma applyOps_valid (ops : list routeOp) (rm : state) :
  cursorValid rm -> cursorValid (applyOps ops rm).
Proof.
  revert rm. induction ops as [|op ops IH]; intros rm Hrm; [done|].
  simpl. apply IH. by apply applyOp_valid.
Qed.

Lemma getCurrentWaypoint_valid (rm : state) :
  cursorValid rm -> (getCurrentWaypoint rm = None <-> waypoints rm = []).
Proof.
  unfold cursorValid, getCurrentWaypoint, length_. intros Hrm.
  destruct (waypoints rm) as [|wp ws] eqn:Hws.
  - unfold JS.index. simpl. by repeat destruct (Z.ltb _ _).
  - split; [|done]. simpl length in *.
    destruct (Z.ltb_spec (currentIndex rm) (Z.of_nat (S (length ws)))); [|lia].
    intros Hnone.
    assert (Hsome : is_Some (JS.index (wp :: ws) (currentIndex rm))).
    { apply index_is_Some. simpl length. lia. }
    rewrite Hnone in Hsome. by destruct Hsome.
Qed.

(** X5: Whatever methods are called on a new route manager, in whatever
    order and with whatever arguments, its cursor is never negative and
    never beyond the last waypoint; so [getCurrentWaypoint] returns null
    only while the route has no waypoints. *)
Theorem route_cursor_always_valid (ops : list routeOp) :
  let rm := applyOps ops new in
  cursorValid rm /\
  (getCurrentWaypoint rm = None <-> waypoints rm = []).
Proof.
  intros rm.
  assert (Hrm : cursorValid rm) by (apply applyOps_valid; by apply cursorValid_zero).
  split; [done|]. by apply getCurrentWaypoint_valid.
Qed.

(** X6: [advance] and [goBack] undo each other: a successful step in one
    direction followed by a step in the other gives the route manager
    back as it was. *)
Theorem advance_goBack_round_trip (rm : state) :
  cursorValid rm ->
  (fst (advance rm) = true -> goBack (snd (advance rm)) = (true, rm)) /\
  (fst (goBack rm) = true -> advance (snd (goBack rm)) = (true, rm)).
Proof.
  unfold cursorValid. intros Hrm. split.
  - unfold advance.
    destruct (Z.ltb_spec (currentIndex rm) (length_ rm - 1)); [|done].
    intros _. simpl. unfold goBack. simpl.
    destruct (Z.ltb_spec 0 (currentIndex rm + 1)); [|lia].
    f_equal. destruct rm as [ws i sp ep td]. unfold set_currentIndex. simpl.
    f_equal. lia.
  - unfold goBack.
    destruct (Z.ltb_spec 0 (currentIndex rm)); [|done].
    intros _. simpl. unfold advance. simpl.
    rewrite length_set_currentIndex.
    destruct (Z.ltb_spec (currentIndex rm - 1) (length_ rm - 1)); [|lia].
    f_equal. destruct rm as [ws i sp ep td]. unfold set_currentIndex. simpl.
    f_equal. lia.
Qed.

(** X7: [advance] succeeds exactly when the route is not complete, which is
    exactly when there is a next waypoint; and the waypoint under the
    cursor after a successful [advance] is that next waypoint. *)
Theorem advance_iff_next_waypoint (rm : state) :
  0 <= currentIndex rm ->
  fst (advance rm) = negb (isComplete rm) /\
  (isComplete rm = true <-> getNextWaypoint rm = None) /\
  (fst (advance rm) = true ->
   is_Some (getNextWaypoint rm) /\
   getCurrentWaypoint (snd (advance rm)) = getNextWaypoint rm).
Proof.
  intros Hi. unfold advance, isComplete, getNextWaypoint, getCurrentWaypoint.
  destruct (Z.ltb_spec (currentIndex rm) (length_ rm - 1)) as [Hlt|Hge];
    destruct (Z.leb_spec (length_ rm - 1) (currentIndex rm)); try lia;
    destruct (Z.ltb_spec (currentIndex rm + 1) (length_ rm)); try lia; simpl.
  - split; [done|].
    assert (Hsome : is_Some (JS.index (waypoints rm) (currentIndex rm + 1))).
    { apply index_is_Some. unfold length_ in *. lia. }
    split.
    + split; [done|]. intros Hnone. rewrite Hnone in Hsome. by destruct Hsome.
    + intros _. split; [done|]. rewrite length_set_currentIndex.
      by destruct (Z.ltb_spec (currentIndex rm + 1) (length_ rm)); [|lia].
  - done.
Qed.

End Cursor.

Lemma advance_goBack_round_trip_witness :
  let rm := RouteManager.set_currentIndex 1
              (RouteManager.set_waypoints threePoints RouteManager.new) in
  RouteManager.goBack (snd (RouteManager.advance rm)) = (true, rm) /\
  RouteManager.advance (snd (RouteManager.goBack rm)) = (true, rm).
Proof.
  intros rm.
  destruct (advance_goBack_round_trip rm) as [Hforth Hback].
  - unfold cursorValid. subst rm. vm_compute. by split.
  - split; [by apply Hforth|by apply Hback].
Defined.

Lemma advance_iff_next_waypoint_witness :
  let rm := RouteManager.set_waypoints threePoints RouteManager.new in
  fst (RouteManager.advance rm) = negb (RouteManager.isComplete rm) /\
  is_Some (RouteManager.getNextWaypoint rm) /\
  RouteManager.getCurrentWaypoint (snd (RouteManager.advance rm)) =
    RouteManager.getNextWaypoint rm.
Proof.
  intros rm.
  destruct (advance_iff_next_waypoint rm) as (Hfst & _ & Hnext).
  - subst rm. simpl. lia.
  - split; [exact Hfst|]. by apply Hnext.
Defined.

(** ** Route manager: progress *)

Section Progress.
Import RouteManager.

Lemma progress_formula (rm : state) :
  1 < length_ rm ->
  getProgress rm =
    (inject_Z (currentIndex rm) / inject_Z (length_ rm - 1) * 100)%Q.
Proof.
  intros Hlen. unfold getProgress.
  by destruct (Z.leb_spec (length_ rm) 1); [lia|].
Qed.

Lemma progress_scale (i n : Z) :
  0 < n ->
  (inject_Z i / inject_Z n * 100 == inject_Z i * (100 / inject_Z n))%Q /\
  (0 < 100 / inject_Z n)%Q.
Proof.
  intros Hn.
  assert (Hpos : (0 < inject_Z n)%Q) by by apply inject_Z_pos.
  split.
  - field. intros E. rewrite E in Hpos. by apply Qlt_irrefl in Hpos.
  - apply Qlt_shift_div_l; [done|]. by rewrite Qmult_0_l.
Qed.

(** X8: On a cursor that is on a waypoint, [getProgress] is between 0 and
    100; on a route of two or more waypoints it is 0 exactly at the first
    waypoint and 100 exactly when the route is complete, and a successful
    [advance] increases it; a route of one waypoint is complete at
    progress 0. *)
Theorem getProgress_range (rm : state) :
  cursorInRange rm ->
  (0 <= getProgress rm)%Q /\ (getProgress rm <= 100)%Q /\
  (hasRoute rm = true ->
   ((getProgress rm == 0)%Q <-> currentIndex rm = 0) /\
   ((getProgress rm == 100)%Q <-> isComplete rm = true)) /\
  (hasRoute rm = false -> getProgress rm = 0%Q /\ isComplete rm = true) /\
  (fst (advance rm) = true ->
   (getProgress rm < getProgress (snd (advance rm)))%Q).
Proof.
  unfold cursorInRange, hasRoute, isComplete, advance. intros [Hlo Hhi].
  destruct (Z.ltb_spec 1 (length_ rm)) as [Hlen|Hlen].
  - rewrite (progress_formula rm Hlen).
    destruct (progress_scale (currentIndex rm) (length_ rm - 1)) as [Heq Hpos];
      [lia|].
    set (c := (100 / inject_Z (length_ rm - 1))%Q) in *.
    assert (Hfull : (inject_Z (length_ rm - 1) * c == 100)%Q).
    { unfold c. field. intros E.
      assert (Hn : (0 < inject_Z (length_ rm - 1))%Q) by (apply inject_Z_pos; lia).
      rewrite E in Hn. by apply Qlt_irrefl in Hn. }
    assert (Hi0 : (0 <= inject_Z (currentIndex rm))%Q).
    { change 0%Q with (inject_Z 0). by rewrite <- Zle_Qle. }
    assert (Hi1 : (inject_Z (currentIndex rm) <= inject_Z (length_ rm - 1))%Q).
    { by rewrite <- Zle_Qle. }
    split; [rewrite Heq; nra|]. split; [rewrite Heq; nra|].
    split; [|split; [done|]].
    + intros _. split.
      * rewrite Heq. split.
        -- intros Hz. destruct (Z.eq_dec (currentIndex rm) 0) as [|Hne]; [done|].
           assert (Hone : (inject_Z 1 <= inject_Z (currentIndex rm))%Q)
             by (rewrite <- Zle_Qle; lia).
           change (inject_Z 1) with 1%Q in Hone. nra.
        -- intros ->. change (inject_Z 0) with 0%Q. ring.
      * rewrite Heq. destruct (Z.leb_spec (length_ rm - 1) (currentIndex rm)).
        -- split; [done|]. intros _.
           replace (currentIndex rm) with (length_ rm - 1) by lia. exact Hfull.
        -- split; [|done]. intros Hz.
           assert (Hone : (inject_Z (currentIndex rm) + 1 <= inject_Z (length_ rm - 1))%Q).
           { change 1%Q with (inject_Z 1). rewrite <- inject_Z_plus, <- Zle_Qle. lia. }
           nra.
    + destruct (Z.ltb_spec (currentIndex rm) (length_ rm - 1)); [|done].
      intros _. simpl.
      rewrite progress_formula by (rewrite length_set_currentIndex; lia).
      rewrite length_set_currentIndex. simpl.
      destruct (progress_scale (currentIndex rm + 1) (length_ rm - 1)) as [Heq' _];
        [lia|].
      fold c in Heq'. rewrite Heq, Heq', inject_Z_plus.
      change (inject_Z 1) with 1%Q. nra.
  - unfold getProgress. destruct (Z.leb_spec (length_ rm) 1); [|lia].
    split; [done|]. split; [done|]. split; [done|]. split.
    + intros _. split; [done|]. by destruct (Z.leb_spec (length_ rm - 1) (currentIndex rm)); [|lia].
    + by destruct (Z.ltb_spec (currentIndex rm) (length_ rm - 1)); [lia|].
Qed.

End Progress.

Lemma getProgress_range_witness :
  let rm := RouteManager.set_currentIndex 1
              (RouteManager.set_waypoints threePoints RouteManager.new) in
  (0 <= RouteManager.getProgress rm)%Q /\
  (RouteManager.getProgress rm <= 100)%Q /\
  (RouteManager.getProgress rm <
   RouteManager.getProgress (snd (RouteManager.advance rm)))%Q.
Proof.
  intros rm.
  destruct (getProgress_range rm) as (Hlo & Hhi & _ & _ & Hup).
  - unfold cursorInRange. subst rm. vm_compute. by split.
  - split; [exact Hlo|]. split; [exact Hhi|]. by apply Hup.
Defined.

(** ** Route manager: densification of any route *)

Section DensifyAll.
Context `{JSMath}.
Import RouteManager.

Lemma densify_sublist (ws : list GeoPoint) :
  ws `sublist_of` densify ws ++ option_list (last ws).
Proof.
  induction ws as [|a [|b rest] IH]; [done|done|].
  change (densify (a :: b :: rest))
    with (a :: intermediates a b ++ densify (b :: rest)).
  change (last (a :: b :: rest)) with (last (b :: rest)).
  rewrite <- app_comm_cons, <- app_assoc.
  apply sublist_skip. by apply sublist_inserts_l.
Qed.

Lemma densify_head (a b : GeoPoint) (rest : list GeoPoint) :
  head (densify (a :: b :: rest)) = Some a.
Proof. done. Qed.

Lemma densified_last (ws : list GeoPoint) :
  last (densify ws ++ option_list (last ws)) = last ws.
Proof.
  destruct (last ws) as [z|] eqn:Hlast; simpl.
  - by rewrite last_snoc.
  - apply last_None in Hlast. by subst ws.
Qed.

Lemma densify_length (ws : list GeoPoint) :
  (length ws <= length (densify ws ++ option_list (last ws)))%nat.
Proof. apply sublist_length, densify_sublist. Qed.

Lemma setRoute_totalDistance (points : list GeoPoint) (rm : state) :
  totalDistance (setRoute points rm) =
    GeoUtils.calculateRouteDistance (waypoints (setRoute points rm)).
Proof. reflexivity. Qed.

Lemma setRoute_props (points : list GeoPoint) (rm : state) :
  let rm' := setRoute points rm in
  points `sublist_of` waypoints rm' /\
  head (waypoints rm') = head points /\
  last (waypoints rm') = last points /\
  currentIndex rm' = 0 /\
  totalDistance rm' = GeoUtils.calculateRouteDistance (waypoints rm') /\
  startPoint rm' = match points with [] => startPoint rm | _ => head points end /\
  endPoint rm' = match points with [] => endPoint rm | _ => last points end.
Proof.
  intros rm'. subst rm'.
  split; [|split; [|split; [|split; [|split; [|split]]]]].
  - rewrite setRoute_waypoints.
    destruct (Z.of_nat (length points) <? 2); [done|apply densify_sublist].
  - rewrite setRoute_waypoints.
    destruct (Z.ltb_spec (Z.of_nat (length points)) 2); [done|].
    destruct points as [|a [|b rest]]; simpl in *; try lia. done.
  - rewrite setRoute_waypoints.
    destruct (Z.of_nat (length points) <? 2); [done|apply densified_last].
  - apply setRoute_currentIndex.
  - apply setRoute_totalDistance.
  - unfold setRoute, preprocessRoute, length_. simpl.
    destruct (Z.of_nat (length points) <? 2); simpl;
      destruct points as [|a rest]; try done.
  - unfold setRoute, preprocessRoute, length_. simpl.
    destruct (Z.of_nat (length points) <? 2); simpl;
      (destruct points as [|a rest]; [done|]);
      rewrite <- (index_last (a :: rest)); simpl length;
      by destruct (Z.ltb_spec 0 (Z.of_nat (S (length rest)))); [|lia].
Qed.

(** X9: What [setRoute] does with any list of points: every given point is
    kept, in the given order (points are only inserted between them, and
    none when fewer than two points are given), the
    route starts and ends where the list does, the cursor is at the
    start, the total distance is that of the densified route, and the
    start and end points are the first and last given points; with an
    empty list the start and end points stay what they were. *)
Theorem setRoute_keeps_points (points : list GeoPoint) (rm : state) :
  let rm' := setRoute points rm in
  points `sublist_of` waypoints rm' /\
  (length points <= length (waypoints rm'))%nat /\
  ((length points < 2)%nat -> waypoints rm' = points) /\
  head (waypoints rm') = head points /\
  last (waypoints rm') = last points /\
  currentIndex rm' = 0 /\
  totalDistance rm' = GeoUtils.calculateRouteDistance (waypoints rm') /\
  startPoint rm' = match points with [] => startPoint rm | _ => head points end /\
  endPoint rm' = match points with [] => endPoint rm | _ => last points end.
Proof.
  intros rm'. subst rm'.
  destruct (setRoute_props points rm) as (Hsub & Hrest).
  split; [done|]. split; [by apply sublist_length|]. split; [|done].
  intros Hfew. rewrite setRoute_waypoints.
  by destruct (Z.ltb_spec (Z.of_nat (length points)) 2); [|lia].
Qed.

Lemma intermediates_short (a b : GeoPoint) :
  (GeoUtils.calculateDistance a b <= targetSpacing)%Q -> intermediates a b = [].
Proof.
  intros Hd. unfold intermediates. apply Qle_bool_iff in Hd. by rewrite Hd.
Qed.

Lemma shortSegments_tail (a : GeoPoint) (ws : list GeoPoint) :
  shortSegments (a :: ws) -> shortSegments ws.
Proof. intros Hshort i x y Hx Hy. by apply (Hshort (S i) x y). Qed.

Lemma densify_short (ws : list GeoPoint) :
  shortSegments ws -> densify ws ++ option_list (last ws) = ws.
Proof.
  induction ws as [|a [|b rest] IH]; intros Hshort; [done|done|].
  change (densify (a :: b :: rest))
    with (a :: intermediates a b ++ densify (b :: rest)).
  change (last (a :: b :: rest)) with (last (b :: rest)).
  rewrite (intermediates_short a b) by (by apply (Hshort 0%nat a b)).
  cbn [app]. f_equal.
  apply IH. by apply shortSegments_tail in Hshort.
Qed.

Lemma setRoute_short (points : list GeoPoint) (rm : state) :
  shortSegments points -> waypoints (setRoute points rm) = points.
Proof.
  intros Hshort. rewrite setRoute_waypoints.
  destruct (Z.of_nat (length points) <? 2); [done|by apply densify_short].
Qed.

(** X10: A route whose consecutive waypoints are all within the target
    spacing survives an export and import: [fromJSON] of its [toJSON],
    into any route manager, has the same waypoints, nothing inserted.
    The cursor is back at the start, and the total distance and the
    start and end points are computed again from the waypoints, not read
    from the exported object. *)
Theorem fromJSON_toJSON_round_trip (rm0 rm : state) :
  shortSegments (waypoints rm0) ->
  let rm' := fromJSON (toJSON rm0) rm in
  waypoints rm' = waypoints rm0 /\
  currentIndex rm' = 0 /\
  totalDistance rm' = GeoUtils.calculateRouteDistance (waypoints rm0) /\
  startPoint rm' =
    match waypoints rm0 with [] => startPoint rm | _ => head (waypoints rm0) end /\
  endPoint rm' =
    match waypoints rm0 with [] => endPoint rm | _ => last (waypoints rm0) end.
Proof.
  intros Hshort rm'. subst rm'.
  change (fromJSON (toJSON rm0) rm) with (setRoute (waypoints rm0) rm).
  destruct (setRoute_props (waypoints rm0) rm)
    as (_ & _ & _ & Hidx & Hdist & Hstart & Hend).
  split; [by apply setRoute_short|]. split; [done|].
  split; [by rewrite Hdist, setRoute_short|]. by split.
Qed.

End DensifyAll.

Lemma fromJSON_toJSON_round_trip_witness :
  let rm0 := RouteManager.set_waypoints [mkPoint 0 0; mkPoint 0 0.0001]
               RouteManager.new in
  RouteManager.waypoints
    (RouteManager.fromJSON (H := flatMath) (RouteManager.toJSON rm0) RouteManager.new) =
  RouteManager.waypoints rm0.
Proof.
  intros rm0.
  apply (fromJSON_toJSON_round_trip (H := flatMath) rm0 RouteManager.new).
  intros [|[|i]] a b Ha Hb; try discriminate.
  injection Ha as <-. injection Hb as <-. by vm_compute.
Defined.

(** ** Route manager: distances *)

Section Distances.
Context `{JSMath}.
Import RouteManager.

Lemma traveled_from_start (traveled : Q) (i currentIndex : Z) (ws : list GeoPoint) :
  currentIndex <= i -> traveled_from traveled i currentIndex ws = traveled.
Proof.
  intros Hle. destruct ws as [|a [|b rest]]; try done. simpl.
  by destruct (Z.ltb_spec i currentIndex); [lia|].
Qed.


(** One more round of the loop adds the length of the segment at the
    cursor. *)
Lemma traveled_from_step (traveled : Q) (i : Z) (n : nat) (ws : list GeoPoint)
    (a b : GeoPoint) :
  ws !! n = Some a -> ws !! S n = Some b ->
  traveled_from traveled i (i + Z.of_nat n + 1) ws =
    (traveled_from traveled i (i + Z.of_nat n) ws + GeoUtils.calculateDistance a b)%Q.
Proof.
  revert traveled i ws.
  induction n as [|n IH]; intros traveled i ws Ha Hb.
  - destruct ws as [|a' [|b' rest]]; try discriminate.
    injection Ha as ->. injection Hb as ->.
    change (traveled_from traveled i (i + Z.of_nat 0 + 1) (a :: b :: rest))
      with (if i <? i + Z.of_nat 0 + 1
            then traveled_from (traveled + GeoUtils.calculateDistance a b)%Q
                   (i + 1) (i + Z.of_nat 0 + 1) (b :: rest)
            else traveled).
    destruct (Z.ltb_spec i (i + Z.of_nat 0 + 1)); [|lia].
    rewrite !traveled_from_start by lia. done.
  - destruct ws as [|a' [|b' rest]]; try discriminate.
    change (traveled_from traveled i (i + Z.of_nat (S n) + 1) (a' :: b' :: rest))
      with (if i <? i + Z.of_nat (S n) + 1
            then traveled_from (traveled + GeoUtils.calculateDistance a' b')%Q
                   (i + 1) (i + Z.of_nat (S n) + 1) (b' :: rest)
            else traveled).
    change (traveled_from traveled i (i + Z.of_nat (S n)) (a' :: b' :: rest))
      with (if i <? i + Z.of_nat (S n)
            then traveled_from (traveled + GeoUtils.calculateDistance a' b')%Q
                   (i + 1) (i + Z.of_nat (S n)) (b' :: rest)
            else traveled).
    destruct (Z.ltb_spec i (i + Z.of_nat (S n) + 1)); [|lia].
    destruct (Z.ltb_spec i (i + Z.of_nat (S n))); [|lia].
    replace (i + Z.of_nat (S n) + 1) with (i + 1 + Z.of_nat n + 1) by lia.
    replace (i + Z.of_nat (S n)) with (i + 1 + Z.of_nat n) by lia.
    by apply IH.
Qed.


(** X12: A successful [advance] adds to the distance traveled exactly the
    length of the segment from the waypoint left to the waypoint
    reached. *)
Theorem advance_adds_segment (rm : state) (current next : GeoPoint) :
  0 <= currentIndex rm ->
  getCurrentWaypoint rm = Some current ->
  getNextWaypoint rm = Some next ->
  fst (advance rm) = true /\
  getDistanceTraveled (snd (advance rm)) =
    (getDistanceTraveled rm + GeoUtils.calculateDistance current next)%Q.
Proof.
  unfold getCurrentWaypoint, getNextWaypoint, advance. intros Hi Hcur Hnext.
  destruct (Z.ltb_spec (currentIndex rm + 1) (length_ rm)); [|done].
  destruct (Z.ltb_spec (currentIndex rm) (length_ rm)); [|lia].
  destruct (Z.ltb_spec (currentIndex rm) (length_ rm - 1)); [|lia].
  split; [done|]. simpl. unfold getDistanceTraveled. simpl.
  rewrite index_lookup in Hcur, Hnext by lia.
  replace (Z.to_nat (currentIndex rm + 1)) with (S (Z.to_nat (currentIndex rm)))
    in Hnext by lia.
  pose proof (traveled_from_step 0 0 _ _ _ _ Hcur Hnext) as Hstep.
  rewrite Z2Nat.id in Hstep by done. exact Hstep.
Qed.

(** X13: [buildRoute] fails, changing nothing, exactly when the start point
    or the end point is missing; otherwise it makes a route that starts
    at the start point and ends at the end point, with the cursor at the
    start. *)
Theorem buildRoute_cases (rm : state) :
  match startPoint rm, endPoint rm with
  | Some s, Some e =>
      fst (buildRoute rm) = true /\
      head (waypoints (snd (buildRoute rm))) = Some s /\
      last (waypoints (snd (buildRoute rm))) = Some e /\
      currentIndex (snd (buildRoute rm)) = 0 /\
      startPoint (snd (buildRoute rm)) = Some s /\
      endPoint (snd (buildRoute rm)) = Some e /\
      hasRoute (snd (buildRoute rm)) = true
  | _, _ => buildRoute rm = (false, rm)
  end.
Proof.
  unfold buildRoute.
  destruct (startPoint rm) as [s|], (endPoint rm) as [e|]; try done.
  simpl fst. simpl snd.
  destruct (setRoute_props [s; e] rm) as (Hsub & Hhead & Hlast & Hidx & _ & Hs & He).
  split; [done|]. split; [done|]. split; [done|]. split; [done|].
  split; [done|]. split; [done|].
  pose proof (sublist_length _ _ Hsub) as Hlen.
  change (length [s; e]) with 2%nat in Hlen. unfold hasRoute, length_.
  by destruct (Z.ltb_spec 1 (Z.of_nat (length (waypoints (setRoute [s; e] rm)))));
    [|lia].
Qed.

End Distances.

Section Lookup.
Import RouteManager.

(** X14: [jumpTo] accepts exactly the indexes at which [getWaypoint] returns
    a waypoint, and after an accepted jump [getCurrentWaypoint] returns
    that waypoint. *)
Theorem jumpTo_getWaypoint (rm : state) (index : Z) :
  (fst (jumpTo index rm) = true <-> is_Some (getWaypoint index rm)) /\
  (fst (jumpTo index rm) = true ->
   getCurrentWaypoint (snd (jumpTo index rm)) = getWaypoint index rm).
Proof.
  unfold jumpTo, getWaypoint, getCurrentWaypoint.
  destruct (Z.leb_spec 0 index) as [H0|H0]; simpl.
  - destruct (Z.ltb_spec index (length_ rm)) as [H1|H1]; simpl.
    + rewrite length_set_currentIndex.
      destruct (Z.ltb_spec index (length_ rm)); [|lia].
      split; [|done]. split; [|done]. intros _.
      apply index_is_Some. unfold length_ in H1. lia.
    + split; [|done]. split; [done|]. by intros [? ?].
  - split; [|done]. split; [done|]. by intros [? ?].
Qed.

End Lookup.

Lemma advance_adds_segment_witness :
  let rm := RouteManager.set_waypoints threePoints RouteManager.new in
  RouteManager.getDistanceTraveled (H := flatMath) (snd (RouteManager.advance rm)) =
    (RouteManager.getDistanceTraveled (H := flatMath) rm +
     GeoUtils.calculateDistance (H := flatMath) (mkPoint 0 0) (mkPoint 0 0.001))%Q.
Proof.
  intros rm.
  apply (advance_adds_segment (H := flatMath) rm (mkPoint 0 0) (mkPoint 0 0.001));
    by vm_compute.
Defined.

Lemma jumpTo_getWaypoint_witness :
  let rm := RouteManager.set_waypoints threePoints RouteManager.new in
  RouteManager.getCurrentWaypoint (snd (RouteManager.jumpTo 2 rm)) =
    RouteManager.getWaypoint 2 rm.
Proof.
  intros rm. by apply (jumpTo_getWaypoint rm 2).
Defined.

(** ** Cache manager: what holds in every run *)

Section CacheAlways.
Import CacheManager.

Lemma add_NoDup (key : string) (set : list string) : NoDup set -> NoDup (add key set).
Proof.
  intros Hset. unfold add. destruct (has key set) eqn:E; [done|].
  apply has_false in E. apply NoDup_app. split; [done|]. split.
  - by intros x Hx ->%list_elem_of_singleton.
  - apply NoDup_singleton.
Qed.

Lemma delete_NoDup (key : string) (set : list string) :
  NoDup set -> NoDup (delete key set).
Proof. apply NoDup_filter. Qed.

Lemma trimCache_cacheAhead (m : state) : cacheAhead (trimCache m) = cacheAhead m.
Proof. unfold trimCache. by destruct (_ <? _). Qed.

Lemma trimCache_bounded (m : state) :
  NoDup (cached m) -> 0 <= maxCacheSize m ->
  NoDup (cached (trimCache m)) /\
  Z.of_nat (length (cached (trimCache m))) <= maxCacheSize m.
Proof.
  intros Hnd Hmax. rewrite trimCache_newest by done. unfold newest. split.
  - eapply sublist_NoDup; [exact Hnd|apply sublist_drop].
  - rewrite length_drop. lia.
Qed.

(** The end of a fetch sequence, with or without an insertion before
    it, leaves the manager within its bounds. *)
Lemma finish_withinBounds (key : string) (m : state) :
  NoDup (cached m) -> NoDup (loading m) -> maxCacheSize m = 50 ->
  1 <= cacheAhead m <= 20 ->
  withinBounds (trimCache (finallyBlock key m)).
Proof.
  intros Hc Hl Hmax Hahead.
  destruct (trimCache_bounded (finallyBlock key m)) as [Hnd Hlen];
    [done|simpl; lia|].
  unfold withinBounds.
  rewrite trimCache_loading, trimCache_maxCacheSize, trimCache_cacheAhead.
  split; [done|]. split; [by apply delete_NoDup|]. split; [done|]. by split.
Qed.

Lemma visit_withinBounds (s : sys) (point : GeoPoint) :
  withinBounds (mgr s) -> withinBounds (mgr (visit s point)).
Proof.
  intros (Hc & Hl & Hlen & Hmax & Hahead).
  destruct (visit_cases s point) as [[-> _]|(-> & Hnc & Hnl)]; [done|].
  unfold withinBounds. simpl. split; [done|]. split; [|done].
  apply NoDup_app. split; [done|]. split; [|apply NoDup_singleton].
  by intros x Hx ->%list_elem_of_singleton.
Qed.

Lemma foldl_visit_withinBounds (upcoming : list GeoPoint) (s : sys) :
  withinBounds (mgr s) -> withinBounds (mgr (foldl visit s upcoming)).
Proof.
  revert s. induction upcoming as [|point upcoming IH]; intros s Hs; [done|].
  simpl. apply IH. by apply visit_withinBounds.
Qed.

Lemma step_withinBounds (s : sys) (e : event) :
  withinBounds (mgr s) -> withinBounds (mgr (step s e)).
Proof.
  intros Hs. destruct e as [ws i|point|i o|url|count|]; simpl.
  - rewrite precacheRoute_visit. by apply foldl_visit_withinBounds.
  - rewrite precachePoint_call_visit. by apply visit_withinBounds.
  - destruct (tasks s !! i) as [t|]; [|done].
    destruct Hs as (Hc & Hl & Hlen & Hmax & Hahead).
    unfold precachePoint_resume.
    destruct (task_pc t), o as [panoId|]; simpl;
      try (by apply finish_withinBounds).
    + destruct (truthy panoId); simpl; [done|by apply finish_withinBounds].
    + apply finish_withinBounds; simpl; try done. by apply add_NoDup.
  - done.
  - destruct Hs as (Hc & Hl & Hlen & Hmax & Hahead).
    unfold withinBounds. simpl. repeat split; try done; lia.
  - destruct Hs as (Hc & Hl & Hlen & Hmax & Hahead).
    unfold withinBounds. simpl. repeat split; try done; try apply NoDup_nil_2; lia.
Qed.

Lemma init_withinBounds : withinBounds (mgr init).
Proof. unfold withinBounds. simpl. repeat split; try apply NoDup_nil_2; lia. Qed.

Lemma run_withinBounds (events : list event) (s : sys) :
  withinBounds (mgr s) -> withinBounds (mgr (run events s)).
Proof.
  revert s. induction events as [|e events IH]; intros s Hs; [done|].
  simpl. apply IH. by apply step_withinBounds.
Qed.

(** X15: Whatever happens to a new cache manager, in whatever order, its
    cached set and its loading set have no duplicates, the cached set
    never holds more than 50 keys, and the look-ahead stays between 1
    and 20. *)
Theorem cache_always_within_bounds (events : list event) :
  let m := mgr (run events init) in
  withinBounds m /\
  cachedPoints (getStats m) <= 50 /\
  cacheAhead m <= 20.
Proof.
  intros m.
  assert (Hm : withinBounds m) by apply run_withinBounds, init_withinBounds.
  split; [done|]. destruct Hm as (_ & _ & Hlen & Hmax & Hahead).
  simpl. lia.
Qed.

(** *** Loading marks *)

Lemma elem_of_list_delete {A} (l : list A) (i : nat) (x y : A) :
  l !! i = Some y -> x ∈ l -> x = y \/ x ∈ base.delete i l.
Proof.
  intros Hi Hx. rewrite delete_take_drop.
  rewrite <- (take_drop_middle l i y Hi) in Hx.
  rewrite elem_of_app, elem_of_cons in Hx. rewrite elem_of_app. tauto.
Qed.

Lemma visit_marksHaveFetches (s : sys) (point : GeoPoint) :
  marksHaveFetches s -> marksHaveFetches (visit s point).
Proof.
  intros Hs.
  destruct (visit_cases s point) as [[-> _]|(-> & _ & _)]; [done|].
  intros key. simpl. rewrite elem_of_app, list_elem_of_singleton.
  intros [Hold| ->].
  - destruct (Hs key Hold) as (t & Ht & Hk).
    exists t. split; [|done]. apply elem_of_app. by left.
  - eexists. split; [apply elem_of_app; right; by apply list_elem_of_singleton|done].
Qed.

Lemma foldl_visit_marksHaveFetches (upcoming : list GeoPoint) (s : sys) :
  marksHaveFetches s -> marksHaveFetches (foldl visit s upcoming).
Proof.
  revert s. induction upcoming as [|point upcoming IH]; intros s Hs; [done|].
  simpl. apply IH. by apply visit_marksHaveFetches.
Qed.

Lemma finish_marksHaveFetches (s : sys) (i : nat) (t : task) (m : state) :
  marksHaveFetches s ->
  tasks s !! i = Some t ->
  loading m = delete (task_key t) (loading (mgr s)) ->
  marksHaveFetches {| mgr := m; tasks := base.delete i (tasks s) |}.
Proof.
  intros Hs Hi Hm key. simpl. rewrite Hm, elem_of_delete. intros [Hne Hin].
  destruct (Hs key Hin) as (t0 & Ht0 & Hk).
  exists t0. split; [|done].
  destruct (elem_of_list_delete _ _ _ _ Hi Ht0) as [->|]; [done|done].
Qed.

Lemma step_marksHaveFetches (s : sys) (e : event) :
  marksHaveFetches s -> marksHaveFetches (step s e).
Proof.
  intros Hs. destruct e as [ws i|point|i o|url|count|]; simpl; try done.
  - rewrite precacheRoute_visit. by apply foldl_visit_marksHaveFetches.
  - rewrite precachePoint_call_visit. by apply visit_marksHaveFetches.
  - destruct (tasks s !! i) as [t|] eqn:Ei; [|done].
    unfold precachePoint_resume.
    assert (Hfin : forall m, loading m = delete (task_key t) (loading (mgr s)) ->
              marksHaveFetches {| mgr := m; tasks := base.delete i (tasks s) |}).
    { intros m Hm. by apply (finish_marksHaveFetches s i t m). }
    destruct (task_pc t), o as [panoId|]; simpl;
      try (apply Hfin; by rewrite trimCache_loading).
    destruct (truthy panoId); simpl; [|apply Hfin; by rewrite trimCache_loading].
    intros key Hin. destruct (Hs key Hin) as (t0 & Ht0 & Hk).
    apply list_elem_of_lookup in Ht0 as [j Hj].
    destruct (decide (j = i)) as [->|Hji].
    + eexists. split.
      * apply list_elem_of_lookup. exists i.
        apply list_lookup_insert_eq. by eapply lookup_lt_Some.
      * simpl. congruence.
    + exists t0. split; [|done]. apply list_elem_of_lookup. exists j.
      simpl. by rewrite list_lookup_insert_ne.
  - intros key Hin. inversion Hin.
Qed.

Lemma run_marksHaveFetches (events : list event) (s : sys) :
  marksHaveFetches s -> marksHaveFetches (run events s).
Proof.
  revert s. induction events as [|e events IH]; intros s Hs; [done|].
  simpl. apply IH. by apply step_marksHaveFetches.
Qed.

Lemma init_marksHaveFetches : marksHaveFetches init.
Proof. intros key Hin. inversion Hin. Qed.

(** X16: In every run of a new cache manager, every key marked as loading has
    a fetch sequence in flight, so that no mark is ever left behind: when
    no fetch is in flight the loading set is empty.  As long as [clear]
    is not called, [getStats().loading] is the number of fetch sequences
    in flight. *)
Theorem loading_marks_have_fetches (events : list event) :
  let s := run events init in
  marksHaveFetches s /\
  (tasks s = [] -> loading (mgr s) = []) /\
  (Clear ∉ events ->
   loadingPoints (getStats (mgr s)) = Z.of_nat (length (tasks s))).
Proof.
  intros s.
  assert (Hs : marksHaveFetches s) by apply run_marksHaveFetches, init_marksHaveFetches.
  split; [done|]. split.
  - intros Hnone. destruct (loading (mgr s)) as [|key l] eqn:Hl; [done|].
    destruct (Hs key) as (t & Ht & _); [rewrite Hl; by left|].
    rewrite Hnone in Ht. inversion Ht.
  - intros Hclear.
    destruct (run_oneFetchPerKey events init Hclear init_oneFetchPerKey)
      as [Hnd Hin].
    destruct (run_withinBounds events init init_withinBounds) as (_ & Hl & _).
    fold s in Hnd, Hin, Hl. simpl. f_equal.
    rewrite <- (length_fmap task_key (tasks s)).
    apply Permutation_length, NoDup_Permutation; [done|done|].
    intros key. split.
    + intros Hkey. destruct (Hs key Hkey) as (t & Ht & <-).
      apply list_elem_of_fmap. by exists t.
    + intros (t & -> & Ht)%list_elem_of_fmap. by apply Hin.
Qed.

End CacheAlways.

Lemma loading_marks_have_fetches_witness :
  let events := [CacheManager.PrecacheRoute threePoints 0;
                 CacheManager.Resume 0 CacheManager.Rejected] in
  let s := CacheManager.run events CacheManager.init in
  CacheManager.loadingPoints (CacheManager.getStats (CacheManager.mgr s)) =
    Z.of_nat (length (CacheManager.tasks s)).
Proof.
  intros events s.
  destruct (loading_marks_have_fetches events) as (_ & _ & Hcount).
  apply Hcount. subst events.
  intros [Hin|[Hin|Hin]%elem_of_cons]%elem_of_cons;
    [discriminate|discriminate|inversion Hin].
Defined.

(** ** Cache manager: how a fetch sequence ends *)

Section FetchOutcome.
Import CacheManager.

Lemma visit_keyed (s : sys) (point : GeoPoint) : keyed s -> keyed (visit s point).
Proof.
  intros Hs.
  destruct (visit_cases s point) as [[-> _]|(-> & _ & _)]; [done|].
  intros t. simpl. rewrite elem_of_app, list_elem_of_singleton.
  intros [Hold| ->]; [by apply Hs|done].
Qed.

Lemma foldl_visit_keyed (upcoming : list GeoPoint) (s : sys) :
  keyed s -> keyed (foldl visit s upcoming).
Proof.
  revert s. induction upcoming as [|point upcoming IH]; intros s Hs; [done|].
  simpl. apply IH. by apply visit_keyed.
Qed.

Lemma delete_keyed (s : sys) (i : nat) (m : state) :
  keyed s -> keyed {| mgr := m; tasks := base.delete i (tasks s) |}.
Proof.
  intros Hs t Ht. apply Hs. simpl in Ht.
  eapply elem_of_sublist; [exact Ht|apply sublist_delete].
Qed.

Lemma step_keyed (s : sys) (e : event) : keyed s -> keyed (step s e).
Proof.
  intros Hs. destruct e as [ws i|point|i o|url|count|]; simpl; try done.
  - rewrite precacheRoute_visit. by apply foldl_visit_keyed.
  - rewrite precachePoint_call_visit. by apply visit_keyed.
  - destruct (tasks s !! i) as [t|] eqn:Ei; [|done].
    unfold precachePoint_resume.
    destruct (task_pc t), o as [panoId|]; simpl; try (by apply delete_keyed).
    destruct (truthy panoId); simpl; [|by apply delete_keyed].
    intros t' Ht'. apply list_elem_of_lookup in Ht' as [j Hj]. simpl in Hj.
    destruct (decide (j = i)) as [->|Hji].
    + rewrite list_lookup_insert_eq in Hj by (by eapply lookup_lt_Some).
      injection Hj as <-. simpl. apply Hs. apply list_elem_of_lookup. eauto.
    + rewrite list_lookup_insert_ne in Hj by done.
      apply Hs. apply list_elem_of_lookup. eauto.
Qed.

Lemma run_keyed (events : list event) (s : sys) : keyed s -> keyed (run events s).
Proof.
  revert s. induction events as [|e events IH]; intros s Hs; [done|].
  simpl. apply IH. by apply step_keyed.
Qed.

Lemma init_keyed : keyed init.
Proof. intros t Ht. inversion Ht. Qed.

(** The key just inserted survives the trimming that follows. *)
Lemma inserted_survives (key : string) (m : state) :
  withinBounds m ->
  key ∈ cached (trimCache (finallyBlock key (set_cached (add key (cached m)) m))).
Proof.
  intros (Hc & Hl & Hlen & Hmax & Hahead).
  rewrite trimCache_newest by (simpl; by apply add_NoDup).
  unfold newest. simpl. rewrite Hmax in *.
  unfold add. destruct (has key (cached m)) eqn:E.
  - apply has_true in E.
    by replace (Z.to_nat (Z.of_nat (length (cached m)) - 50)) with 0%nat by lia.
  - rewrite drop_app_le by (rewrite length_app; simpl; lia).
    apply elem_of_app. right. by apply list_elem_of_singleton.
Qed.

Lemma fetch_failed (s : sys) (i : nat) (t : task) :
  withinBounds (mgr s) ->
  task_key t = getPointKey (task_point t) ->
  let s' := {| mgr := trimCache (finallyBlock (task_key t) (mgr s));
               tasks := base.delete i (tasks s) |} in
  cached (mgr s') = cached (mgr s) /\
  (task_key t ∉ loading (mgr s')) /\
  tasks s' = base.delete i (tasks s) /\
  (isCached (task_point t) (mgr s') = false ->
   tasks (precachePoint_call (task_point t) s') = tasks s' ++ [fetchOf (task_point t)]).
Proof.
  intros Hb Hk s'. subst s'. cbn [mgr tasks].
  rewrite trimCache_within by (simpl; by destruct Hb as (_ & _ & ? & _)).
  assert (Hnot : task_key t ∉ delete (task_key t) (loading (mgr s))).
  { rewrite elem_of_delete. by intros [? _]. }
  split; [done|]. split; [done|]. split; [done|].
  unfold isCached, precachePoint_call. cbn [mgr tasks]. intros ->.
  rewrite <- Hk. apply has_false in Hnot.
  change (loading (finallyBlock (task_key t) (mgr s)))
    with (delete (task_key t) (loading (mgr s))).
  rewrite Hnot. cbn [orb tasks]. unfold fetchOf. by rewrite <- Hk.
Qed.

(** X17: What resuming a fetch sequence in flight does, in every state a new
    cache manager can reach.  When the panorama has been fetched the
    point is cached and its loading mark is gone.  When a promise is
    rejected, or no panorama id is found, the cached set is what it was,
    the loading mark is gone, and (unless the point is cached) a later
    [precachePoint] for the point starts a new fetch sequence: a failure
    is never remembered. *)
Theorem fetch_outcome (events : list event) (i : nat) (t : task) (o : outcome) :
  let s := run events init in
  let s' := step s (Resume i o) in
  let point := task_point t in
  let failed :=
    cached (mgr s') = cached (mgr s) /\
    (task_key t ∉ loading (mgr s')) /\
    tasks s' = base.delete i (tasks s) /\
    (isCached point (mgr s') = false ->
     tasks (precachePoint_call point s') = tasks s' ++ [fetchOf point]) in
  tasks s !! i = Some t ->
  match task_pc t, o with
  | AwaitPanoId, Fulfilled panoId =>
      if truthy panoId then
        mgr s' = mgr s /\
        tasks s' = <[i := mkTask point (task_key t) AwaitPanorama]> (tasks s)
      else failed
  | AwaitPanorama, Fulfilled _ =>
      isCached point (mgr s') = true /\
      (task_key t ∉ loading (mgr s')) /\
      tasks s' = base.delete i (tasks s)
  | _, Rejected => failed
  end.
Proof.
  intros s s' point failed Hi. subst failed s' point.
  assert (Hb : withinBounds (mgr s)) by apply run_withinBounds, init_withinBounds.
  assert (Hk : task_key t = getPointKey (task_point t)).
  { apply (run_keyed events init init_keyed). apply list_elem_of_lookup. eauto. }
  pose proof (fetch_failed s i t Hb Hk) as Hfail.
  unfold step. rewrite Hi. unfold precachePoint_resume.
  destruct (task_pc t), o as [panoId|]; try exact Hfail.
  - destruct (truthy panoId); [done|exact Hfail].
  - lazy beta iota zeta. cbn [mgr tasks].
    split; [|split; [|done]].
    + unfold isCached. rewrite <- Hk.
      apply has_true. by apply inserted_survives.
    + rewrite trimCache_loading.
      change (loading (finallyBlock (task_key t) ?m))
        with (delete (task_key t) (loading m)).
      rewrite elem_of_delete. by intros [? _].
Qed.

End FetchOutcome.

Lemma fetch_outcome_witness :
  let events := [CacheManager.PrecachePoint (mkPoint 0 0);
                 CacheManager.Resume 0 (CacheManager.Fulfilled (Some "pano"))] in
  let s := CacheManager.run events CacheManager.init in
  CacheManager.isCached (mkPoint 0 0)
    (CacheManager.mgr (CacheManager.step s
       (CacheManager.Resume 0 (CacheManager.Fulfilled None)))) = true.
Proof.
  intros events s.
  pose proof (fetch_outcome events 0
                (CacheManager.mkTask (mkPoint 0 0)
                   (CacheManager.getPointKey (mkPoint 0 0)) CacheManager.AwaitPanorama)
                (CacheManager.Fulfilled None)) as Hthm.
  simpl in Hthm. by apply Hthm.
Defined.

(** ** Cache manager: the window of [precacheRoute] *)

Section Window.
Import CacheManager.

Lemma slice_take_drop {A} (l : list A) (start n : Z) :
  0 <= start -> 0 <= n ->
  slice l start (start + n) = take (Z.to_nat n) (drop (Z.to_nat start) l).
Proof.
  intros Hstart Hn. unfold slice.
  destruct (Z.ltb_spec start 0); [lia|].
  destruct (Z.ltb_spec (start + n) 0); [lia|].
  destruct (Z.le_gt_cases start (Z.of_nat (length l))) as [Hin|Hout].
  - rewrite (Z.min_l start) by done.
    destruct (Z.le_gt_cases (start + n) (Z.of_nat (length l))) as [Hfit|Hover].
    + rewrite (Z.min_l (start + n)) by done. f_equal. lia.
    + rewrite (Z.min_r (start + n)) by lia.
      rewrite !take_ge; [done| |]; rewrite length_drop; lia.
  - rewrite (Z.min_r start) by lia. rewrite (Z.min_r (start + n)) by lia.
    rewrite Z.sub_diag. change (Z.to_nat 0) with 0%nat. rewrite take_0.
    rewrite drop_ge by lia. by rewrite take_nil.
Qed.

Lemma foldl_visit_started (upcoming : list GeoPoint) (s : sys) :
  exists started,
    tasks (foldl visit s upcoming) = tasks s ++ started /\
    started `sublist_of` (fetchOf <$> upcoming).
Proof.
  revert s. induction upcoming as [|point upcoming IH]; intros s; simpl.
  { exists []. by rewrite app_nil_r. }
  destruct (IH (visit s point)) as (started & Ht & Hsub).
  destruct (visit_cases s point) as [[Heq _]|(Heq & _ & _)]; rewrite Heq in Ht.
  - exists started. rewrite Heq. split; [done|]. by apply sublist_cons.
  - exists (fetchOf point :: started). rewrite Heq. split.
    + rewrite Ht. simpl. by rewrite <- app_assoc.
    + by apply sublist_skip.
Qed.

(** X18: In every state a new cache manager can reach, [precacheRoute] at a
    cursor that is not negative starts fetch sequences only for points
    among the [cacheAhead] waypoints from the cursor on, in route order
    and at most one per waypoint: never more than 20 in one call.  It
    changes nothing in the cached set. *)
Theorem precacheRoute_window (events : list event) (waypoints : list GeoPoint)
    (currentIndex : Z) :
  let s := run events init in
  let s' := precacheRoute waypoints currentIndex s in
  0 <= currentIndex ->
  cached (mgr s') = cached (mgr s) /\
  exists started,
    tasks s' = tasks s ++ started /\
    started `sublist_of`
      (fetchOf <$> take (Z.to_nat (cacheAhead (mgr s)))
                        (drop (Z.to_nat currentIndex) waypoints)) /\
    (length started <= 20)%nat.
Proof.
  intros s s' Hi. subst s'. rewrite precacheRoute_visit.
  destruct (run_withinBounds events init init_withinBounds)
    as (_ & _ & _ & _ & Hahead). fold s in Hahead.
  rewrite slice_take_drop by lia.
  set (upcoming := take _ _).
  destruct (foldl_visit_grows upcoming s) as (Hc & _).
  split; [done|].
  destruct (foldl_visit_started upcoming s) as (started & Ht & Hsub).
  exists started. split; [done|]. split; [done|].
  apply sublist_length in Hsub. rewrite length_fmap in Hsub.
  assert (Hlen : (length upcoming <= Z.to_nat (cacheAhead (mgr s)))%nat).
  { subst upcoming. rewrite length_take. lia. }
  lia.
Qed.

End Window.

Lemma precacheRoute_window_witness :
  let s := CacheManager.run [] CacheManager.init in
  CacheManager.cached (CacheManager.mgr (CacheManager.precacheRoute threePoints 1 s)) =
  CacheManager.cached (CacheManager.mgr s).
Proof.
  intros s.
  destruct (precacheRoute_window [] threePoints 1) as [Hcached _]; [lia|].
  exact Hcached.
Defined.

(** ** Transition engine: a transition from start to end *)

Section WholeTransition.
Import TransitionEngine.

(** Resuming the call made last. *)
Lemma resume_last (e : state) (f : option string) (v : list viewerCall)
    (ps : list promise) (p : pc) (o : outcome) :
  resume (length ps) o
    {| engine := e; frame := f; viewer := v; promises := ps ++ [Pending p] |} =
  {| engine := fst (fst (transitionTo_resume p o e));
     frame := f;
     viewer := v ++ snd (fst (transitionTo_resume p o e));
     promises := ps ++ [promiseOf (snd (transitionTo_resume p o e))] |}.
Proof.
  unfold resume. cbn [promises engine frame viewer].
  rewrite list_lookup_middle by done.
  destruct (transitionTo_resume p o e) as [[e' sent] r]. cbn [fst snd].
  f_equal. rewrite insert_app_r_alt by lia. by rewrite Nat.sub_diag.
Qed.

(** Resuming a call that has settled changes nothing. *)
Lemma resume_settled (s : sys) (id : nat) (o : outcome) :
  (forall p, promises s !! id <> Some (Pending p)) -> resume id o s = s.
Proof.
  intros Hid. unfold resume.
  destruct (promises s !! id) as [[p| |]|]; try done. by destruct (Hid p).
Qed.

Lemma call_idle_enabled (s : sys) (targetPosition : GeoPoint) (targetHeading : option Q) :
  isTransitioning (engine s) = false ->
  enabled (settings_ (engine s)) = true ->
  call targetPosition targetHeading s =
    {| engine := fst (fst (tryStart (frame s) targetPosition targetHeading
                             (set_isTransitioning true (engine s))));
       frame := frame s;
       viewer := viewer s;
       promises := promises s ++ [Pending (On_delay50 targetPosition targetHeading)] |}.
Proof.
  intros Hidle Hon. unfold call, transitionTo_call. rewrite Hidle, Hon.
  cbn [negb]. unfold tryStart. cbn [tryCatchFinally promiseOf fst].
  by rewrite app_nil_r.
Qed.

(** X19: A transition where nothing fails, from any idle engine with
    transitions enabled: resumed six times, the call has resolved with
    true.  The viewer has received the new position, then the heading (if
    one was given), then the wait for the panorama with a timeout of
    2000 ms, and nothing else; both overlays are transparent again, the
    lock is released and the settings are untouched. *)
Theorem smooth_transition_sequence (s : sys) (targetPosition : GeoPoint)
    (targetHeading : option Q) :
  isTransitioning (engine s) = false ->
  enabled (settings_ (engine s)) = true ->
  let id := length (promises s) in
  let s' := resumeAll id (replicate 6 Fulfilled) (call targetPosition targetHeading s) in
  promises s' = promises s ++ [Resolved true] /\
  viewer s' = viewer s ++ transitionCommands targetPosition targetHeading
                       ++ [WaitForLoad 2000] /\
  isTransitioning (engine s') = false /\
  overlaysHidden (engine s') /\
  settings_ (engine s') = settings_ (engine s) /\
  frame s' = frame s.
Proof.
  intros Hidle Hon id s'. subst s' id.
  rewrite call_idle_enabled by done.
  unfold resumeAll, tryStart, transitionCommands, overlaysHidden.
  assert (Hdone : forall (e : state) f v (o : outcome),
            resume (length (promises s)) o
              {| engine := e; frame := f; viewer := v;
                 promises := promises s ++ [Resolved true] |} =
            {| engine := e; frame := f; viewer := v;
               promises := promises s ++ [Resolved true] |}).
  { intros e f v o. apply resume_settled. intros p. cbn [promises].
    by rewrite list_lookup_middle. }
  destruct (truthy (frame s)), targetHeading as [heading|];
    cbn [foldl replicate fst];
    repeat (rewrite resume_last;
            cbn [transitionTo_resume inTry tryBody tryCatchFinally promiseOf fst snd]);
    rewrite ?Hdone; cbn [promises viewer engine frame];
    rewrite <- ?app_assoc; cbn [app];
    repeat split; reflexivity.
Qed.

(** X20: With transitions disabled nothing is locked and nothing is shown: a
    call from an idle engine sends the new position at once and leaves the
    engine exactly as it was, so a further call is not turned away but
    sends its position as well.  A rejection of what the call awaits is
    not caught: its promise is rejected.  Resumed without failure, the
    call sends the heading (if one was given) and resolves with true. *)
Theorem transitions_disabled (s : sys) (targetPosition other : GeoPoint)
    (targetHeading otherHeading : option Q) :
  isTransitioning (engine s) = false ->
  enabled (settings_ (engine s)) = false ->
  let id := length (promises s) in
  let s1 := call targetPosition targetHeading s in
  engine s1 = engine s /\
  viewer s1 = viewer s ++ [SetPosition targetPosition] /\
  promises s1 = promises s ++ [Pending (Off_setPosition targetHeading)] /\
  viewer (call other otherHeading s1) = viewer s1 ++ [SetPosition other] /\
  promises (resume id Rejected s1) = promises s ++ [Failed] /\
  engine (resume id Rejected s1) = engine s /\
  promises (resumeAll id [Fulfilled; Fulfilled] s1) = promises s ++ [Resolved true] /\
  viewer (resumeAll id [Fulfilled; Fulfilled] s1) =
    viewer s ++ transitionCommands targetPosition targetHeading /\
  engine (resumeAll id [Fulfilled; Fulfilled] s1) = engine s.
Proof.
  intros Hidle Hoff id s1.
  assert (Hs1 : s1 = {| engine := engine s; frame := frame s;
                        viewer := viewer s ++ [SetPosition targetPosition];
                        promises := promises s ++ [Pending (Off_setPosition targetHeading)] |}).
  { subst s1. unfold call, transitionTo_call. by rewrite Hidle, Hoff. }
  rewrite Hs1. subst id. cbn [engine viewer promises].
  split; [done|]. split; [done|]. split; [done|]. split.
  { unfold call, transitionTo_call. cbn [engine]. by rewrite Hidle, Hoff. }
  rewrite resume_last. cbn [transitionTo_resume inTry offBody promiseOf fst snd].
  cbn [engine promises].
  split; [done|]. split; [done|].
  unfold resumeAll, transitionCommands. cbn [foldl].
  rewrite resume_last. cbn [transitionTo_resume inTry offBody promiseOf fst snd].
  destruct targetHeading as [heading|]; cbn [promiseOf fst snd].
  - rewrite resume_last. cbn [transitionTo_resume inTry offBody promiseOf fst snd].
    cbn [engine viewer promises]. rewrite ?app_nil_r, <- ?app_assoc. cbn [app].
    done.
  - rewrite resume_settled
      by (intros p; cbn [promises]; by rewrite list_lookup_middle).
    cbn [engine viewer promises]. rewrite ?app_nil_r, <- ?app_assoc. cbn [app].
    done.
Qed.

End WholeTransition.

Lemma smooth_transition_sequence_witness :
  TransitionEngine.viewer
    (resumeAll 0 (replicate 6 TransitionEngine.Fulfilled)
       (TransitionEngine.call (mkPoint 1 2) (Some 90%Q) TransitionEngine.init)) =
  [TransitionEngine.SetPosition (mkPoint 1 2); TransitionEngine.SetPov 90 0;
   TransitionEngine.WaitForLoad 2000].
Proof.
  by destruct (smooth_transition_sequence TransitionEngine.init (mkPoint 1 2) (Some 90%Q))
    as (_ & Hviewer & _).
Defined.

Lemma transitions_disabled_witness :
  let s := TransitionEngine.step TransitionEngine.init
             (TransitionEngine.UpdateSettings
                (TransitionEngine.mkUpdate (Some false) None None None)) in
  TransitionEngine.promises
    (TransitionEngine.resume 0 TransitionEngine.Rejected
       (TransitionEngine.call (mkPoint 1 2) None s)) = [TransitionEngine.Failed].
Proof.
  intros s.
  by destruct (transitions_disabled s (mkPoint 1 2) (mkPoint 1 2) None None)
    as (_ & _ & _ & _ & Hfailed & _).
Defined.

(** ** Transition engine: the lock and the overlays in every run *)

Section EngineAlways.
Import TransitionEngine.

Lemma inProgress_inTry (q : promise) :
  inProgress q = true <-> exists p, q = Pending p /\ inTry p = true.
Proof.
  split.
  - destruct q as [p| |]; try discriminate. intros Hp. by exists p.
  - by intros (p & -> & Hp).
Qed.

Lemma inProgressCount_exists (qs : list promise) :
  (1 <= inProgressCount qs)%nat ->
  exists id q, qs !! id = Some q /\ inProgress q = true.
Proof.
  induction qs as [|q qs IH]; simpl; [lia|]. intros Hcount.
  destruct (inProgress q) eqn:Hq.
  - by exists 0%nat, q.
  - destruct IH as (id & q' & Hid & Hq'); [lia|]. by exists (S id), q'.
Qed.

Lemma inProgressCount_unique (qs : list promise) (id1 id2 : nat) (q1 q2 : promise) :
  (inProgressCount qs <= 1)%nat ->
  qs !! id1 = Some q1 -> inProgress q1 = true ->
  qs !! id2 = Some q2 -> inProgress q2 = true ->
  id1 = id2.
Proof.
  revert id1 id2. induction qs as [|q qs IH]; intros id1 id2 Hcount H1 Hq1 H2 Hq2;
    [done|].
  simpl in Hcount.
  destruct id1 as [|id1], id2 as [|id2]; simpl in H1, H2; [done| | |].
  - injection H1 as ->. rewrite Hq1 in Hcount.
    pose proof (inProgressCount_lookup _ _ _ H2 Hq2). lia.
  - injection H2 as ->. rewrite Hq2 in Hcount.
    pose proof (inProgressCount_lookup _ _ _ H1 Hq1). lia.
  - f_equal. apply (IH id1 id2); try done. destruct (inProgress q); lia.
Qed.

(** X21: In every run of a new engine [isBusy] tells exactly whether a
    transition is in progress, that is whether some call is parked inside
    the [try]; and no two calls ever are at the same time. *)
Theorem busy_iff_in_progress (events : list event) :
  let s := run events init in
  (isBusy (engine s) = true <->
   exists id p, promises s !! id = Some (Pending p) /\ inTry p = true) /\
  (forall id1 id2 p1 p2,
     promises s !! id1 = Some (Pending p1) -> inTry p1 = true ->
     promises s !! id2 = Some (Pending p2) -> inTry p2 = true ->
     id1 = id2).
Proof.
  intros s.
  assert (Hs : singleFlight s) by (by apply run_singleFlight).
  unfold singleFlight in Hs. unfold isBusy. split.
  - split.
    + intros Hbusy. rewrite Hbusy in Hs.
      destruct (inProgressCount_exists (promises s)) as (id & q & Hid & Hq); [lia|].
      apply inProgress_inTry in Hq as (p & -> & Hp). by exists id, p.
    + intros (id & p & Hid & Hp).
      by apply (in_progress_locks s id p).
  - intros id1 id2 p1 p2 H1 Hp1 H2 Hp2.
    apply (inProgressCount_unique (promises s) id1 id2 (Pending p1) (Pending p2));
      try done.
    destruct (isTransitioning (engine s)); lia.
Qed.

(** What a resumption does to the engine: it hides the overlays, or it
    leaves the engine as it is and does not park at the last delay, or it
    leaves the last delay with the overlays as they are. *)
Lemma resume_overlays (p : pc) (o : outcome) (e : state) :
  let '(e', _, r) := transitionTo_resume p o e in
  overlaysHidden e' \/
  (e' = e /\ promiseOf r <> Pending On_delayDuration) \/
  (p = On_delayDuration /\
   overlayOpacity e' = overlayOpacity e /\
   imageOverlayOpacity e' = imageOverlayOpacity e).
Proof.
  unfold overlaysHidden.
  destruct o, p as [[h|]|  |tp h|[h|]| | | | ]; simpl; auto;
    right; left; split; done.
Qed.

Lemma curtain_lookup (ps : list promise) (q : promise) (id : nat) :
  (ps ++ [q]) !! id = Some (Pending On_delayDuration) ->
  q <> Pending On_delayDuration ->
  ps !! id = Some (Pending On_delayDuration).
Proof.
  intros Hid Hq. apply lookup_app_Some in Hid as [Hid|[_ Hid]]; [done|].
  apply list_lookup_singleton_Some in Hid as [_ Heq]. by destruct Hq.
Qed.

Section Covered.

(** A property of the two opacities that holds when both are 0. *)
Variable R : Q -> Q -> Prop.
Hypothesis R_hidden : R 0 0.

Lemma call_covered (targetPosition : GeoPoint) (targetHeading : option Q) (s : sys) :
  singleFlight s ->
  (curtainDown s -> R (overlayOpacity (engine s)) (imageOverlayOpacity (engine s))) ->
  curtainDown (call targetPosition targetHeading s) ->
  R (overlayOpacity (engine (call targetPosition targetHeading s)))
    (imageOverlayOpacity (engine (call targetPosition targetHeading s))).
Proof.
  unfold call, transitionTo_call, curtainDown. intros Hone Hs.
  destruct (isTransitioning (engine s)) eqn:Hlock.
  - cbn [engine promises promiseOf]. intros [Hidle|[id Hid]]; [congruence|].
    apply Hs. right. exists id. by apply curtain_lookup in Hid.
  - destruct (enabled (settings_ (engine s))); cbn [negb].
    + unfold tryStart.
      destruct (truthy (frame s)); cbn [tryCatchFinally engine promises promiseOf];
        (intros [Hidle|[id Hid]]; [discriminate Hidle|]);
        apply curtain_lookup in Hid; try done;
        pose proof (inProgressCount_lookup _ _ _ Hid eq_refl) as Hcount;
        unfold singleFlight in Hone; rewrite Hlock in Hone; lia.
    + cbn [engine]. intros _. apply Hs. by left.
Qed.

Lemma resume_covered (id : nat) (o : outcome) (s : sys) :
  (curtainDown s -> R (overlayOpacity (engine s)) (imageOverlayOpacity (engine s))) ->
  curtainDown (resume id o s) ->
  R (overlayOpacity (engine (resume id o s)))
    (imageOverlayOpacity (engine (resume id o s))).
Proof.
  unfold resume, curtainDown. intros Hs.
  destruct (promises s !! id) as [[p| |]|] eqn:Hid; try done.
  pose proof (resume_overlays p o (engine s)) as Hcases.
  destruct (transitionTo_resume p o (engine s)) as [[e' sent] r].
  cbn [engine promises].
  destruct Hcases as [[Ho Hi]|[[-> Hr]|(-> & Ho & Hi)]].
  - intros _. by rewrite Ho, Hi.
  - intros [Hidle|[id' Hid']]; apply Hs; [by left|].
    right. exists id'.
    destruct (decide (id' = id)) as [->|Hne].
    + rewrite list_lookup_insert_eq in Hid' by (by eapply lookup_lt_Some).
      injection Hid' as Heq. by destruct Hr.
    + by rewrite list_lookup_insert_ne in Hid'.
  - intros _. rewrite Ho, Hi.
    apply Hs. right. by exists id.
Qed.

Lemma step_covered (s : sys) (ev : event) :
  singleFlight s ->
  (curtainDown s -> R (overlayOpacity (engine s)) (imageOverlayOpacity (engine s))) ->
  curtainDown (step s ev) ->
  R (overlayOpacity (engine (step s ev))) (imageOverlayOpacity (engine (step s ev))).
Proof.
  intros Hone Hs. destruct ev as [tp th|id o|u|f]; simpl.
  - by apply call_covered.
  - by apply resume_covered.
  - done.
  - done.
Qed.

End Covered.

(** The calls of [flashTransition] leave the lock and the promises of
    [transitionTo] alone. *)
Lemma flashStep_singleFlight (s : flashSys) (ev : flashEvent) :
  singleFlight (base s) -> singleFlight (base (flashStep s ev)).
Proof.
  intros Hs. destruct ev as [ev| |id]; cbn [flashStep].
  - by apply step_singleFlight.
  - done.
  - destruct (flashes s !! id) as [[[|]|]|]; done.
Qed.

(** [transitionTo] leaves the settings and the fade timing alone. *)
Lemma call_style (targetPosition : GeoPoint) (targetHeading : option Q) (s : sys) :
  let e' := engine (call targetPosition targetHeading s) in
  settings_ e' = settings_ (engine s) /\
  overlayTransition e' = overlayTransition (engine s) /\
  imageOverlayTransition e' = imageOverlayTransition (engine s).
Proof.
  unfold call, transitionTo_call, tryStart.
  by destruct (isTransitioning (engine s)), (enabled (settings_ (engine s))),
    (truthy (frame s)).
Qed.

Lemma resume_style (id : nat) (o : outcome) (s : sys) :
  let e' := engine (resume id o s) in
  settings_ e' = settings_ (engine s) /\
  overlayTransition e' = overlayTransition (engine s) /\
  imageOverlayTransition e' = imageOverlayTransition (engine s).
Proof.
  unfold resume.
  destruct (promises s !! id) as [[p| |]|]; try done.
  by destruct o, p as [[h|]| |tp h|[h|]| | | | ].
Qed.

Lemma step_style (s : sys) (ev : event) :
  imageOverlayTransition (engine s) = fadeStyle (engine s) ->
  imageOverlayTransition (engine (step s ev)) = fadeStyle (engine (step s ev)) /\
  (overlayTransition (engine s) = fadeStyle (engine s) ->
   overlayTransition (engine (step s ev)) = fadeStyle (engine (step s ev))).
Proof.
  unfold fadeStyle. intros Himg. destruct ev as [tp th|id o|u|f]; cbn [step].
  - destruct (call_style tp th s) as (-> & -> & ->). by split.
  - destruct (resume_style id o s) as (-> & -> & ->). by split.
  - done.
  - by split.
Qed.

(** The image overlay always fades as the settings ask, and so does the
    black overlay once no flash is under way. *)
Lemma flashStep_style (s : flashSys) (ev : flashEvent) :
  imageOverlayTransition (engine (base s)) = fadeStyle (engine (base s)) ->
  (flashesDone s -> overlayTransition (engine (base s)) = fadeStyle (engine (base s))) ->
  let s' := flashStep s ev in
  imageOverlayTransition (engine (base s')) = fadeStyle (engine (base s')) /\
  (flashesDone s' -> overlayTransition (engine (base s')) = fadeStyle (engine (base s'))).
Proof.
  intros Himg Hov. destruct ev as [ev| |id]; cbn [flashStep].
  - cbn zeta. cbn [base].
    destruct (step_style (base s) ev Himg) as [Himg' Hov'].
    split; [done|]. intros Hdone. by apply Hov', Hov.
  - cbn zeta. split; [exact Himg|].
    intros Hdone. destruct (Hdone Flash_delay1). cbn [flashes].
    apply elem_of_app. right. apply list_elem_of_here.
  - destruct (flashes s !! id) as [[[|]|]|] eqn:Hid;
      cbn [flashTransition_resume]; cbn zeta; [| |by split|by split].
    + split; [exact Himg|].
      intros Hdone. destruct (Hdone Flash_delay2). cbn [flashes].
      apply list_elem_of_lookup. exists id.
      apply list_lookup_insert_eq. by eapply lookup_lt_Some.
    + split; [exact Himg|]. by intros _.
Qed.

Lemma flashRun_style (events : list flashEvent) (s : flashSys) :
  imageOverlayTransition (engine (base s)) = fadeStyle (engine (base s)) ->
  (flashesDone s -> overlayTransition (engine (base s)) = fadeStyle (engine (base s))) ->
  let s' := flashRun events s in
  imageOverlayTransition (engine (base s')) = fadeStyle (engine (base s')) /\
  (flashesDone s' -> overlayTransition (engine (base s')) = fadeStyle (engine (base s'))).
Proof.
  revert s. induction events as [|ev events IH]; intros s Himg Hov; [done|].
  destruct (flashStep_style s ev Himg Hov) as [Himg' Hov'].
  by apply (IH (flashStep s ev)).
Qed.

(** What holds of the overlays along every run: once the curtain is
    down the image overlay is transparent, and so is the black overlay
    unless a flash is showing. *)
Lemma flashStep_hidden (s : flashSys) (ev : flashEvent) :
  singleFlight (base s) ->
  (curtainDown (base s) -> imageOverlayOpacity (engine (base s)) = 0%Q) ->
  (curtainDown (base s) -> ~ flashShown s -> overlayOpacity (engine (base s)) = 0%Q) ->
  let s' := flashStep s ev in
  (curtainDown (base s') -> imageOverlayOpacity (engine (base s')) = 0%Q) /\
  (curtainDown (base s') -> ~ flashShown s' -> overlayOpacity (engine (base s')) = 0%Q).
Proof.
  intros Hone Himg Hov. destruct ev as [ev| |id]; cbn [flashStep].
  - cbn zeta. cbn [base]. split.
    + intros Hdown.
      by apply (step_covered (fun _ i => i = 0%Q) eq_refl (base s) ev Hone).
    + intros Hdown Hflash.
      apply (step_covered (fun o _ => ~ flashShown s -> o = 0%Q)
               (fun _ => eq_refl) (base s) ev Hone); done.
  - cbn zeta. split; [exact Himg|].
    intros _ Hflash. destruct Hflash. unfold flashShown. cbn [flashes].
    apply elem_of_app. right. apply list_elem_of_here.
  - destruct (flashes s !! id) as [[[|]|]|] eqn:Hid;
      cbn [flashTransition_resume]; cbn zeta; [| |by split|by split].
    + split; [exact Himg|]. by intros _ _.
    + split; [exact Himg|]. cbn [base engine set_engine flashes].
      intros Hdown Hflash. apply Hov; [done|].
      intros Hshown. apply Hflash. unfold flashShown in *. cbn [flashes].
      apply list_elem_of_lookup in Hshown as [i Hi].
      apply list_elem_of_lookup. exists i.
      rewrite list_lookup_insert_ne; [done|]. intros ->. congruence.
Qed.

Lemma flashRun_hidden (events : list flashEvent) (s : flashSys) :
  singleFlight (base s) ->
  (curtainDown (base s) -> imageOverlayOpacity (engine (base s)) = 0%Q) ->
  (curtainDown (base s) -> ~ flashShown s -> overlayOpacity (engine (base s)) = 0%Q) ->
  let s' := flashRun events s in
  (curtainDown (base s') -> imageOverlayOpacity (engine (base s')) = 0%Q) /\
  (curtainDown (base s') -> ~ flashShown s' -> overlayOpacity (engine (base s')) = 0%Q).
Proof.
  revert s. induction events as [|ev events IH]; intros s Hone Himg Hov; [done|].
  destruct (flashStep_hidden s ev Hone Himg Hov) as [Himg' Hov'].
  apply (IH (flashStep s ev)); [by apply flashStep_singleFlight|done|done].
Qed.

(** X22: In every run of a new engine, calls of [flashTransition] among
    the events, the image overlay is transparent whenever no transition
    is in progress (and already once a transition is in its last delay),
    and so is the black overlay unless a flash is showing.  A flash is
    the one thing that covers the page of an idle engine: it does not
    take the lock.  The image overlay always fades as the settings ask,
    and the black overlay does once no flash is under way. *)
Theorem overlays_hidden_when_idle (events : list flashEvent) :
  let s := flashRun events flashInit in
  let e := engine (base s) in
  (curtainDown (base s) -> imageOverlayOpacity e = 0%Q) /\
  (curtainDown (base s) -> ~ flashShown s -> overlayOpacity e = 0%Q) /\
  (isBusy e = false -> ~ flashShown s -> overlaysHidden e) /\
  (isBusy (engine (base (flashStep s Flash))) = isBusy e /\
   overlayOpacity (engine (base (flashStep s Flash))) = 0.5%Q) /\
  imageOverlayTransition e = fadeStyle e /\
  (flashesDone s -> overlayTransition e = fadeStyle e).
Proof.
  intros s e.
  destruct (flashRun_hidden events flashInit) as [Himg Hov]; [done|done|done|].
  destruct (flashRun_style events flashInit) as [Hstyle Hstyle']; [done|done|].
  fold s in Himg, Hov, Hstyle, Hstyle'. fold e in Himg, Hov, Hstyle, Hstyle'.
  split; [exact Himg|]. split; [exact Hov|].
  split; [|split; [done|by split]].
  intros Hidle Hflash. split; [apply Hov|apply Himg]; try done; by left.
Qed.

End EngineAlways.

Lemma busy_iff_in_progress_witness :
  let s := TransitionEngine.run [TransitionEngine.Call (mkPoint 1 2) None]
             TransitionEngine.init in
  TransitionEngine.isBusy (TransitionEngine.engine s) = true.
Proof.
  intros s.
  destruct (busy_iff_in_progress [TransitionEngine.Call (mkPoint 1 2) None])
    as [[_ Hbusy] _].
  apply Hbusy. by exists 0%nat, (TransitionEngine.On_delay50 (mkPoint 1 2) None).
Defined.

(** After a transition that failed at [setPosition] the overlays are
    hidden, also when a flash came and went in between; while a flash is
    showing the engine is idle and the black overlay is half opaque. *)
Lemma overlays_hidden_when_idle_witness :
  let events :=
    [TransitionEngine.Engine (TransitionEngine.Call (mkPoint 1 2) None);
     TransitionEngine.Engine (TransitionEngine.Resume 0 TransitionEngine.Fulfilled);
     TransitionEngine.Flash;
     TransitionEngine.Engine (TransitionEngine.Resume 0 TransitionEngine.Rejected);
     TransitionEngine.FlashResumes 0] in
  let s := TransitionEngine.flashRun events TransitionEngine.flashInit in
  overlaysHidden (TransitionEngine.engine (TransitionEngine.base s)) /\
  TransitionEngine.overlayOpacity
    (TransitionEngine.engine
       (TransitionEngine.base (TransitionEngine.flashStep s TransitionEngine.Flash)))
    = 0.5%Q.
Proof.
  intros events s.
  destruct (overlays_hidden_when_idle events) as (_ & _ & Hidle & (_ & Hflash) & _).
  split; [|exact Hflash].
  apply Hidle; [reflexivity|].
  unfold flashShown.
  change (TransitionEngine.flashes s) with [Some TransitionEngine.Flash_delay2].
  intros Hin. apply list_elem_of_singleton in Hin. discriminate Hin.
Defined.

(** ** Transition engine: the heading animation *)

Section Animation.
Import TransitionEngine.





End Animation.


(** ** Playback controller: what holds in every run *)

Section ControllerAlways.
Context `{JSMath}.
Import Controller.

Lemma stop_parts (s : state) :
  isPlaying (stop s) = false /\ isPaused (stop s) = false /\
  route (stop s) = RouteManager.reset (route s) /\
  transitions (stop s) = transitions s /\ cache (stop s) = cache s /\
  uiShown (stop s) = false.
Proof. unfold stop, clearPlaybackTimer. simpl. by destruct (playbackTimer s). Qed.

Lemma pause_parts (s : state) :
  isPlaying (pause s) = false /\ isPaused (pause s) = true /\
  route (pause s) = route s /\
  transitions (pause s) = transitions s /\ cache (pause s) = cache s.
Proof. unfold pause, clearPlaybackTimer. simpl. by destruct (playbackTimer s). Qed.

Lemma stop_consistent (s : state) : consistent s -> consistent (stop s).
Proof.
  intros (_ & _ & Hone & Hcache). unfold consistent.
  destruct (stop_parts s) as (-> & -> & -> & -> & -> & _).
  split; [done|]. split; [by apply cursorValid_zero|done].
Qed.

Lemma pause_consistent (s : state) : consistent s -> consistent (pause s).
Proof.
  intros (_ & Hroute & Hone & Hcache). unfold consistent.
  by destruct (pause_parts s) as (-> & -> & -> & -> & ->).
Qed.

Lemma precacheRoute_withinBounds (waypoints : list GeoPoint) (currentIndex : Z)
    (c : CacheManager.sys) :
  withinBounds (CacheManager.mgr c) ->
  withinBounds (CacheManager.mgr (CacheManager.precacheRoute waypoints currentIndex c)).
Proof. apply (step_withinBounds c (CacheManager.PrecacheRoute waypoints currentIndex)). Qed.

Lemma advanceFrame_call_consistent (s : state) :
  consistent s -> consistent (advanceFrame_call s).
Proof.
  intros Hs. unfold advanceFrame_call.
  destruct (negb (isPlaying s) || isPaused s); [done|].
  destruct (RouteManager.getNextWaypoint (route s)); [|by apply stop_consistent].
  destruct Hs as (Hflags & Hroute & Hone & Hcache).
  split; [exact Hflags|]. split; [exact Hroute|]. split.
  - by apply call_singleFlight.
  - by apply precacheRoute_withinBounds.
Qed.

Lemma advanceFrame_resume_consistent (success : bool) (s : state) :
  consistent s -> consistent (advanceFrame_resume success s).
Proof.
  intros (Hflags & Hroute & Hone & Hcache). unfold advanceFrame_resume.
  destruct success; cbn [isPlaying isPaused sendProgressUpdate send updateFloatingUI set_route];
    destruct (isPlaying s && negb (isPaused s));
    (split; [exact Hflags|]; split; [|split; [exact Hone|exact Hcache]]);
    try exact Hroute; by apply advance_valid.
Qed.

Lemma step_consistent (s : state) (ev : event) :
  consistent s -> consistent (step s ev).
Proof.
  intros Hs.
  destruct ev as [ | | |frames|name| | |new|points|handle|promise o|f|i|e];
    cbn [step].
  - unfold play. destruct (negb (RouteManager.hasRoute (route s))); [done|].
    destruct (isPlaying s); [done|].
    apply advanceFrame_call_consistent.
    destruct Hs as (Hflags & Hroute & Hone & Hcache). by unfold consistent.
  - by apply pause_consistent.
  - by apply stop_consistent.
  - destruct Hs as (Hflags & Hroute & Hone & Hcache). unfold skip.
    match goal with
    | |- context [RouteManager.jumpTo ?i (route s)] =>
        pose proof (jumpTo_valid i (route s) Hroute) as Hjump;
        destruct (RouteManager.jumpTo i (route s)) as [ok rm']
    end.
    cbn [snd] in *.
    destruct (RouteManager.getCurrentWaypoint _);
      (split; [exact Hflags|]; split; [exact Hjump|];
       split; [|exact Hcache]); [by apply call_singleFlight|exact Hone].
  - done.
  - unfold speedUp. by destruct (Z.ltb _ _).
  - unfold slowDown. by destruct (Z.ltb _ _).
  - destruct Hs as (Hflags & Hroute & Hone & Hcache).
    split; [exact Hflags|]. split; [exact Hroute|]. split; [|exact Hcache].
    exact Hone.
  - destruct Hs as (Hflags & Hroute & Hone & Hcache).
    split; [exact Hflags|]. split; [|split; [exact Hone|exact Hcache]].
    apply cursorValid_zero, setRoute_currentIndex.
  - destruct (bool_decide _); [|done].
    apply advanceFrame_call_consistent.
    destruct Hs as (Hflags & Hroute & Hone & Hcache). by unfold consistent.
  - destruct Hs as (Hflags & Hroute & Hone & Hcache).
    split; [exact Hflags|]. split; [exact Hroute|]. split; [|exact Hcache].
    by apply resume_singleFlight.
  - done.
  - destruct (cycles s !! i) as [promise|]; [|done].
    destruct (TransitionEngine.promises (transitions s) !! promise)
      as [[p|success|]|]; try done.
    apply advanceFrame_resume_consistent.
    destruct Hs as (Hflags & Hroute & Hone & Hcache). by unfold consistent.
  - destruct Hs as (Hflags & Hroute & Hone & Hcache).
    split; [exact Hflags|]. split; [exact Hroute|]. split; [exact Hone|].
    by apply step_withinBounds.
Qed.

Lemma run_consistent (events : list event) (s : state) :
  consistent s -> consistent (run events s).
Proof.
  revert s. induction events as [|ev events IH]; intros s Hs; [done|].
  simpl. apply IH. by apply step_consistent.
Qed.

Lemma init_consistent : consistent init.
Proof.
  unfold consistent. simpl. split; [done|]. split; [by apply cursorValid_zero|].
  split; [done|apply init_withinBounds].
Qed.

(** X24: Whatever the page, the popup, the timers and the awaited promises do
    to a new controller, in whatever order: playback is never both running
    and paused; the cursor of its route is on a waypoint (or 0 on an empty
    route), so [getCurrentWaypoint] is null only without waypoints; the
    engine is busy exactly when one transition is in progress; and the
    cache holds at most 50 points. *)
Theorem controller_always_consistent (events : list event) :
  let s := run events init in
  consistent s /\
  ~ (isPlaying s = true /\ isPaused s = true) /\
  (RouteManager.getCurrentWaypoint (route s) = None <->
   RouteManager.waypoints (route s) = []) /\
  Z.of_nat (length (CacheManager.cached (CacheManager.mgr (cache s)))) <= 50.
Proof.
  intros s.
  assert (Hs : consistent s) by apply run_consistent, init_consistent.
  split; [done|]. destruct Hs as (Hflags & Hroute & Hone & Hcache).
  split; [|split].
  - intros [Hp Hq]. rewrite Hp, Hq in Hflags. discriminate.
  - by apply getCurrentWaypoint_valid.
  - destruct Hcache as (_ & _ & Hlen & Hmax & _). lia.
Qed.

End ControllerAlways.

(** ** Playback controller: playback to the end of the route *)

Section PlaybackToEnd.
Context `{JSMath}.
Import Controller.

(** A transition that nothing disturbs, with transitions enabled or
    not: after six resumptions the call has resolved with true, the
    engine is idle again, and the viewer has received the position. *)
Lemma call_fulfilled (t : TransitionEngine.sys) (next : GeoPoint) (heading : option Q) :
  TransitionEngine.isTransitioning (TransitionEngine.engine t) = false ->
  let t' := resumeAll (length (TransitionEngine.promises t))
              (replicate 6 TransitionEngine.Fulfilled)
              (TransitionEngine.call next heading t) in
  TransitionEngine.promises t' =
    TransitionEngine.promises t ++ [TransitionEngine.Resolved true] /\
  positions (TransitionEngine.viewer t') =
    positions (TransitionEngine.viewer t) ++ [next] /\
  TransitionEngine.isTransitioning (TransitionEngine.engine t') = false.
Proof.
  intros Hidle t'. subst t'.
  assert (Hdone : forall (e : TransitionEngine.state) f v (o : TransitionEngine.outcome),
            TransitionEngine.resume (length (TransitionEngine.promises t)) o
              {| TransitionEngine.engine := e; TransitionEngine.frame := f;
                 TransitionEngine.viewer := v;
                 TransitionEngine.promises :=
                   TransitionEngine.promises t ++ [TransitionEngine.Resolved true] |} =
            {| TransitionEngine.engine := e; TransitionEngine.frame := f;
               TransitionEngine.viewer := v;
               TransitionEngine.promises :=
                 TransitionEngine.promises t ++ [TransitionEngine.Resolved true] |}).
  { intros e f v o. apply resume_settled. intros p. cbn [TransitionEngine.promises].
    by rewrite list_lookup_middle. }
  assert (Hpos : forall v sent, positions (v ++ sent) = positions v ++ positions sent).
  { intros v sent. unfold positions. apply bind_app. }
  destruct (TransitionEngine.enabled
              (TransitionEngine.settings_ (TransitionEngine.engine t))) eqn:Hon.
  - rewrite call_idle_enabled by done.
    unfold resumeAll, TransitionEngine.tryStart.
    destruct (TransitionEngine.truthy (TransitionEngine.frame t)), heading as [h|];
      cbn [foldl replicate fst];
      repeat (rewrite resume_last;
              cbn [TransitionEngine.transitionTo_resume TransitionEngine.inTry
                   TransitionEngine.tryBody TransitionEngine.tryCatchFinally
                   TransitionEngine.promiseOf fst snd]);
      rewrite ?Hdone;
      cbn [TransitionEngine.promises TransitionEngine.viewer TransitionEngine.engine];
      rewrite !Hpos; cbn; rewrite ?app_nil_r; repeat split; reflexivity.
  - unfold TransitionEngine.call, TransitionEngine.transitionTo_call.
    rewrite Hidle, Hon. cbn [negb TransitionEngine.promiseOf].
    unfold resumeAll.
    destruct heading as [h|]; cbn [foldl replicate];
      repeat (rewrite resume_last;
              cbn [TransitionEngine.transitionTo_resume TransitionEngine.inTry
                   TransitionEngine.offBody TransitionEngine.promiseOf fst snd]);
      rewrite ?Hdone;
      cbn [TransitionEngine.promises TransitionEngine.viewer TransitionEngine.engine];
      rewrite !Hpos; cbn; rewrite ?app_nil_r; repeat split; done.
Qed.

(** The timeout of a running playback fires before the end of the
    route: [advanceFrame] starts the transition to the next waypoint and
    parks. *)
Lemma timer_fires (s : state) (handle : nat) (next : GeoPoint) :
  isPlaying s = true -> isPaused s = false ->
  handle ∈ (fst <$> timers s) ->
  RouteManager.getNextWaypoint (route s) = Some next ->
  step s (TimerFires handle) =
    {| route := route s;
       transitions :=
         TransitionEngine.call next
           (if autoHeading (settings_ s)
            then Some (RouteManager.getHeadingToNext (route s)) else None)
           (transitions s);
       cache := CacheManager.precacheRoute (RouteManager.waypoints (route s))
                  (RouteManager.currentIndex (route s)) (cache s);
       isPlaying := isPlaying s; isPaused := isPaused s; speed := speed s;
       playbackTimer := playbackTimer s; settings_ := settings_ s;
       timers := filter (λ t, fst t ≠ handle) (timers s);
       nextTimer := nextTimer s;
       cycles := cycles s ++ [length (TransitionEngine.promises (transitions s))];
       uiShown := uiShown s; uiBar := uiBar s; sent := sent s |}.
Proof.
  intros Hp Hq Hin Hnext. cbn [step].
  rewrite bool_decide_eq_true_2 by done.
  unfold advanceFrame_call. cbn [isPlaying isPaused route].
  rewrite Hp, Hq, Hnext. reflexivity.
Qed.

Lemma run_cons (ev : event) (events : list event) (s : state) :
  run (ev :: events) s = run events (step s ev).
Proof. reflexivity. Qed.

Lemma run_app (events1 events2 : list event) (s : state) :
  run (events1 ++ events2) s = run events2 (run events1 s).
Proof. apply foldl_app. Qed.

Lemma run_one (ev : event) (s : state) : run [ev] s = step s ev.
Proof. reflexivity. Qed.

(** The six resumptions of a cycle, seen from the engine. *)
Lemma engineResumes_resumeAll (id : nat) (t : TransitionEngine.sys) :
  TransitionEngine.run
    (engineResumes (replicate 6 (id, TransitionEngine.Fulfilled))) t =
  resumeAll id (replicate 6 TransitionEngine.Fulfilled) t.
Proof. reflexivity. Qed.

Lemma advance_next (rm : RouteManager.state) (next : GeoPoint) :
  RouteManager.getNextWaypoint rm = Some next ->
  RouteManager.advance rm =
    (true, RouteManager.set_currentIndex (RouteManager.currentIndex rm + 1) rm).
Proof.
  unfold RouteManager.advance, RouteManager.getNextWaypoint.
  destruct (Z.ltb_spec (RouteManager.currentIndex rm + 1) (RouteManager.length_ rm));
    [|done].
  by destruct (Z.ltb_spec (RouteManager.currentIndex rm) (RouteManager.length_ rm - 1));
    [|lia].
Qed.

(** The parked [advanceFrame] of a running playback is resumed after its
    transition has resolved with true. *)
Lemma cycle_resumes (s : state) (i promise : nat) (next : GeoPoint) :
  isPlaying s = true -> isPaused s = false ->
  cycles s !! i = Some promise ->
  TransitionEngine.promises (transitions s) !! promise =
    Some (TransitionEngine.Resolved true) ->
  RouteManager.getNextWaypoint (route s) = Some next ->
  let rm := RouteManager.set_currentIndex
              (RouteManager.currentIndex (route s) + 1) (route s) in
  step s (CycleResumes i) =
    {| route := rm;
       transitions := transitions s;
       cache := cache s;
       isPlaying := isPlaying s; isPaused := isPaused s; speed := speed s;
       playbackTimer := Some (nextTimer s); settings_ := settings_ s;
       timers := timers s ++ [(nextTimer s, interval s)];
       nextTimer := S (nextTimer s);
       cycles := base.delete i (cycles s);
       uiShown := uiShown s;
       uiBar := RouteManager.getProgress rm;
       sent := sent s ++ [ProgressMsg (RouteManager.getProgress rm)] |}.
Proof.
  intros Hp Hq Hi Hpromise Hnext rm. cbn [step]. rewrite Hi, Hpromise.
  unfold advanceFrame_resume.
  cbn [set_cycles set_route updateFloatingUI sendProgressUpdate send
       isPlaying isPaused route transitions].
  assert (Hcond : isPlaying s && negb (isPaused s) = true) by (by rewrite Hp, Hq).
  rewrite Hcond, (advance_next _ _ Hnext). cbn [snd].
  unfold setTimeout. reflexivity.
Qed.

(** One playback cycle from a steady state before the end of the
    route, as a whole. *)
Lemma playCycle_state (s : state) (handle : nat) (next : GeoPoint) :
  isPlaying s = true -> isPaused s = false ->
  playbackTimer s = Some handle ->
  handle ∈ (fst <$> timers s) ->
  TransitionEngine.isTransitioning (TransitionEngine.engine (transitions s)) = false ->
  RouteManager.getNextWaypoint (route s) = Some next ->
  let rm := RouteManager.set_currentIndex
              (RouteManager.currentIndex (route s) + 1) (route s) in
  let id := length (TransitionEngine.promises (transitions s)) in
  let heading := if autoHeading (settings_ s)
                 then Some (RouteManager.getHeadingToNext (route s)) else None in
  playCycle s =
    {| route := rm;
       transitions := resumeAll id (replicate 6 TransitionEngine.Fulfilled)
                        (TransitionEngine.call next heading (transitions s));
       cache := CacheManager.precacheRoute (RouteManager.waypoints (route s))
                  (RouteManager.currentIndex (route s)) (cache s);
       isPlaying := isPlaying s; isPaused := isPaused s; speed := speed s;
       playbackTimer := Some (nextTimer s); settings_ := settings_ s;
       timers := filter (λ t, fst t ≠ handle) (timers s) ++
                 [(nextTimer s, interval s)];
       nextTimer := S (nextTimer s);
       cycles := base.delete (length (cycles s)) (cycles s ++ [id]);
       uiShown := uiShown s;
       uiBar := RouteManager.getProgress rm;
       sent := sent s ++ [ProgressMsg (RouteManager.getProgress rm)] |}.
Proof.
  intros Hp Hq Htimer Hin Hidle Hnext rm id heading.
  unfold playCycle, cycleEvents. rewrite Htimer.
  rewrite run_cons, run_app, run_one.
  rewrite (timer_fires s handle next Hp Hq Hin Hnext).
  fold heading. fold id.
  rewrite transitionResumes_run.
  unfold set_transitions.
  cbn [transitions route cache isPlaying isPaused speed
       playbackTimer settings_ timers nextTimer cycles uiShown uiBar sent].
  rewrite engineResumes_resumeAll.
  destruct (call_fulfilled (transitions s) next heading Hidle)
    as (Hpromises & _ & _).
  fold id in Hpromises.
  erewrite (cycle_resumes _ (length (cycles s)) id next); cycle 1.
  - done.
  - done.
  - cbn [cycles]. by apply list_lookup_middle.
  - cbn [transitions]. rewrite Hpromises. by apply list_lookup_middle.
  - done.
  - reflexivity.
Qed.

(** One playback cycle from a steady state before the end of the route:
    the viewer is sent to the next waypoint, the cursor moves onto it,
    the progress bar follows, and the next timeout is pending with the
    interval of the current speed; playback is steady again. *)
Lemma playCycle_steady (s : state) (next : GeoPoint) :
  steady s ->
  RouteManager.getNextWaypoint (route s) = Some next ->
  let s' := playCycle s in
  steady s' /\
  route s' = RouteManager.set_currentIndex
               (RouteManager.currentIndex (route s) + 1) (route s) /\
  positions (TransitionEngine.viewer (transitions s')) =
    positions (TransitionEngine.viewer (transitions s)) ++ [next] /\
  playbackTimer s' = Some (nextTimer s) /\
  (nextTimer s, interval s) ∈ timers s' /\
  uiBar s' = RouteManager.getProgress (route s') /\
  speed s' = speed s /\ settings_ s' = settings_ s /\ uiShown s' = uiShown s.
Proof.
  intros (Hp & Hq & (handle & Htimer & Hin) & Hidle & Hcur) Hnext s'.
  pose proof (playCycle_state s handle next Hp Hq Htimer Hin Hidle Hnext) as Hs'.
  fold s' in Hs'. cbv zeta in Hs'.
  destruct (call_fulfilled (transitions s) next
              (if autoHeading (settings_ s)
               then Some (RouteManager.getHeadingToNext (route s)) else None) Hidle)
    as (_ & Hpositions & Hidle').
  assert (Hnew : (nextTimer s, interval s) ∈
            filter (λ t : nat * Z, fst t ≠ handle) (timers s) ++
              [(nextTimer s, interval s)]).
  { apply elem_of_app. right. by apply list_elem_of_singleton. }
  rewrite Hs'. unfold steady.
  cbn [isPlaying isPaused playbackTimer timers transitions route uiBar speed
       settings_ uiShown].
  split; [|split; [done|split; [done|split; [done|split; [exact Hnew|done]]]]].
  split; [done|]. split; [done|]. split; [|split; [done|simpl; lia]].
  exists (nextTimer s). split; [done|].
  apply list_elem_of_fmap. by exists (nextTimer s, interval s).
Qed.

Lemma getNextWaypoint_lookup (rm : RouteManager.state) :
  0 <= RouteManager.currentIndex rm ->
  RouteManager.getNextWaypoint rm =
    RouteManager.waypoints rm !! S (Z.to_nat (RouteManager.currentIndex rm)).
Proof.
  intros Hcur. unfold RouteManager.getNextWaypoint, RouteManager.length_.
  destruct (Z.ltb_spec (RouteManager.currentIndex rm + 1)
              (Z.of_nat (length (RouteManager.waypoints rm)))).
  - rewrite index_lookup by lia. f_equal. lia.
  - symmetry. apply lookup_ge_None. lia.
Qed.

(** Several cycles in a row, as long as waypoints are left. *)
Lemma playCycles_steady (n : nat) (s : state) :
  steady s ->
  RouteManager.currentIndex (route s) + Z.of_nat n
    <= RouteManager.length_ (route s) - 1 ->
  let s' := playCycles n s in
  steady s' /\
  route s' = RouteManager.set_currentIndex
               (RouteManager.currentIndex (route s) + Z.of_nat n) (route s) /\
  positions (TransitionEngine.viewer (transitions s')) =
    positions (TransitionEngine.viewer (transitions s)) ++
    take n (drop (S (Z.to_nat (RouteManager.currentIndex (route s))))
              (RouteManager.waypoints (route s))) /\
  uiShown s' = uiShown s.
Proof.
  revert s. induction n as [|n IH]; intros s Hs Hleft s'.
  { subst s'. cbn [playCycles]. split; [done|]. split.
    - destruct (route s) as [ws i sp ep td]. unfold RouteManager.set_currentIndex.
      simpl. f_equal. lia.
    - by rewrite take_0, app_nil_r. }
  pose proof Hs as (_ & _ & _ & _ & Hcur).
  destruct (RouteManager.getNextWaypoint (route s)) as [next|] eqn:Hnext.
  2: { rewrite getNextWaypoint_lookup in Hnext by done.
       apply lookup_ge_None in Hnext. unfold RouteManager.length_ in Hleft. lia. }
  destruct (playCycle_steady s next Hs Hnext)
    as (Hs1 & Hroute1 & Hpos1 & _ & _ & _ & _ & _ & Hui1).
  subst s'. cbn [playCycles].
  destruct (IH (playCycle s) Hs1) as (Hs' & Hroute' & Hpos' & Hui').
  { rewrite Hroute1. unfold RouteManager.length_. simpl.
    unfold RouteManager.length_ in Hleft. lia. }
  split; [done|]. split; [|split].
  - rewrite Hroute', Hroute1. unfold RouteManager.set_currentIndex. simpl.
    f_equal. lia.
  - rewrite Hpos', Hpos1, Hroute1. simpl RouteManager.currentIndex.
    simpl RouteManager.waypoints. rewrite <- app_assoc. f_equal.
    rewrite getNextWaypoint_lookup in Hnext by done.
    rewrite (drop_S _ _ _ Hnext). cbn [take app]. do 3 f_equal. lia.
  - by rewrite Hui'.
Qed.

(** The timeout of a running playback fires at the end of the route:
    [advanceFrame] stops the playback. *)
Lemma timer_fires_at_end (s : state) (handle : nat) :
  isPlaying s = true -> isPaused s = false ->
  handle ∈ (fst <$> timers s) ->
  RouteManager.getNextWaypoint (route s) = None ->
  let s' := step s (TimerFires handle) in
  isPlaying s' = false /\ isPaused s' = false /\
  route s' = RouteManager.reset (route s) /\
  transitions s' = transitions s /\
  uiShown s' = false.
Proof.
  intros Hp Hq Hin Hnext s'. subst s'. cbn [step].
  rewrite bool_decide_eq_true_2 by done.
  unfold advanceFrame_call. cbn [isPlaying isPaused route].
  rewrite Hp, Hq, Hnext. cbn [negb orb].
  match goal with |- context [stop ?s0] =>
    destruct (stop_parts s0) as (-> & -> & -> & -> & _ & ->) end.
  done.
Qed.

(** X25: Left alone, a running playback goes to the end of the route: from
    any steady state with the cursor on a waypoint, the viewer is sent to
    every waypoint after the cursor, one by one and in route order, and
    to nothing else; the timeout after the last one finds the route
    complete and stops the playback, which rewinds the cursor to the
    start and hides the floating controls. *)
Theorem playback_reaches_end (s : state) :
  steady s ->
  cursorInRange (route s) ->
  let s' := playToEnd s in
  isPlaying s' = false /\ isPaused s' = false /\
  RouteManager.currentIndex (route s') = 0 /\
  RouteManager.waypoints (route s') = RouteManager.waypoints (route s) /\
  uiShown s' = false /\
  positions (TransitionEngine.viewer (transitions s')) =
    positions (TransitionEngine.viewer (transitions s)) ++
    drop (S (Z.to_nat (RouteManager.currentIndex (route s))))
         (RouteManager.waypoints (route s)).
Proof.
  intros Hs [Hlo Hhi] s'. subst s'. unfold playToEnd.
  set (left := Z.to_nat (RouteManager.length_ (route s) - 1 -
                         RouteManager.currentIndex (route s))).
  destruct (playCycles_steady left s Hs) as (Hs1 & Hroute1 & Hpos1 & _);
    [subst left; lia|].
  set (s1 := playCycles left s) in *.
  destruct Hs1 as (Hp & Hq & (handle & Htimer & Hin) & _ & _).
  rewrite Htimer.
  destruct (timer_fires_at_end s1 handle Hp Hq Hin) as (-> & -> & -> & -> & ->).
  { rewrite getNextWaypoint_lookup by (rewrite Hroute1; simpl; lia).
    apply lookup_ge_None. rewrite Hroute1. simpl.
    unfold RouteManager.length_ in *. subst left. lia. }
  rewrite Hroute1, Hpos1. cbn.
  split; [done|]. split; [done|]. split; [done|]. split; [done|]. split; [done|].
  f_equal. apply take_ge. rewrite length_drop.
  unfold RouteManager.length_ in *. subst left. lia.
Qed.

End PlaybackToEnd.

Lemma playback_reaches_end_witness :
  let s := @Controller.run flatMath
             ([Controller.SetRoute threePoints; Controller.Play] ++
              transitionResumes smoothTransition ++ [Controller.CycleResumes 0])
             Controller.init in
  Controller.isPlaying (@playToEnd flatMath s) = false /\
  RouteManager.currentIndex (Controller.route (@playToEnd flatMath s)) = 0 /\
  Controller.uiShown (@playToEnd flatMath s) = false.
Proof.
  intros s.
  assert (Hsteady : steady s).
  { unfold steady. split; [vm_compute; reflexivity|].
    split; [vm_compute; reflexivity|]. split.
    - exists 1%nat. split; [vm_compute; reflexivity|].
      vm_compute. apply list_elem_of_here.
    - split; [vm_compute; reflexivity|]. vm_compute. discriminate. }
  assert (Hcursor : cursorInRange (Controller.route s)).
  { unfold cursorInRange. vm_compute. split; discriminate. }
  destruct (@playback_reaches_end flatMath s Hsteady Hcursor)
    as (Hp & _ & Hc & _ & Hui & _).
  exact (conj Hp (conj Hc Hui)).
Defined.

(** ** Playback controller: skipping and speed *)

Section SkipAndSpeed.
Context `{JSMath}.
Import Controller.

(** X27: [skip] moves the cursor by [frames] waypoints, stopping at the first
    and at the last waypoint, whatever [frames] is; it leaves the playback
    flags, the pending timeouts and the parked cycles alone and redraws
    the progress bar.  While the engine is busy the transition it asks for
    is turned away: the cursor has moved, and the viewer has not. *)
Theorem skip_clamps (s : state) (frames : Z) :
  cursorInRange (route s) ->
  let s' := skip frames s in
  let target := Z.max 0 (Z.min (RouteManager.length_ (route s) - 1)
                               (RouteManager.currentIndex (route s) + frames)) in
  route s' = RouteManager.set_currentIndex target (route s) /\
  cursorInRange (route s') /\
  isPlaying s' = isPlaying s /\ isPaused s' = isPaused s /\
  timers s' = timers s /\ playbackTimer s' = playbackTimer s /\
  cycles s' = cycles s /\
  uiBar s' = RouteManager.getProgress (route s') /\
  (TransitionEngine.isBusy (TransitionEngine.engine (transitions s)) = true ->
   TransitionEngine.viewer (transitions s') = TransitionEngine.viewer (transitions s) /\
   TransitionEngine.engine (transitions s') = TransitionEngine.engine (transitions s) /\
   TransitionEngine.promises (transitions s') =
     TransitionEngine.promises (transitions s) ++ [TransitionEngine.Resolved false]).
Proof.
  intros [Hlo Hhi] s' target. subst s'. unfold skip. fold target.
  assert (Hin : 0 <= target <= RouteManager.length_ (route s) - 1)
    by (subst target; lia).
  clearbody target.
  rewrite (jumpTo_accepts target (route s) Hin). cbn [snd route set_route].
  assert (Hsome : is_Some (RouteManager.getCurrentWaypoint
                             (RouteManager.set_currentIndex target (route s)))).
  { unfold RouteManager.getCurrentWaypoint. rewrite length_set_currentIndex.
    cbn [RouteManager.currentIndex RouteManager.set_currentIndex].
    destruct (Z.ltb_spec target (RouteManager.length_ (route s))); [|lia].
    apply index_is_Some. cbn [RouteManager.waypoints RouteManager.set_currentIndex].
    unfold RouteManager.length_ in *. lia. }
  destruct Hsome as [waypoint ->].
  cbn [updateFloatingUI set_transitions route isPlaying isPaused timers
       playbackTimer cycles uiBar transitions].
  split; [done|]. split.
  { unfold cursorInRange, RouteManager.length_ in *. simpl. lia. }
  split; [done|]. split; [done|]. split; [done|]. split; [done|].
  split; [done|]. split; [done|].
  unfold TransitionEngine.isBusy. intros Hbusy.
  unfold TransitionEngine.call, TransitionEngine.transitionTo_call.
  cbn [transitions set_route]. rewrite Hbusy. cbn. by rewrite app_nil_r.
Qed.

Ltac inList :=
  solve [repeat first [apply list_elem_of_here | apply list_elem_of_further]].

Lemma speed_cases (name : string) :
  name ∈ speedOrder ->
  name = "walking" \/ name = "cycling" \/ name = "driving" \/ name = "flying".
Proof.
  unfold speedOrder. rewrite !elem_of_cons, elem_of_nil. tauto.
Qed.

Lemma indexOf_unknown (name : string) : name ∉ speedOrder -> indexOf name = -1.
Proof.
  unfold speedOrder. rewrite !not_elem_of_cons. intros (H1 & H2 & H3 & H4 & _).
  unfold indexOf, speedOrder. cbn [list_find].
  repeat (case_decide; [by subst|]). done.
Qed.

Lemma speedUp_speed (s : state) :
  speed (speedUp s) =
    if indexOf (speed s) <? Z.of_nat (length speedOrder) - 1
    then default (speed s) (JS.index speedOrder (indexOf (speed s) + 1))
    else speed s.
Proof. unfold speedUp. by destruct (Z.ltb _ _). Qed.

Lemma slowDown_speed (s : state) :
  speed (slowDown s) =
    if 0 <? indexOf (speed s)
    then default (speed s) (JS.index speedOrder (indexOf (speed s) - 1))
    else speed s.
Proof. unfold slowDown. by destruct (Z.ltb _ _). Qed.

(** X28: The speed ladder.  From one of the four speeds, [speedUp] never
    lengthens the interval between frames and [slowDown] never shortens
    it; each stays within the four speeds, and below the top they undo
    each other.  A speed that is none of the four (the popup can set any)
    plays at the interval of cycling, unless it names a property that
    [this.speeds] inherits: what is found then is no number, and the
    timeout gets the delay 0.  Either way [slowDown] leaves such a speed
    and [speedUp] turns it into walking, the slowest. *)
Theorem speed_ladder (s : state) :
  (speed s ∈ speedOrder ->
   speed (speedUp s) ∈ speedOrder /\ speed (slowDown s) ∈ speedOrder /\
   interval (speedUp s) <= interval s <= interval (slowDown s) /\
   (speed s <> "flying" ->
    interval (speedUp s) < interval s /\ speed (slowDown (speedUp s)) = speed s) /\
   (speed s <> "walking" ->
    interval s < interval (slowDown s) /\ speed (speedUp (slowDown s)) = speed s)) /\
  (speed s ∉ speedOrder ->
   (speed s ∉ inheritedKeys -> interval s = 1200) /\
   (speed s ∈ inheritedKeys -> interval s = 0) /\
   speed (slowDown s) = speed s /\
   speed (speedUp s) = "walking" /\ interval (speedUp s) = 2500).
Proof.
  unfold interval.
  rewrite ?slowDown_speed, ?speedUp_speed. rewrite ?slowDown_speed, ?speedUp_speed.
  split.
  - intros Hknown. apply speed_cases in Hknown.
    destruct Hknown as [E|[E|[E|E]]]; rewrite E;
      (split; [vm_compute; inList|]); (split; [vm_compute; inList|]);
      (split; [by vm_compute|]);
      split; intros Hne; try done; by vm_compute.
  - intros Hunknown. rewrite (indexOf_unknown _ Hunknown).
    assert (Hspeed : speedOf (speed s) = None).
    { revert Hunknown. unfold speedOrder. rewrite !not_elem_of_cons.
      intros (H1 & H2 & H3 & H4 & _).
      unfold speedOf, speeds. cbn [list_find fst].
      repeat (case_decide; [by subst|]). done. }
    unfold speedsAt at 1 2. rewrite Hspeed.
    split; [intros Hout; by rewrite bool_decide_eq_false_2|].
    split; [intros Hin; by rewrite bool_decide_eq_true_2|].
    by vm_compute.
Qed.

End SkipAndSpeed.

Lemma skip_clamps_witness :
  let s := @Controller.run flatMath [Controller.SetRoute threePoints] Controller.init in
  RouteManager.currentIndex (Controller.route (@Controller.skip flatMath 1000 s)) =
    RouteManager.length_ (Controller.route s) - 1.
Proof.
  intros s.
  destruct (@skip_clamps flatMath s 1000) as (Hroute & _).
  - unfold cursorInRange. vm_compute. split; discriminate.
  - rewrite Hroute. vm_compute. reflexivity.
Defined.

Lemma speed_ladder_witness :
  Controller.interval (Controller.speedUp Controller.init) <
  Controller.interval Controller.init /\
  Controller.interval (Controller.set_speed "constructor" Controller.init) = 0 /\
  Controller.interval (Controller.set_speed "running" Controller.init) = 1200.
Proof.
  destruct (speed_ladder Controller.init) as [Hknown _].
  destruct Hknown as (_ & _ & _ & Hup & _);
    [apply list_elem_of_further, list_elem_of_here|].
  split; [by apply Hup|].
  destruct (speed_ladder (Controller.set_speed "constructor" Controller.init))
    as [_ Hother].
  destruct (speed_ladder (Controller.set_speed "running" Controller.init))
    as [_ Hother'].
  assert (Hn : "constructor" ∉ Controller.speedOrder)
    by (apply (bool_decide_unpack _); by vm_compute).
  assert (Hn' : "running" ∉ Controller.speedOrder)
    by (apply (bool_decide_unpack _); by vm_compute).
  destruct (Hother Hn) as (_ & Hin & _).
  destruct (Hother' Hn') as (Hout & _).
  split; [apply Hin, list_elem_of_here|].
  apply Hout. apply (bool_decide_unpack _). by vm_compute.
Defined.

(** ** Street View controller: the navigation arrow *)

Section NavigationArrow.
Import StreetView.







End NavigationArrow.


(** ** Street View controller: the event emitter *)

Section Emitter.
Import StreetView.
Context {D : Type}.

Lemma on_lookup (event : string) (callback : nat) (ls : gmap string (list nat)) :
  on event callback ls !! event = Some (default [] (ls !! event) ++ [callback]).
Proof.
  unfold on.
  destruct (decide (is_Some (ls !! event))) as [Hsome|Hnone]; cbv zeta.
  - by rewrite lookup_insert_eq.
  - rewrite lookup_insert_eq. rewrite lookup_insert_eq.
    apply eq_None_not_Some in Hnone. by rewrite Hnone.
Qed.

Lemma on_lookup_ne (event other : string) (callback : nat) (ls : gmap string (list nat)) :
  other <> event -> on event callback ls !! other = ls !! other.
Proof.
  intros Hne. unfold on.
  destruct (decide (is_Some (ls !! event))); cbv zeta.
  - by rewrite lookup_insert_ne.
  - by rewrite !lookup_insert_ne.
Qed.

Lemma off_lookup_ne (event other : string) (callback : nat) (ls : gmap string (list nat)) :
  other <> event -> off event callback ls !! other = ls !! other.
Proof.
  intros Hne. unfold off.
  destruct (ls !! event) as [callbacks|]; [|done].
  destruct (list_find _ callbacks) as [[idx cb]|]; [|done].
  by rewrite lookup_insert_ne.
Qed.

Lemma list_find_snoc_new (callbacks : list nat) (callback : nat) :
  callback ∉ callbacks ->
  list_find (fun cb => cb = callback) (callbacks ++ [callback]) =
    Some (length callbacks, callback).
Proof.
  intros Hnew. apply list_find_Some. split; [by apply list_lookup_middle|].
  split; [done|]. intros j cb Hj Hlt Heq. subst cb.
  rewrite lookup_app_l in Hj by done.
  apply Hnew. by eapply list_elem_of_lookup_2.
Qed.

Lemma delete_snoc {A} (l : list A) (x : A) : base.delete (length l) (l ++ [x]) = l.
Proof.
  rewrite delete_take_drop, take_app_length.
  rewrite drop_ge by (rewrite length_app; simpl; lia). by rewrite app_nil_r.
Qed.

(** X30: The event emitter.  [emit] calls the callbacks of the event in the
    order in which they were registered, each with the data; [on] adds
    the callback at the end; [on] and [off] for one event leave every
    other event alone; and [off] undoes [on] for a callback that was not
    registered before, as far as [emit] can tell. *)
Theorem emitter_on_off (event other : string) (callback : nat) (data : D)
    (ls : gmap string (list nat)) :
  emit event data (on event callback ls) = emit event data ls ++ [(callback, data)] /\
  (other <> event ->
   emit other data (on event callback ls) = emit other data ls /\
   emit other data (off event callback ls) = emit other data ls) /\
  (callback ∉ default [] (ls !! event) ->
   off event callback ls = ls /\
   emit event data (off event callback (on event callback ls)) = emit event data ls).
Proof.
  split; [|split].
  - unfold emit. rewrite on_lookup.
    destruct (ls !! event); cbn [default]; [by rewrite map_app|done].
  - intros Hne. unfold emit. by rewrite on_lookup_ne, off_lookup_ne.
  - intros Hnew. split.
    + unfold off. destruct (ls !! event) as [callbacks|] eqn:Hcbs; [|done].
      simpl in Hnew.
      destruct (list_find _ callbacks) as [[idx cb]|] eqn:Hfind; [|done].
      apply list_find_Some in Hfind as (Hidx & -> & _).
      destruct Hnew. by eapply list_elem_of_lookup_2.
    + unfold emit at 1. unfold off. rewrite on_lookup.
      rewrite list_find_snoc_new by done.
      rewrite lookup_insert_eq, delete_snoc.
      unfold emit. by destruct (ls !! event).
Qed.

End Emitter.

Lemma emitter_on_off_witness :
  StreetView.emit "ready" tt
    (StreetView.off "ready" 7%nat (StreetView.on "ready" 7%nat ∅)) =
  StreetView.emit "ready" tt (∅ : gmap string (list nat)).
Proof.
  destruct (emitter_on_off "ready" "other" 7%nat tt (∅ : gmap string (list nat)))
    as (_ & _ & Hoff).
  apply Hoff. rewrite lookup_empty. simpl. apply not_elem_of_nil.
Defined.

(** ** Playback controller: pause and play during a transition *)

Section PausePlay.
Context `{JSMath}.
Import Controller.

(** Resuming a call that is not the last one made. *)
Lemma resume_at (e : TransitionEngine.state) (f : option string)
    (v : list TransitionEngine.viewerCall) (ps rest : list TransitionEngine.promise)
    (p : TransitionEngine.pc) (o : TransitionEngine.outcome) :
  TransitionEngine.resume (length ps) o
    {| TransitionEngine.engine := e; TransitionEngine.frame := f;
       TransitionEngine.viewer := v;
       TransitionEngine.promises := ps ++ TransitionEngine.Pending p :: rest |} =
  {| TransitionEngine.engine := fst (fst (TransitionEngine.transitionTo_resume p o e));
     TransitionEngine.frame := f;
     TransitionEngine.viewer :=
       v ++ snd (fst (TransitionEngine.transitionTo_resume p o e));
     TransitionEngine.promises :=
       ps ++ TransitionEngine.promiseOf
               (snd (TransitionEngine.transitionTo_resume p o e)) :: rest |}.
Proof.
  unfold TransitionEngine.resume.
  cbn [TransitionEngine.promises TransitionEngine.engine TransitionEngine.frame
       TransitionEngine.viewer].
  rewrite list_lookup_middle by done.
  destruct (TransitionEngine.transitionTo_resume p o e) as [[e' sent] r].
  cbn [fst snd]. f_equal. rewrite insert_app_r_alt by lia.
  by rewrite Nat.sub_diag.
Qed.

(** A transition in progress that nothing disturbs resolves with true,
    whatever calls were made after it. *)
Lemma in_flight_fulfilled (e : TransitionEngine.state) (f : option string)
    (v : list TransitionEngine.viewerCall) (ps rest : list TransitionEngine.promise)
    (targetPosition : GeoPoint) (targetHeading : option Q) :
  TransitionEngine.promises
    (resumeAll (length ps) (replicate 6 TransitionEngine.Fulfilled)
       {| TransitionEngine.engine := e; TransitionEngine.frame := f;
          TransitionEngine.viewer := v;
          TransitionEngine.promises :=
            ps ++ TransitionEngine.Pending
                    (TransitionEngine.On_delay50 targetPosition targetHeading) :: rest |}) =
  ps ++ TransitionEngine.Resolved true :: rest.
Proof.
  unfold resumeAll.
  destruct targetHeading as [h|]; cbn [foldl replicate];
    repeat (rewrite resume_at;
            cbn [TransitionEngine.transitionTo_resume TransitionEngine.inTry
                 TransitionEngine.tryBody TransitionEngine.tryCatchFinally
                 TransitionEngine.promiseOf fst snd]);
    [done|].
  rewrite resume_settled; [done|].
  intros p. cbn [TransitionEngine.promises]. by rewrite list_lookup_middle.
Qed.

(** A call on a busy engine. *)
Lemma call_busy (t : TransitionEngine.sys) (targetPosition : GeoPoint)
    (targetHeading : option Q) :
  TransitionEngine.isTransitioning (TransitionEngine.engine t) = true ->
  TransitionEngine.call targetPosition targetHeading t =
    {| TransitionEngine.engine := TransitionEngine.engine t;
       TransitionEngine.frame := TransitionEngine.frame t;
       TransitionEngine.viewer := TransitionEngine.viewer t;
       TransitionEngine.promises :=
         TransitionEngine.promises t ++ [TransitionEngine.Resolved false] |}.
Proof.
  intros Hbusy. unfold TransitionEngine.call, TransitionEngine.transitionTo_call.
  rewrite Hbusy. cbn. by rewrite app_nil_r.
Qed.

Lemma pause_state (s : state) (handle : nat) :
  playbackTimer s = Some handle ->
  pause s =
    {| route := route s; transitions := transitions s; cache := cache s;
       isPlaying := false; isPaused := true; speed := speed s;
       playbackTimer := None; settings_ := settings_ s;
       timers := filter (λ t, fst t ≠ handle) (timers s);
       nextTimer := nextTimer s; cycles := cycles s;
       uiShown := uiShown s;
       uiBar := RouteManager.getProgress (route s);
       sent := sent s ++ [StatusMsg false true (RouteManager.getProgress (route s))] |}.
Proof.
  intros Htimer. unfold pause, clearPlaybackTimer.
  cbn [set_playing playbackTimer]. rewrite Htimer. reflexivity.
Qed.

Lemma play_state (s : state) (next : GeoPoint) :
  RouteManager.hasRoute (route s) = true ->
  isPlaying s = false ->
  RouteManager.getNextWaypoint (route s) = Some next ->
  play s =
    {| route := route s;
       transitions :=
         TransitionEngine.call next
           (if autoHeading (settings_ s)
            then Some (RouteManager.getHeadingToNext (route s)) else None)
           (transitions s);
       cache := CacheManager.precacheRoute (RouteManager.waypoints (route s))
                  (RouteManager.currentIndex (route s)) (cache s);
       isPlaying := true; isPaused := false; speed := speed s;
       playbackTimer := playbackTimer s; settings_ := settings_ s;
       timers := timers s; nextTimer := nextTimer s;
       cycles := cycles s ++ [length (TransitionEngine.promises (transitions s))];
       uiShown := true;
       uiBar := RouteManager.getProgress (route s);
       sent := sent s ++ [StatusMsg true false (RouteManager.getProgress (route s))] |}.
Proof.
  intros Hroute Hp Hnext. unfold play. rewrite Hroute, Hp. cbn [negb].
  unfold advanceFrame_call.
  cbn [sendStatusUpdate send updateFloatingUI showFloatingUI set_playing
       isPlaying isPaused route negb orb].
  rewrite Hnext. reflexivity.
Qed.

(** The parked [advanceFrame] of a running playback is resumed after its
    transition was turned away. *)
Lemma cycle_resumes_failed (s : state) (i promise : nat) :
  isPlaying s = true -> isPaused s = false ->
  cycles s !! i = Some promise ->
  TransitionEngine.promises (transitions s) !! promise =
    Some (TransitionEngine.Resolved false) ->
  step s (CycleResumes i) =
    {| route := route s; transitions := transitions s; cache := cache s;
       isPlaying := isPlaying s; isPaused := isPaused s; speed := speed s;
       playbackTimer := Some (nextTimer s); settings_ := settings_ s;
       timers := timers s ++ [(nextTimer s, interval s)];
       nextTimer := S (nextTimer s);
       cycles := base.delete i (cycles s);
       uiShown := uiShown s; uiBar := uiBar s; sent := sent s |}.
Proof.
  intros Hp Hq Hi Hpromise. cbn [step]. rewrite Hi, Hpromise.
  unfold advanceFrame_resume. cbn [set_cycles isPlaying isPaused].
  assert (Hcond : isPlaying s && negb (isPaused s) = true) by (by rewrite Hp, Hq).
  rewrite Hcond. unfold setTimeout. reflexivity.
Qed.

Lemma step_pause (s : state) : step s Pause = pause s.
Proof. reflexivity. Qed.

Lemma step_play (s : state) : step s Play = play s.
Proof. reflexivity. Qed.

Lemma run_nil (s : state) : run [] s = s.
Proof. reflexivity. Qed.

Lemma filter_twice {A} (P : A -> Prop) `{forall x, Decision (P x)} (l : list A) :
  filter P (filter P l) = filter P l.
Proof.
  induction l as [|x l IH]; [done|].
  destruct (decide (P x)) as [Hx|Hx].
  - rewrite (filter_cons_True P x l Hx).
    rewrite (filter_cons_True P x _ Hx). by rewrite IH.
  - by rewrite (filter_cons_False P x l Hx).
Qed.

Lemma hasRoute_next (rm : RouteManager.state) (next : GeoPoint) :
  0 <= RouteManager.currentIndex rm ->
  RouteManager.getNextWaypoint rm = Some next ->
  RouteManager.hasRoute rm = true.
Proof.
  unfold RouteManager.getNextWaypoint, RouteManager.hasRoute. intros Hcur.
  destruct (Z.ltb_spec (RouteManager.currentIndex rm + 1) (RouteManager.length_ rm));
    [|done].
  intros _. by destruct (Z.ltb_spec 1 (RouteManager.length_ rm)); [|lia].
Qed.

(** X26: Pausing and starting again while a transition is in progress leaves
    two timeouts pending instead of one.  From any steady state before
    the end of the route, with transitions enabled: the [advanceFrame]
    started by [play] finds the engine busy and schedules a timeout when
    it is resumed, and the [advanceFrame] that was parked all along
    schedules another when its transition ends.  Both will run
    [advanceFrame]; only the later one is remembered in [playbackTimer],
    so [pause] and [stop] can clear no other. *)
Theorem pause_play_in_flight_two_timers (s : state) (handle : nat) (next : GeoPoint) :
  steady s ->
  playbackTimer s = Some handle ->
  handle ∈ (fst <$> timers s) ->
  TransitionEngine.enabled
    (TransitionEngine.settings_ (TransitionEngine.engine (transitions s))) = true ->
  RouteManager.getNextWaypoint (route s) = Some next ->
  let s' := run (pausePlayInFlight s handle) s in
  isPlaying s' = true /\ isPaused s' = false /\
  timers s' =
    filter (λ t, fst t ≠ handle) (timers s) ++
    [(nextTimer s, interval s); (S (nextTimer s), interval s)] /\
  playbackTimer s' = Some (S (nextTimer s)) /\
  RouteManager.currentIndex (route s') = RouteManager.currentIndex (route s) + 1.
Proof.
  intros (Hp & Hq & _ & Hidle & Hcur) Htimer Hin Hon Hnext s'. subst s'.
  pose proof (hasRoute_next _ _ Hcur Hnext) as Hroute.
  unfold pausePlayInFlight.
  set (id := length (TransitionEngine.promises (transitions s))).
  set (i := length (cycles s)).
  rewrite run_app, !run_cons, run_nil, run_app, run_one.
  rewrite (timer_fires s handle next Hp Hq Hin Hnext). fold id.
  set (heading := if autoHeading (settings_ s)
                  then Some (RouteManager.getHeadingToNext (route s)) else None).
  rewrite step_pause, step_play.
  erewrite (pause_state _ handle); [|exact Htimer].
  cbn [route transitions cache speed settings_ timers nextTimer cycles uiShown].
  erewrite (play_state _ next); [|exact Hroute|reflexivity|exact Hnext].
  cbn [route transitions cache speed settings_ timers nextTimer cycles uiShown
       playbackTimer sent].
  fold heading.
  rewrite (call_idle_enabled (transitions s) next heading Hidle Hon). fold id.
  set (e1 := fst (fst (TransitionEngine.tryStart (TransitionEngine.frame (transitions s))
                         next heading
                         (TransitionEngine.set_isTransitioning true
                            (TransitionEngine.engine (transitions s)))))).
  assert (Hbusy : TransitionEngine.isTransitioning e1 = true).
  { subst e1. unfold TransitionEngine.tryStart.
    by destruct (TransitionEngine.truthy _). }
  rewrite call_busy by exact Hbusy.
  cbn [TransitionEngine.engine TransitionEngine.frame TransitionEngine.viewer
       TransitionEngine.promises].
  rewrite length_app. cbn [length]. fold id.
  replace (id + 1)%nat with (S id) by lia.
  rewrite <- !app_assoc. cbn [app].
  erewrite (cycle_resumes_failed _ (S i) (S id)); cycle 1.
  { reflexivity. }
  { reflexivity. }
  { cbn [cycles]. rewrite lookup_app_r by (subst i; lia).
    by replace (S i - length (cycles s))%nat with 1%nat by (subst i; lia). }
  { cbn [transitions TransitionEngine.promises].
    rewrite lookup_app_r by (subst id; lia).
    by replace (S id - length (TransitionEngine.promises (transitions s)))%nat
      with 1%nat by (subst id; lia). }
  cbn [route transitions cache isPlaying isPaused speed settings_ timers nextTimer
       cycles uiShown uiBar sent].
  assert (Hdel : base.delete (S i) (cycles s ++ [id; S id]) = cycles s ++ [id]).
  { replace (cycles s ++ [id; S id]) with ((cycles s ++ [id]) ++ [S id])
      by (by rewrite <- app_assoc).
    replace (S i) with (length (cycles s ++ [id]))
      by (rewrite length_app; simpl; subst i; lia).
    apply delete_snoc. }
  rewrite Hdel.
  rewrite transitionResumes_run, engineResumes_resumeAll.
  unfold set_transitions.
  cbn [route transitions cache isPlaying isPaused speed settings_ timers nextTimer
       cycles uiShown uiBar sent playbackTimer].
  erewrite (cycle_resumes _ i id next); cycle 1.
  { reflexivity. }
  { reflexivity. }
  { cbn [cycles]. by apply list_lookup_middle. }
  { cbn [transitions]. unfold id. rewrite in_flight_fulfilled.
    by apply list_lookup_middle. }
  { exact Hnext. }
  cbn [isPlaying isPaused timers playbackTimer route nextTimer
       RouteManager.currentIndex RouteManager.set_currentIndex].
  split; [done|]. split; [done|]. split; [|done].
  rewrite filter_twice, <- app_assoc. reflexivity.
Qed.

End PausePlay.

Lemma pause_play_in_flight_two_timers_witness :
  let s := @Controller.run flatMath
             ([Controller.SetRoute threePoints; Controller.Play] ++
              transitionResumes smoothTransition ++ [Controller.CycleResumes 0])
             Controller.init in
  let s' := @Controller.run flatMath (pausePlayInFlight s 1) s in
  Controller.isPlaying s' = true /\
  Controller.timers s' =
    filter (λ t, fst t ≠ 1%nat) (Controller.timers s) ++
    [(Controller.nextTimer s, Controller.interval s);
     (S (Controller.nextTimer s), Controller.interval s)].
Proof.
  intros s s'.
  assert (Hsteady : steady s).
  { unfold steady. split; [vm_compute; reflexivity|].
    split; [vm_compute; reflexivity|]. split.
    - exists 1%nat. split; [vm_compute; reflexivity|].
      vm_compute. apply list_elem_of_here.
    - split; [vm_compute; reflexivity|]. vm_compute. discriminate. }
  assert (Hnext : exists next,
            RouteManager.getNextWaypoint (Controller.route s) = Some next).
  { eexists. vm_compute. reflexivity. }
  destruct Hnext as [next Hnext].
  destruct (@pause_play_in_flight_two_timers flatMath s 1 next Hsteady)
    as (Hp & _ & Htimers & _).
  - vm_compute. reflexivity.
  - vm_compute. apply list_elem_of_here.
  - vm_compute. reflexivity.
  - exact Hnext.
  - exact (conj Hp Htimers).
Defined.
